(** * The batch translation engine of ai-excel-translator

    A shallow embedding of [constants.py], of the token estimators and
    batch packers of [processor/docx_processor.py] and
    [processor/excel_processor.py], and of [GeminiTranslator] in
    [translators.py], followed by the properties of the specification.

    Python [str] values are modelled as [string], one [ascii] per character,
    so [len(text)] is [String.length text]; Python lists are [list]s; the
    translation cache, a [dict] keyed by [(text, target_lang)] pairs, is a
    [gmap (string * string) string].  The remote service is a parameter: a
    state machine that answers each request with a JSON array of strings,
    with a body that is no JSON, or with an exception.  Requests and sleeps
    are recorded in a trace; logging is left out. *)

From Stdlib Require Import Ascii String QArith Qround.
From stdpp Require Import gmap strings list fin_maps pretty.

Local Open Scope string_scope.
Local Open Scope list_scope.
Local Open Scope nat_scope.

(** ** constants.py *)

Definition MAX_TOKENS_PER_REQUEST : nat := 400.
Definition MAX_RETRIES : nat := 10.
Definition RETRY_DELAY : Q := 1%Q.
Definition QUOTA_EXHAUST_ERROR_DELAY : Q := 10%Q.
Definition REQUEST_DELAY : Q := (1 # 2)%Q.
Definition TRANSLATION_DELIMITER : string := "|//|".
Definition CHARS_PER_TOKEN : nat := 4.

(** ** Token estimators *)

(** [math.ceil(a / b)] for non-negative integers [a] and positive [b]: the
    true quotient is taken in [Q] and rounded up. *)
Definition math_ceil_div (a b : nat) : nat :=
  Z.to_nat (Qceiling (inject_Z (Z.of_nat a) / inject_Z (Z.of_nat b))).

Module DocxProcessor.

(** [math.ceil(len(text) / CHARS_PER_TOKEN) if CHARS_PER_TOKEN > 0
    else len(text)] *)
Definition estimate_tokens (text : string) : nat :=
  if 0 <? CHARS_PER_TOKEN
  then math_ceil_div (String.length text) CHARS_PER_TOKEN
  else String.length text.

(** The three locals of [create_batches]. *)
Record packer := Packer {
  batches : list (list (nat * string));
  current_batch : list (nat * string);
  current_token_count : nat
}.

(** One iteration of the [for index, text in items_with_indices] loop. *)
Definition create_batches_step (st : packer) (item : nat * string) : packer :=
  let '(index, text) := item in
  let token_count := estimate_tokens text in
  let st :=
    if (MAX_TOKENS_PER_REQUEST <? current_token_count st + token_count)
       && negb (bool_decide (current_batch st = []))
    then Packer (batches st ++ [current_batch st]) [] 0
    else st in
  Packer (batches st)
         (current_batch st ++ [(index, text)])
         (current_token_count st + token_count).

Definition create_batches (items_with_indices : list (nat * string))
  : list (list (nat * string)) :=
  let st := foldl create_batches_step (Packer [] [] 0) items_with_indices in
  if bool_decide (current_batch st = [])
  then batches st
  else batches st ++ [current_batch st].

End DocxProcessor.

Module ExcelProcessor.

(** [len(text) // CHARS_PER_TOKEN] *)
Definition estimate_tokens (text : string) : nat :=
  String.length text / CHARS_PER_TOKEN.

Record packer := Packer {
  batches : list (list string);
  current_batch : list string;
  current_tokens : nat
}.

(** One iteration of the [for text in texts] loop. *)
Definition create_batches_step (st : packer) (text : string) : packer :=
  let text_tokens := estimate_tokens (text +:+ TRANSLATION_DELIMITER) in
  if MAX_TOKENS_PER_REQUEST <? current_tokens st + text_tokens
  then
    Packer (if bool_decide (current_batch st = [])
            then batches st
            else batches st ++ [current_batch st])
           [text]
           text_tokens
  else
    Packer (batches st)
           (current_batch st ++ [text])
           (current_tokens st + text_tokens).

Definition create_batches (texts : list string) : list (list string) :=
  let st := foldl create_batches_step (Packer [] [] 0) texts in
  if bool_decide (current_batch st = [])
  then batches st
  else batches st ++ [current_batch st].

(** The cost [create_batches] charges for a text: the estimate of the
    text followed by the delimiter. *)
Definition batch_cost (text : string) : nat :=
  estimate_tokens (text +:+ TRANSLATION_DELIMITER).

End ExcelProcessor.

(** ** translators.py *)

Definition QUOTA_EXHAUST_ERROR : string := "429 Resource has been exhausted".

(** Exceptions, by the classes the handlers of [_call_translation_api] tell
    apart: [ValueError] (with its subclasses, [json.JSONDecodeError] among
    them) is caught by [except ValueError]; every other exception is caught
    by [except Exception].  [str(e)] is the carried message. *)
Inductive exn :=
| ValueError (msg : string)
| TypeError (msg : string)
| IndexError (msg : string)
| RemoteError (msg : string).

Definition exn_str (e : exn) : string :=
  match e with
  | ValueError msg | TypeError msg | IndexError msg | RemoteError msg => msg
  end.

Definition is_ValueError (e : exn) : bool :=
  match e with ValueError _ => true | _ => false end.

(** What one [self.model.generate_content(...)] request comes back with.
    The request fixes [response_schema=list[str]], so a body that parses is
    an array of strings; [Body_invalid] is a body [json.loads] rejects. *)
Inductive body :=
| Body_array (items : list string)
| Body_invalid.

Inductive response :=
| Resp_text (b : body)
| Resp_raise (e : exn).

(** Observable effects, in the order they happen. *)
Inductive event :=
| Ev_request (texts : list string) (target_lang : string)
| Ev_sleep (seconds : Q).

Definition is_request (e : event) : bool :=
  match e with Ev_request _ _ => true | Ev_sleep _ => false end.

Definition count_requests (tr : list event) : nat :=
  length (filter (λ e, is_request e = true) tr).

(** [needle in hay] on Python strings. *)
Fixpoint str_contains (needle hay : string) : bool :=
  if String.prefix needle hay then true
  else match hay with
       | EmptyString => false
       | String _ rest => str_contains needle rest
       end.

(** [re.sub(c + "+", c, text)]: every run of [c] becomes a single [c]. *)
Fixpoint collapse_runs (c : ascii) (text : string) : string :=
  match text with
  | EmptyString => EmptyString
  | String a rest =>
      match rest with
      | String b _ =>
          if Ascii.eqb a c && Ascii.eqb b c
          then collapse_runs c rest
          else String a (collapse_runs c rest)
      | EmptyString => String a EmptyString
      end
  end.

(** [str.isspace] on the ASCII range: TAB, LF, VT, FF, CR, the four
    separators 28 to 31 and the space. *)
Definition isspace (a : ascii) : bool :=
  let n := nat_of_ascii a in
  ((9 <=? n) && (n <=? 13)) || ((28 <=? n) && (n <=? 32)).

Fixpoint lstrip (text : string) : string :=
  match text with
  | EmptyString => EmptyString
  | String a rest => if isspace a then lstrip rest else text
  end.

Fixpoint rstrip (text : string) : string :=
  match text with
  | EmptyString => EmptyString
  | String a rest =>
      match rstrip rest with
      | EmptyString => if isspace a then EmptyString else String a EmptyString
      | kept => String a kept
      end
  end.

Definition strip (text : string) : string := lstrip (rstrip text).

Definition LF : ascii := ascii_of_nat 10.
Definition TAB : ascii := ascii_of_nat 9.

Definition _preprocess_text (text : string) : string :=
  let text := collapse_runs LF text in
  strip (collapse_runs TAB text).

(** The message of the [ValueError] raised on a cardinality mismatch. *)
Definition count_mismatch_msg (expected got attempt : nat) : string :=
  "Translation count mismatch: expected " +:+ pretty expected
  +:+ ", got " +:+ pretty got
  +:+ " (attempt " +:+ pretty (attempt + 1) +:+ ")".

(** The message of the [json.JSONDecodeError] for a body that is no JSON. *)
Definition json_decode_msg : string :=
  "Expecting value: line 1 column 1 (char 0)".

Section Translator.

(** The remote service: any deterministic machine with a state of its
    own.  The prompt is a function of the texts, the target language and
    the fixed file description, so the service is given the first two. *)
Context {Service : Type}.
Variable generate_content :
  Service → list string → string → response * Service.

(** The translator object together with the world it acts on. *)
Record state := State {
  translation_cache : gmap (string * string) string;
  remote : Service;
  trace : list event
}.

(** A run returns, raises, or needs a deeper recursion than the depth it
    was given ([OutOfFuel]).  A run that is [OutOfFuel] at every depth is
    one that, in Python, recurses until the interpreter's recursion limit
    stops it. *)
Inductive outcome (A : Type) :=
| Ret (a : A) (s : state)
| Raise (e : exn) (s : state)
| OutOfFuel.
Global Arguments Ret {A} a s.
Global Arguments Raise {A} e s.
Global Arguments OutOfFuel {A}.

Definition M (A : Type) : Type := state → outcome A.

Global Instance M_ret : MRet M := λ A a s, Ret a s.
Global Instance M_bind : MBind M := λ A B k m s,
  match m s with
  | Ret a s' => k a s'
  | Raise e s' => Raise e s'
  | OutOfFuel => OutOfFuel
  end.

Definition raise {A} (e : exn) : M A := λ s, Raise e s.

(** [try: body except ... as e: handler e] *)
Definition try_except {A} (body : M A) (handler : exn → M A) : M A := λ s,
  match body s with
  | Ret a s' => Ret a s'
  | Raise e s' => handler e s'
  | OutOfFuel => OutOfFuel
  end.

Definition emit (e : event) : M unit := λ s,
  Ret () (State (translation_cache s) (remote s) (trace s ++ [e])).

Definition sleep (seconds : Q) : M unit := emit (Ev_sleep seconds).

Definition get_cache : M (gmap (string * string) string) := λ s,
  Ret (translation_cache s) s.

Definition cache_store (key : string * string) (value : string) : M unit :=
  λ s, Ret () (State (<[key := value]> (translation_cache s))
                     (remote s) (trace s)).

(** [json.loads(self.model.generate_content(prompt, ...).text)] *)
Definition request (texts : list string) (target_lang : string)
  : M (list string) := λ s,
  let '(r, q) := generate_content (remote s) texts target_lang in
  let s' := State (translation_cache s) q
                  (trace s ++ [Ev_request texts target_lang]) in
  match r with
  | Resp_raise e => Raise e s'
  | Resp_text Body_invalid => Raise (ValueError json_decode_msg) s'
  | Resp_text (Body_array items) => Ret items s'
  end.

(** What an iteration of the retry loop does to the loop. *)
Inductive loop_ctl :=
| Return (result : option (list string))
| Continue.

(** [first_half + second_half], where either may be [None]. *)
Definition py_add (a b : option (list string)) : M (option (list string)) :=
  match a, b with
  | Some x, Some y => mret (Some (x ++ y))
  | None, Some _ =>
      raise (TypeError "unsupported operand type(s) for +: 'NoneType' and 'list'")
  | Some _, None =>
      raise (TypeError "can only concatenate list (not 'NoneType') to list")
  | None, None =>
      raise (TypeError "unsupported operand type(s) for +: 'NoneType' and 'NoneType'")
  end.

(** The body of the [try] block. *)
Definition try_block (texts : list string) (target_lang : string)
    (attempt : nat) : M loop_ctl :=
  new_translations ← request texts target_lang;
  sleep REQUEST_DELAY;;
  if negb (length new_translations =? length texts)
  then raise (ValueError (count_mismatch_msg (length texts)
                                             (length new_translations) attempt))
  else mret (Return (Some new_translations)).

(** The split of the adaptive policy (lines 96 to 99); [recur] is the
    recursive reference to [_call_translation_api]. *)
Definition split_retry
    (recur : list string → string → M (option (list string)))
    (texts : list string) (target_lang : string) : M loop_ctl :=
  let midpoint := length texts / 2 in
  first_half ← recur (take midpoint texts) target_lang;
  second_half ← recur (drop midpoint texts) target_lang;
  result ← py_add first_half second_half;
  mret (Return result).

(** One iteration of [for attempt in range(MAX_RETRIES)]. *)
Definition attempt_body
    (recur : list string → string → M (option (list string)))
    (texts : list string) (target_lang : string) (attempt : nat)
  : M loop_ctl :=
  try_except (try_block texts target_lang attempt) (λ e,
    match e with
    | ValueError msg =>
        if str_contains "Translation count mismatch" msg
        then split_retry recur texts target_lang
        else mret (Return (Some (replicate (length texts) "")))
    | _ =>
        (if str_contains QUOTA_EXHAUST_ERROR (exn_str e)
         then sleep QUOTA_EXHAUST_ERROR_DELAY
         else mret ());;
        if attempt =? MAX_RETRIES - 1
        then mret (Return None)
        else sleep RETRY_DELAY;; mret Continue
    end).

(** The [for] loop over the attempts, with the [return None] after it. *)
Fixpoint for_attempts (body : nat → M loop_ctl) (attempts : list nat)
  : M (option (list string)) :=
  match attempts with
  | [] => mret None
  | attempt :: rest =>
      c ← body attempt;
      match c with
      | Return result => mret result
      | Continue => for_attempts body rest
      end
  end.

(** [fuel] bounds the depth of the recursion. *)
Fixpoint _call_translation_api (fuel : nat) (texts : list string)
    (target_lang : string) : M (option (list string)) :=
  match fuel with
  | 0 => λ _, OutOfFuel
  | S fuel' =>
      for_attempts (attempt_body (_call_translation_api fuel') texts target_lang)
                   (seq 0 MAX_RETRIES)
  end.

(** The locals the loop of [_get_cached_translations] updates. *)
Record partition := Partition {
  part_indices : list nat;
  part_texts : list string;
  part_translations : list (option string)
}.

Definition _get_cached_translations_step
    (cache : gmap (string * string) string) (target_lang : string)
    (p : partition) (item : nat * string) : partition :=
  let '(i, text) := item in
  match cache !! (text, target_lang) with
  | Some cached => Partition (part_indices p) (part_texts p)
                             (<[i := Some cached]> (part_translations p))
  | None => Partition (part_indices p ++ [i]) (part_texts p ++ [text])
                      (part_translations p)
  end.

(** [enumerate(l)] *)
Definition enumerate {A} (l : list A) : list (nat * A) := imap pair l.

(** Returns the two lists and the list [translations] as the loop leaves
    it (Python updates it in place).  Every index written is below
    [len(translations)], where the list assignment cannot fail. *)
Definition _get_cached_translations (texts : list string)
    (target_lang : string) (translations : list (option string))
  : M partition :=
  cache ← get_cache;
  mret (foldl (_get_cached_translations_step cache target_lang)
              (Partition [] [] translations) (enumerate texts)).

(** [l[i]] *)
Definition py_index {A} (l : list A) (i : nat) : M A :=
  match l !! i with
  | Some x => mret x
  | None => raise (IndexError "list index out of range")
  end.

(** [l[i] = x] *)
Definition py_assign {A} (l : list A) (i : nat) (x : A) : M (list A) :=
  if i <? length l then mret (<[i := x]> l)
  else raise (IndexError "list assignment index out of range").

(** The loop of lines 45 to 51 of [translate_batch]. *)
Fixpoint store_translations (uncached_indices : list nat)
    (uncached_texts : list string) (target_lang : string)
    (new_translations : list (nat * string))
    (translations : list (option string)) : M (list (option string)) :=
  match new_translations with
  | [] => mret translations
  | (i, translated_text) :: rest =>
      original_index ← py_index uncached_indices i;
      original_text ← py_index uncached_texts i;
      cache_store (original_text, target_lang) translated_text;;
      translations ← py_assign translations original_index (Some translated_text);
      store_translations uncached_indices uncached_texts target_lang rest
                         translations
  end.

Fixpoint _handle_failed_translations (uncached_indices : list nat)
    (texts : list string) (translations : list (option string))
  : M (list (option string)) :=
  match uncached_indices with
  | [] => mret translations
  | i :: rest =>
      slot ← py_index translations i;
      translations ←
        match slot with
        | None => text ← py_index texts i; py_assign translations i (Some text)
        | Some _ => mret translations
        end;
      _handle_failed_translations rest texts translations
  end.

(** A slot of the result is [None] while it is unset. *)
Definition translate_batch (fuel : nat) (texts : list string)
    (target_lang : string) : M (list (option string)) :=
  match texts with
  | [] => mret []
  | _ :: _ =>
      let num_texts := length texts in
      let translations := replicate num_texts None in
      let texts := _preprocess_text <$> texts in
      '(Partition uncached_indices uncached_texts translations) ←
        _get_cached_translations texts target_lang translations;
      match uncached_texts with
      | _ :: _ =>
          new_translations ←
            _call_translation_api fuel uncached_texts target_lang;
          match new_translations with
          | Some ((_ :: _) as new_translations) =>
              store_translations uncached_indices uncached_texts target_lang
                                 (enumerate new_translations) translations
          | _ =>
              _handle_failed_translations uncached_indices texts translations
          end
      | [] => mret translations
      end
  end.

(** The state [s] after the service moved to [q] and the events [evs]
    happened. *)
Definition after (s : state) (q : Service) (evs : list event) : state :=
  State (translation_cache s) q (trace s ++ evs).

End Translator.

Arguments state : clear implicits.
Arguments outcome : clear implicits.
Arguments M : clear implicits.

(** The events of the [except Exception] handler for the exception [e]
    raised at the given attempt. *)
Definition backoff (e : exn) (attempt : nat) : list event :=
  (if str_contains QUOTA_EXHAUST_ERROR (exn_str e)
   then [Ev_sleep QUOTA_EXHAUST_ERROR_DELAY] else [])
  ++ (if attempt =? MAX_RETRIES - 1 then [] else [Ev_sleep RETRY_DELAY]).

(** ** Reading the cache and writing the results *)

(** The uncached occurrences of [texts], each with its index, in order:
    the pairs of [uncached_indices] and [uncached_texts]. *)
Definition misses (cache : gmap (string * string) string) (lang : string)
    (texts : list string) : list (nat * string) :=
  filter (λ item, cache !! (item.2, lang) = None) (imap pair texts).

(** The slots as [_get_cached_translations] leaves them. *)
Definition cached_slots (cache : gmap (string * string) string)
    (lang : string) (texts : list string) : list (option string) :=
  (λ text, cache !! (text, lang)) <$> texts.

(** The cache after the assignments [cache[(text, lang)] = translated], one
    per pair, in order. *)
Definition cache_writes (lang : string) (writes : list (string * string))
    (cache : gmap (string * string) string) : gmap (string * string) string :=
  foldl (λ c w, <[(w.1, lang) := w.2]> c) cache writes.

(** The slots after the assignments [translations[index] = translated]. *)
Definition slot_writes (writes : list (nat * string))
    (slots : list (option string)) : list (option string) :=
  foldl (λ tr w, <[w.1 := Some w.2]> tr) slots writes.

(** ** Mock remote services *)

(** The deterministic translation of the tests: a tag before the text. *)
Definition tag (text : string) : string := "T:" +:+ text.

(** Answers every request correctly. *)
Definition tagging (q : unit) (texts : list string) (lang : string)
  : response * unit :=
  (Resp_text (Body_array (tag <$> texts)), q).

(** Returns one element fewer than requested. *)
Definition drop_last (q : unit) (texts : list string) (lang : string)
  : response * unit :=
  (Resp_text (Body_array (removelast (tag <$> texts))), q).

(** Returns one element more than requested. *)
Definition too_long (q : unit) (texts : list string) (lang : string)
  : response * unit :=
  (Resp_text (Body_array ((tag <$> texts) ++ ["extra"])), q).

(** Throws a transient error on every request. *)
Definition always_failing (q : unit) (texts : list string) (lang : string)
  : response * unit :=
  (Resp_raise (RemoteError "503 Service Unavailable"), q).

(** Answers a request of two or more texts with a single element, throws a
    transient error on the request for the text [a] alone, and answers every
    other request correctly. *)
Definition half_failing (q : unit) (texts : list string) (lang : string)
  : response * unit :=
  (match texts with
   | _ :: _ :: _ => Resp_text (Body_array (take 1 (tag <$> texts)))
   | ["a"] => Resp_raise (RemoteError "503 Service Unavailable")
   | _ => Resp_text (Body_array (tag <$> texts))
   end, q).

(** Replays a script of responses, one per request, and answers correctly
    once the script is over. *)
Definition scripted (q : list response) (texts : list string) (lang : string)
  : response * list response :=
  match q with
  | r :: q' => (r, q')
  | [] => (Resp_text (Body_array (tag <$> texts)), [])
  end.

Definition quota_error : exn :=
  RemoteError "429 Resource has been exhausted (e.g. check quota).".

(** A translator that has made no request and cached nothing. *)
Definition fresh {Service} (q : Service) : state Service := State ∅ q [].

(** ** Batches and their costs *)

(** A batch respects the limit when it holds a single unit or its summed
    cost is within [MAX_TOKENS_PER_REQUEST]. *)
Definition batch_ok {A} (cost : A → nat) (b : list A) : Prop :=
  2 ≤ length b → sum_list_with cost b ≤ MAX_TOKENS_PER_REQUEST.

(** The state of a packing loop after the units [processed]: closed batches
    [bs], open batch [cur] and its running total [tok]. *)
Record pack_inv {A} (cost : A → nat) (processed : list A)
    (bs : list (list A)) (cur : list A) (tok : nat) : Prop := PackInv {
  inv_concat : concat bs ++ cur = processed;
  inv_nonempty : Forall (λ b, b ≠ []) bs;
  inv_closed_ok : Forall (batch_ok cost) bs;
  inv_open_ok : batch_ok cost cur;
  inv_total : tok = sum_list_with cost cur
}.

(** What the packers promise about their result [bs] for the input
    [units]. *)
Definition packed {A} (cost : A → nat) (units : list A)
    (bs : list (list A)) : Prop :=
  concat bs = units
  ∧ (units ≠ [] → bs ≠ [])
  ∧ Forall (λ b, b ≠ []) bs
  ∧ Forall (batch_ok cost) bs
  ∧ (∀ b u, b ∈ bs → u ∈ b → MAX_TOKENS_PER_REQUEST < cost u → b = [u]).

Definition docx_cost (item : nat * string) : nat :=
  DocxProcessor.estimate_tokens item.2.

(** A string of [n] copies of one character, for concrete inputs. *)
Definition text_of_length (n : nat) : string :=
  String.string_of_list_ascii (replicate n "x"%char).

(** ** What a call of the client leaves behind *)

(** A run of the client on [texts] that returns leaves the cache alone,
    only adds events to the trace, and returns [None] or a list as long as
    [texts]. *)
Definition returns_same_length {Service}
    (call : list string → string → M Service (option (list string)))
    (lang : string) : Prop :=
  ∀ texts s r s',
    call texts lang s = Ret r s' →
    translation_cache s' = translation_cache s
    ∧ (∃ evs, trace s' = trace s ++ evs)
    ∧ ∀ l, r = Some l → length l = length texts.

(** A response that sends the client into its degraded branch: a body that
    is no JSON, or a [ValueError] that is not a count mismatch. *)
Definition degrades (r : response) : bool :=
  match r with
  | Resp_text Body_invalid => true
  | Resp_raise (ValueError msg) =>
      negb (str_contains "Translation count mismatch" msg)
  | _ => false
  end.

(** A service that throws a transient error (one that is no [ValueError])
    on every request, in every state. *)
Definition always_transient {Service}
    (gen : Service → list string → string → response * Service) : Prop :=
  ∀ q texts lang, ∃ e q',
    gen q texts lang = (Resp_raise e, q') ∧ is_ValueError e = false.

(** The slots after [_handle_failed_translations]. *)
Definition fill_failed (indices : list nat) (texts : list string)
    (slots : list (option string)) : list (option string) :=
  foldl (λ tr i, match tr !! i, texts !! i with
                 | Some None, Some text => <[i := Some text]> tr
                 | _, _ => tr
                 end) slots indices.

(** The result of a call whose remote requests all failed: the cached
    value where there is one, the normalized text otherwise. *)
Definition fallback_slots (cache : gmap (string * string) string)
    (lang : string) (texts : list string) : list (option string) :=
  (λ text, Some (default text (cache !! (text, lang)))) <$> texts.

(** ** Shapes of normalized texts *)

(** No two adjacent characters of [text] are both [c]. *)
Fixpoint no_double (c : ascii) (text : string) : bool :=
  match text with
  | String a ((String b _) as rest) =>
      negb (Ascii.eqb a c && Ascii.eqb b c) && no_double c rest
  | _ => true
  end.

Definition head_char (text : string) : option ascii :=
  match text with
  | EmptyString => None
  | String a _ => Some a
  end.

Fixpoint last_char (text : string) : option ascii :=
  match text with
  | EmptyString => None
  | String a EmptyString => Some a
  | String _ rest => last_char rest
  end.

(** ** Services that translate *)

(** A service that answers every request with the translation [f] of each
    text, in order. *)
Definition answers_with {Service} (f : string → string)
    (gen : Service → list string → string → response * Service) : Prop :=
  ∀ q texts lang, ∃ q',
    gen q texts lang = (Resp_text (Body_array (f <$> texts)), q').

(** A service that answers every request with an array: the translations
    [f] of the texts, or, for a request of two texts or more, an array of
    another length. *)
Definition answers_or_miscounts {Service} (f : string → string)
    (gen : Service → list string → string → response * Service) : Prop :=
  ∀ q texts lang, ∃ items q',
    gen q texts lang = (Resp_text (Body_array items), q')
    ∧ (items = f <$> texts
       ∨ (2 ≤ length texts ∧ length items ≠ length texts)).

(** Every entry of the cache for the language [lang] is the translation
    [f] of its text. *)
Definition cache_agrees (f : string → string) (lang : string)
    (cache : gmap (string * string) string) : Prop :=
  ∀ t v, cache !! (t, lang) = Some v → v = f t.

(** Answers a request of two texts or more with an empty array and every
    other request correctly. *)
Definition singles_only (q : unit) (texts : list string) (lang : string)
  : response * unit :=
  (match texts with
   | _ :: _ :: _ => Resp_text (Body_array [])
   | _ => Resp_text (Body_array (tag <$> texts))
   end, q).

(** ** States a run ends in *)

(** The state a run leaves behind, when it returns or raises. *)
Definition final_state {Service A} (o : outcome Service A)
  : option (state Service) :=
  match o with
  | Ret _ s | Raise _ s => Some s
  | OutOfFuel => None
  end.

(** A run of the client that ends, by returning or by raising, leaves the
    cache as it was. *)
Definition keeps_cache {Service}
    (call : list string → string → M Service (option (list string)))
    (lang : string) : Prop :=
  ∀ texts s s',
    final_state (call texts lang s) = Some s' →
    translation_cache s' = translation_cache s.

(** ** Greedy packing *)

(** No batch could have taken the first unit of the batch after it: their
    costs together exceed the limit. *)
Definition greedy {A} (cost : A → nat) (bs : list (list A)) : Prop :=
  ∀ k b u rest,
    bs !! k = Some b → bs !! (S k) = Some (u :: rest) →
    MAX_TOKENS_PER_REQUEST < sum_list_with cost b + cost u.

(** The closed batches [bs] and the open batch [cur] of a packing loop:
    nothing is packed yet, or the open batch is not empty and the batches
    so far are greedy. *)
Definition greedy_inv {A} (cost : A → nat) (bs : list (list A))
    (cur : list A) : Prop :=
  (bs = [] ∧ cur = []) ∨ (cur ≠ [] ∧ greedy cost (bs ++ [cur])).

(** ** docx_processor.py: paragraphs *)

Module DocxDocument.







Section Walker.
Context {Service : Type}.
Variable generate_content :
  Service → list string → string → response * Service.




End Walker.


End DocxDocument.

(** The list after the assignments [l[index] = value], in order. *)
Definition assigns {A} (pairs : list (nat * A)) (l : list A) : list A :=
  foldl (λ acc w, <[w.1 := w.2]> acc) l pairs.

(** ** excel_processor.py: the cells of a sheet *)

Module ExcelSheet.

(** What [cell.value] can hold: nothing, a [str], or a value of another
    type (a number, a date, a boolean), which the code only tells apart
    from a [str]. *)
Inductive cell_value :=
| NoValue
| StrValue (text : string)
| OtherValue (n : Z).

(** The attributes of an openpyxl cell that the code reads. *)
Record Cell := mkCell {
  data_type : string;
  value : cell_value;
  row : nat;
  column : nat
}.








Section Cells.
Context {Service Sheet : Type}.
Variable generate_content :
  Service → list string → string → response * Service.

(** [sheet.cell(row=row, column=col).value = translation] *)
Variable set_value : Sheet → nat * nat → option string → Sheet.

(** [for j, translation in enumerate(translations)], from index [j] on. *)
Fixpoint write_translations (sheet : Sheet) (cell_positions : list (nat * nat))
    (cells_processed j : nat) (translations : list (option string)) : Sheet :=
  match translations with
  | [] => sheet
  | translation :: rest =>
      let idx := cells_processed + j in
      let sheet :=
        if idx <? length cell_positions
        then match cell_positions !! idx with
             | Some (row, col) => set_value sheet (row, col) translation
             | None => sheet
             end
        else sheet in
      write_translations sheet cell_positions cells_processed (S j) rest
  end.

(** [for batch in batches]; the log line is left out. *)
Fixpoint process_batches (fuel : nat) (batches : list (list string))
    (target_lang : string) (cell_positions : list (nat * nat))
    (sheet : Sheet) (cells_processed : nat) : M Service (nat * Sheet) :=
  match batches with
  | [] => mret (cells_processed, sheet)
  | batch :: rest =>
      translations ← translate_batch generate_content fuel batch target_lang;
      let sheet :=
        write_translations sheet cell_positions cells_processed 0
                           translations in
      process_batches fuel rest target_lang cell_positions sheet
                      (cells_processed + length batch)
  end.

(** Returns [cells_processed], and the sheet it has written to. *)
Definition _process_cell_batches (fuel : nat) (sheet : Sheet)
    (cells_to_process : list string) (cell_positions : list (nat * nat))
    (target_lang : string) : M Service (nat * Sheet) :=
  let batches := ExcelProcessor.create_batches cells_to_process in
  process_batches fuel batches target_lang cell_positions sheet 0.

End Cells.

(** The sheet after the assignments [writes], in order. *)
Definition written {Sheet : Type}
    (set_value : Sheet → nat * nat → option string → Sheet)
    (writes : list ((nat * nat) * option string)) (sheet : Sheet) : Sheet :=
  foldl (λ sheet w, set_value sheet w.1 w.2) sheet writes.

(** A sheet as the map from the positions to the values of its cells. *)
Definition set_cell (sheet : gmap (nat * nat) (option string))
    (position : nat * nat) (v : option string)
  : gmap (nat * nat) (option string) :=
  <[position := v]> sheet.


Definition position (cell : Cell) : nat * nat := (row cell, column cell).

End ExcelSheet.

(** ** powerpoint_processor.py *)

Module PowerPoint.

(** The shapes the code tells apart: a shape with a text frame (its
    paragraphs, each the list of the texts of its runs), a group of
    shapes, a graphic frame with a table (the texts of its cells, row by
    row, the order in which the code visits them), and any other shape.
    In python-pptx the three tests are exclusive.  [T] is what a text
    holds: a [str] in the file, and whatever was assigned afterwards. *)
#[local] Set Warnings "-register-all".

Inductive shape (T : Type) : Type :=
| TextFrame (paragraphs : list (list T))
| GroupShape (shapes : list (shape T))
| TableShape (cells : list T)
| OtherShape.

Arguments TextFrame {T} paragraphs.
Arguments GroupShape {T} shapes.
Arguments TableShape {T} cells.
Arguments OtherShape {T}.

(** The shape with [g] applied to the text of every run and [h] to the
    text of every table cell. *)
Fixpoint shape_map {A B : Type} (g h : A → B) (sh : shape A) : shape B :=
  match sh with
  | TextFrame paragraphs => TextFrame (map (map g) paragraphs)
  | GroupShape shapes => GroupShape (map (shape_map g h) shapes)
  | TableShape cells => TableShape (map h cells)
  | OtherShape => OtherShape
  end.

(** The texts of the runs of a shape, in the order of the walk. *)
Fixpoint shape_runs {T : Type} (sh : shape T) : list T :=
  match sh with
  | TextFrame paragraphs => concat paragraphs
  | GroupShape shapes => concat (map shape_runs shapes)
  | _ => []
  end.

Definition slide_runs {T : Type} (slide : list (shape T)) : list T :=
  concat (map shape_runs slide).

(** The texts of the table cells of a shape. *)
Fixpoint shape_cells {T : Type} (sh : shape T) : list T :=
  match sh with
  | GroupShape shapes => concat (map shape_cells shapes)
  | TableShape cells => cells
  | _ => []
  end.

Definition slide_cells {T : Type} (slide : list (shape T)) : list T :=
  concat (map shape_cells slide).

Section Replace.
Context {T : Type}.

(** [for run in paragraph.runs]; [translated_texts !! text_index] is
    [Some] exactly when [text_index < len(translated_texts)]. *)
Fixpoint replace_runs (runs : list T) (translated_texts : list T)
    (text_index : nat) : list T * nat :=
  match runs with
  | [] => ([], text_index)
  | run :: rest =>
      match translated_texts !! text_index with
      | Some text =>
          let '(rest, text_index) :=
            replace_runs rest translated_texts (text_index + 1) in
          (text :: rest, text_index)
      | None =>
          let '(rest, text_index) :=
            replace_runs rest translated_texts text_index in
          (run :: rest, text_index)
      end
  end.

(** [for paragraph in shape.text_frame.paragraphs] *)
Fixpoint replace_paragraphs (paragraphs : list (list T))
    (translated_texts : list T) (text_index : nat)
  : list (list T) * nat :=
  match paragraphs with
  | [] => ([], text_index)
  | runs :: rest =>
      let '(runs, text_index) :=
        replace_runs runs translated_texts text_index in
      let '(rest, text_index) :=
        replace_paragraphs rest translated_texts text_index in
      (runs :: rest, text_index)
  end.

(** Returns the shape as the call leaves it, and the new [text_index]. *)
Fixpoint _replace_text_in_shape (sh : shape T) (translated_texts : list T)
    (text_index : nat) {struct sh} : shape T * nat :=
  match sh with
  | TextFrame paragraphs =>
      let '(paragraphs, text_index) :=
        replace_paragraphs paragraphs translated_texts text_index in
      (TextFrame paragraphs, text_index)
  | GroupShape shapes =>
      let '(shapes, text_index) :=
        (fix replace_shapes (shapes : list (shape T)) (text_index : nat)
           : list (shape T) * nat :=
           match shapes with
           | [] => ([], text_index)
           | s :: rest =>
               let '(s, text_index) :=
                 _replace_text_in_shape s translated_texts text_index in
               let '(rest, text_index) := replace_shapes rest text_index in
               (s :: rest, text_index)
           end) shapes text_index in
      (GroupShape shapes, text_index)
  | TableShape _ | OtherShape => (sh, text_index)
  end.

(** [for shape in ...: text_index = _replace_text_in_shape(...)] *)
Fixpoint replace_shapes (shapes : list (shape T)) (translated_texts : list T)
    (text_index : nat) : list (shape T) * nat :=
  match shapes with
  | [] => ([], text_index)
  | s :: rest =>
      let '(s, text_index) :=
        _replace_text_in_shape s translated_texts text_index in
      let '(rest, text_index) :=
        replace_shapes rest translated_texts text_index in
      (s :: rest, text_index)
  end.

(** The slide as the call leaves it. *)
Definition _replace_text_in_slide (slide : list (shape T))
    (translated_texts : list T) : list (shape T) :=
  (replace_shapes slide translated_texts 0).1.

End Replace.

Section Slides.
Context {Service : Type}.
Variable generate_content :
  Service → list string → string → response * Service.

(** The body of the loops over the rows and the cells of a table:
    [if cell.text]. *)
Definition table_step (acc : list nat * list string) (item : nat * string)
  : list nat * list string :=
  let '(table_cells, table_texts) := acc in
  let '(cell, text) := item in
  if negb (String.eqb text "")
  then (table_cells ++ [cell], table_texts ++ [text])
  else acc.

(** [table_cells[index].text = translated_text], over the pairs of
    [enumerate(translated_texts)]. *)
Fixpoint assign_cells (cells : list (option string)) (table_cells : list nat)
    (pairs : list (nat * option string)) : M Service (list (option string)) :=
  match pairs with
  | [] => mret cells
  | (index, translated_text) :: rest =>
      cell ← py_index table_cells index;
      assign_cells (<[cell := translated_text]> cells) table_cells rest
  end.

(** A cell is named by its place in the table; returns the texts of the
    cells as the call leaves them. *)
Definition _translate_table (fuel : nat) (cells : list string)
    (target_lang : string) : M Service (list (option string)) :=
  let '(table_cells, table_texts) :=
    foldl table_step ([], []) (enumerate cells) in
  translated_texts ←
    translate_batch generate_content fuel table_texts target_lang;
  assign_cells (Some <$> cells) table_cells (enumerate translated_texts).

(** Returns the texts, and the shape as the call leaves it: a table in
    it has been translated. *)
Fixpoint _extract_text_from_shape (fuel : nat) (sh : shape string)
    (target_lang : string) {struct sh}
  : M Service (list string * shape (option string)) :=
  match sh with
  | TextFrame paragraphs =>
      mret (concat paragraphs, TextFrame (map (map Some) paragraphs))
  | GroupShape shapes =>
      '(texts, shapes) ←
        (fix extract_shapes (shapes : list (shape string))
           : M Service (list string * list (shape (option string))) :=
           match shapes with
           | [] => mret ([], [])
           | s :: rest =>
               '(texts, s) ← _extract_text_from_shape fuel s target_lang;
               '(more, rest) ← extract_shapes rest;
               mret (texts ++ more, s :: rest)
           end) shapes;
      mret (texts, GroupShape shapes)
  | TableShape cells =>
      cells ← _translate_table fuel cells target_lang;
      mret ([], TableShape cells)
  | OtherShape => mret ([], OtherShape)
  end.

(** [for shape in slide.shapes: texts.extend(...)] *)
Fixpoint _collect_texts_from_slide (fuel : nat) (slide : list (shape string))
    (target_lang : string)
  : M Service (list string * list (shape (option string))) :=
  match slide with
  | [] => mret ([], [])
  | s :: rest =>
      '(texts, s) ← _extract_text_from_shape fuel s target_lang;
      '(more, rest) ← _collect_texts_from_slide fuel rest target_lang;
      mret (texts ++ more, s :: rest)
  end.

(** The body of the loop over the slides, without the progress
    callback. *)
Definition process_slide (fuel : nat) (slide : list (shape string))
    (target_lang : string) : M Service (list (shape (option string))) :=
  '(texts, slide) ← _collect_texts_from_slide fuel slide target_lang;
  match texts with
  | [] => mret slide
  | _ :: _ =>
      translated_texts ←
        translate_batch generate_content fuel texts target_lang;
      mret (_replace_text_in_slide slide translated_texts)
  end.

(** The slides as [process_powerpoint] saves them. *)
Fixpoint process_powerpoint (fuel : nat) (slides : list (list (shape string)))
    (target_lang : string)
  : M Service (list (list (shape (option string)))) :=
  match slides with
  | [] => mret []
  | slide :: rest =>
      slide ← process_slide fuel slide target_lang;
      rest ← process_powerpoint fuel rest target_lang;
      mret (slide :: rest)
  end.

End Slides.

(** What a translating service leaves in a run and in a table cell. *)
Definition translated_run (f : string → string) (text : string)
  : option string :=
  Some (f (_preprocess_text text)).

Definition translated_cell (f : string → string) (text : string)
  : option string :=
  if String.eqb text "" then Some text else Some (f (_preprocess_text text)).

End PowerPoint.

(** * Properties *)

(** ** Token estimators *)

Lemma math_ceil_div_4 (n : nat) : math_ceil_div n 4 = (n + 3) / 4.
Proof.
  unfold math_ceil_div.
  assert (Hq : (inject_Z (Z.of_nat n) / inject_Z (Z.of_nat 4) == Z.of_nat n # 4)%Q).
  { unfold Qeq, Qdiv, Qmult, Qinv, inject_Z. simpl. lia. }
  rewrite (Qceiling_comp _ _ Hq).
  unfold Qceiling, Qfloor, Qopp. simpl Qnum. simpl Qden.
  apply Nat2Z.inj. rewrite Nat2Z.inj_div, Nat2Z.inj_add.
  change (Z.of_nat 3) with 3%Z. change (Z.of_nat 4) with 4%Z.
  change (Z.pos 4) with 4%Z.
  pose proof (Z.div_mod (- Z.of_nat n) 4 ltac:(lia)) as H1.
  pose proof (Z.mod_pos_bound (- Z.of_nat n) 4 ltac:(lia)) as H2.
  pose proof (Z.div_mod (Z.of_nat n + 3) 4 ltac:(lia)) as H3.
  pose proof (Z.mod_pos_bound (Z.of_nat n + 3) 4 ltac:(lia)) as H4.
  rewrite Z2Nat.id by lia. lia.
Qed.

Lemma length_append (a b : string) :
  String.length (a +:+ b) = String.length a + String.length b.
Proof. induction a as [|c a IH]; simpl; [done | by rewrite IH]. Qed.

Example docx_estimate_5 : DocxProcessor.estimate_tokens "hello" = 2.
Proof. reflexivity. Qed.

Example excel_estimate_5 : ExcelProcessor.estimate_tokens "hello" = 1.
Proof. reflexivity. Qed.

(** C5, as the claim states it, fails for the spreadsheet estimator: on a
    three-character text it returns 0, while the length divided by
    [CHARS_PER_TOKEN] and rounded up is 1. *)
Lemma C5_excel_estimate_is_not_ceiling :
  ExcelProcessor.estimate_tokens "abc" = 0
  ∧ math_ceil_div (String.length "abc") CHARS_PER_TOKEN = 1
  ∧ ¬ (∀ text, ExcelProcessor.estimate_tokens text
               = math_ceil_div (String.length text) CHARS_PER_TOKEN).
Proof.
  split; [reflexivity|]. split; [reflexivity|].
  intros H. specialize (H "abc"). vm_compute in H. discriminate.
Qed.

(** C5 (amended): the word-processor estimator returns the character count
    divided by 4 rounded up; the spreadsheet estimator returns it rounded
    down, and its packer charges each text together with the four-character
    delimiter, that is the rounded-down quotient plus one, which is never
    below the rounded-up quotient. *)
Theorem C5_estimate_tokens (text : string) :
  let n := String.length text in
  (n ≤ 4 * DocxProcessor.estimate_tokens text
   ∧ 4 * DocxProcessor.estimate_tokens text < n + 4)
  ∧ (4 * ExcelProcessor.estimate_tokens text ≤ n
     ∧ n < 4 * ExcelProcessor.estimate_tokens text + 4)
  ∧ ExcelProcessor.batch_cost text = ExcelProcessor.estimate_tokens text + 1
  ∧ DocxProcessor.estimate_tokens text ≤ ExcelProcessor.batch_cost text.
Proof.
  intros n.
  assert (Hd : DocxProcessor.estimate_tokens text = (n + 3) / 4).
  { unfold DocxProcessor.estimate_tokens. simpl (0 <? CHARS_PER_TOKEN).
    cbv iota. apply math_ceil_div_4. }
  assert (He : ExcelProcessor.estimate_tokens text = n / 4) by reflexivity.
  assert (Hb : ExcelProcessor.batch_cost text = n / 4 + 1).
  { unfold ExcelProcessor.batch_cost, ExcelProcessor.estimate_tokens.
    rewrite length_append. fold n.
    change (String.length TRANSLATION_DELIMITER) with (1 * 4).
    change CHARS_PER_TOKEN with 4. by rewrite Nat.div_add. }
  rewrite Hd, He, Hb.
  pose proof (Nat.div_mod (n + 3) 4 ltac:(lia)) as H1.
  pose proof (Nat.mod_upper_bound (n + 3) 4 ltac:(lia)) as H2.
  pose proof (Nat.div_mod n 4 ltac:(lia)) as H3.
  pose proof (Nat.mod_upper_bound n 4 ltac:(lia)) as H4.
  lia.
Qed.

(** ** Batch packing *)

Section PackInv.
Context {A : Type} (cost : A → nat).

Lemma batch_ok_singleton (u : A) : batch_ok cost [u].
Proof. unfold batch_ok. simpl. lia. Qed.

Lemma batch_ok_nil : batch_ok cost [].
Proof. unfold batch_ok. simpl. lia. Qed.

Lemma pack_inv_init : pack_inv cost [] [] [] 0.
Proof.
  split; [done | constructor | constructor | apply batch_ok_nil | done].
Qed.

(** Closing the open batch. *)
Lemma pack_inv_close processed bs cur tok :
  cur ≠ [] →
  pack_inv cost processed bs cur tok →
  pack_inv cost processed (bs ++ [cur]) [] 0.
Proof.
  intros Hne [Hc Hn Hok Hcur Htok]. split.
  - rewrite concat_app. simpl. by rewrite !app_nil_r.
  - apply Forall_app. split; [done | by constructor].
  - apply Forall_app. split; [done | by constructor].
  - apply batch_ok_nil.
  - done.
Qed.

(** Adding a unit to the open batch, which is empty or has room. *)
Lemma pack_inv_add processed bs cur tok u :
  (cur ≠ [] → tok + cost u ≤ MAX_TOKENS_PER_REQUEST) →
  pack_inv cost processed bs cur tok →
  pack_inv cost (processed ++ [u]) bs (cur ++ [u]) (tok + cost u).
Proof.
  intros Hroom [Hc Hn Hok Hcur Htok]. split.
  - by rewrite app_assoc, Hc.
  - done.
  - done.
  - intros Hlen. rewrite sum_list_with_app. simpl.
    destruct cur as [|c cur']; [simpl in Hlen; lia|].
    rewrite <- Htok. specialize (Hroom ltac:(done)). lia.
  - rewrite sum_list_with_app. simpl. lia.
Qed.

(** The final flush of the open batch. *)
Lemma pack_inv_final processed bs cur tok :
  pack_inv cost processed bs cur tok →
  packed cost processed (if bool_decide (cur = []) then bs else bs ++ [cur]).
Proof.
  intros [Hc Hn Hok Hcur Htok].
  set (r := if bool_decide (cur = []) then bs else bs ++ [cur]).
  assert (Hr1 : concat r = processed).
  { subst r. case_bool_decide as Hcur0.
    - subst cur. by rewrite app_nil_r in Hc.
    - rewrite concat_app. simpl. by rewrite app_nil_r. }
  assert (Hr2 : Forall (λ b, b ≠ []) r).
  { subst r. case_bool_decide; [done|].
    apply Forall_app. split; [done | by constructor]. }
  assert (Hr3 : Forall (batch_ok cost) r).
  { subst r. case_bool_decide; [done|].
    apply Forall_app. split; [done | by constructor]. }
  split; [done|]. split; [|split; [done|split; [done|]]].
  - intros Hne Hnil. rewrite Hnil in Hr1. simpl in Hr1. congruence.
  - intros b u Hb Hu Hbig.
    rewrite Forall_forall in Hr3. specialize (Hr3 b Hb).
    pose proof (sum_list_with_in u cost b Hu) as Hsum.
    destruct b as [|x [|y b']].
    + by apply elem_of_nil in Hu.
    + apply list_elem_of_singleton in Hu. by subst.
    + unfold batch_ok in Hr3. simpl length in Hr3.
      specialize (Hr3 ltac:(lia)). lia.
Qed.

End PackInv.

Lemma docx_step_inv processed st item :
  pack_inv docx_cost processed (DocxProcessor.batches st)
           (DocxProcessor.current_batch st)
           (DocxProcessor.current_token_count st) →
  let st' := DocxProcessor.create_batches_step st item in
  pack_inv docx_cost (processed ++ [item]) (DocxProcessor.batches st')
           (DocxProcessor.current_batch st')
           (DocxProcessor.current_token_count st').
Proof.
  intros Hinv. destruct item as [index text].
  unfold DocxProcessor.create_batches_step.
  change (DocxProcessor.estimate_tokens text) with (docx_cost (index, text)).
  destruct (MAX_TOKENS_PER_REQUEST <? _) eqn:Hlt; simpl andb.
  - case_bool_decide as Hcur; simpl negb; cbv iota; simpl.
    + apply (pack_inv_add docx_cost processed _ _
               (DocxProcessor.current_token_count st));
        [intros; congruence | done].
    + apply (pack_inv_add docx_cost processed _ [] 0); [done|].
      by eapply pack_inv_close.
  - simpl. apply (pack_inv_add docx_cost processed _ _
                    (DocxProcessor.current_token_count st)); [|done].
    intros _. apply Nat.ltb_ge in Hlt. done.
Qed.

Lemma docx_loop_inv items processed st :
  pack_inv docx_cost processed (DocxProcessor.batches st)
           (DocxProcessor.current_batch st)
           (DocxProcessor.current_token_count st) →
  let st' := foldl DocxProcessor.create_batches_step st items in
  pack_inv docx_cost (processed ++ items) (DocxProcessor.batches st')
           (DocxProcessor.current_batch st')
           (DocxProcessor.current_token_count st').
Proof.
  revert processed st.
  induction items as [|item items IH]; intros processed st Hinv; simpl.
  - by rewrite app_nil_r.
  - rewrite (cons_middle item), app_assoc.
    apply IH. by apply docx_step_inv.
Qed.

Lemma docx_create_batches_packed items :
  packed docx_cost items (DocxProcessor.create_batches items).
Proof.
  unfold DocxProcessor.create_batches.
  apply (pack_inv_final docx_cost items _ _
           (DocxProcessor.current_token_count
              (foldl DocxProcessor.create_batches_step
                     (DocxProcessor.Packer [] [] 0) items))).
  apply (docx_loop_inv items [] (DocxProcessor.Packer [] [] 0)).
  apply pack_inv_init.
Qed.

Lemma excel_step_inv processed st text :
  pack_inv ExcelProcessor.batch_cost processed (ExcelProcessor.batches st)
           (ExcelProcessor.current_batch st)
           (ExcelProcessor.current_tokens st) →
  let st' := ExcelProcessor.create_batches_step st text in
  pack_inv ExcelProcessor.batch_cost (processed ++ [text])
           (ExcelProcessor.batches st')
           (ExcelProcessor.current_batch st')
           (ExcelProcessor.current_tokens st').
Proof.
  intros Hinv. unfold ExcelProcessor.create_batches_step.
  change (ExcelProcessor.estimate_tokens (text +:+ TRANSLATION_DELIMITER))
    with (ExcelProcessor.batch_cost text).
  destruct (MAX_TOKENS_PER_REQUEST <? _) eqn:Hlt; simpl.
  - case_bool_decide as Hcur.
    + pose proof (inv_total _ _ _ _ _ Hinv) as Htok.
      rewrite Hcur in Htok, Hinv. simpl in Htok. rewrite Htok in Hinv.
      by apply (pack_inv_add ExcelProcessor.batch_cost processed _ [] 0).
    + apply (pack_inv_add ExcelProcessor.batch_cost processed _ [] 0); [done|].
      by eapply pack_inv_close.
  - apply (pack_inv_add ExcelProcessor.batch_cost processed _ _
             (ExcelProcessor.current_tokens st)); [|done].
    intros _. apply Nat.ltb_ge in Hlt. done.
Qed.

Lemma excel_loop_inv texts processed st :
  pack_inv ExcelProcessor.batch_cost processed (ExcelProcessor.batches st)
           (ExcelProcessor.current_batch st)
           (ExcelProcessor.current_tokens st) →
  let st' := foldl ExcelProcessor.create_batches_step st texts in
  pack_inv ExcelProcessor.batch_cost (processed ++ texts)
           (ExcelProcessor.batches st')
           (ExcelProcessor.current_batch st')
           (ExcelProcessor.current_tokens st').
Proof.
  revert processed st.
  induction texts as [|text texts IH]; intros processed st Hinv; simpl.
  - by rewrite app_nil_r.
  - rewrite (cons_middle text), app_assoc.
    apply IH. by apply excel_step_inv.
Qed.

Lemma excel_create_batches_packed texts :
  packed ExcelProcessor.batch_cost texts (ExcelProcessor.create_batches texts).
Proof.
  unfold ExcelProcessor.create_batches.
  apply (pack_inv_final ExcelProcessor.batch_cost texts _ _
           (ExcelProcessor.current_tokens
              (foldl ExcelProcessor.create_batches_step
                     (ExcelProcessor.Packer [] [] 0) texts))).
  apply (excel_loop_inv texts [] (ExcelProcessor.Packer [] [] 0)).
  apply pack_inv_init.
Qed.

Example docx_batches_small :
  DocxProcessor.create_batches [(0, "ab"); (3, "cd")] = [[(0, "ab"); (3, "cd")]].
Proof. reflexivity. Qed.

(** Units of estimated cost 399, 1 and 399, and one of cost 1000. *)
Lemma docx_boundary_example :
  let a := (0, text_of_length 1596) in
  let b := (1, text_of_length 4) in
  let c := (2, text_of_length 1596) in
  let big := (7, text_of_length 4000) in
  docx_cost <$> [a; b; c; big] = [399; 1; 399; 1000]
  ∧ DocxProcessor.create_batches [a; b; c] = [[a; b]; [c]]
  ∧ DocxProcessor.create_batches [big] = [[big]].
Proof. vm_compute. done. Qed.

Lemma excel_boundary_example :
  let a := text_of_length 1592 in
  let b := text_of_length 2 in
  let c := text_of_length 1593 in
  let big := text_of_length 3996 in
  ExcelProcessor.batch_cost <$> [a; b; c; big] = [399; 1; 399; 1000]
  ∧ ExcelProcessor.create_batches [a; b; c] = [[a; b]; [c]]
  ∧ ExcelProcessor.create_batches [big] = [[big]].
Proof. vm_compute. done. Qed.

(** C6: both packers keep every unit and the order of the units
    (concatenating the batches gives the input back), return at least one
    batch for a non-empty input and no empty batch, keep the summed
    estimated cost of every batch of two or more units within
    [MAX_TOKENS_PER_REQUEST], and leave a unit whose cost alone exceeds the
    limit in a batch of its own; units of cost 399, 1 and 399 are packed as
    two batches, the first two units together. *)
Theorem C6_create_batches (items : list (nat * string)) (texts : list string) :
  packed docx_cost items (DocxProcessor.create_batches items)
  ∧ packed ExcelProcessor.batch_cost texts (ExcelProcessor.create_batches texts)
  ∧ (let a := (0, text_of_length 1596) in
     let b := (1, text_of_length 4) in
     let c := (2, text_of_length 1596) in
     docx_cost <$> [a; b; c] = [399; 1; 399]
     ∧ DocxProcessor.create_batches [a; b; c] = [[a; b]; [c]])
  ∧ (let a := text_of_length 1592 in
     let b := text_of_length 2 in
     let c := text_of_length 1593 in
     ExcelProcessor.batch_cost <$> [a; b; c] = [399; 1; 399]
     ∧ ExcelProcessor.create_batches [a; b; c] = [[a; b]; [c]]).
Proof.
  split; [apply docx_create_batches_packed|].
  split; [apply excel_create_batches_packed|].
  split.
  - destruct docx_boundary_example as (_ & Hb & _).
    split; [vm_compute; reflexivity | exact Hb].
  - destruct excel_boundary_example as (_ & Hb & _).
    split; [vm_compute; reflexivity | exact Hb].
Qed.

(** ** The translation client: one attempt *)

Lemma str_contains_mismatch (expected got attempt : nat) :
  str_contains "Translation count mismatch"
               (count_mismatch_msg expected got attempt) = true.
Proof. reflexivity. Qed.

Lemma str_contains_json_decode_msg :
  str_contains "Translation count mismatch" json_decode_msg = false.
Proof. reflexivity. Qed.

(** Runs the monadic steps visible in the goal. *)
Ltac mrun :=
  repeat first
    [ progress (unfold mbind, M_bind)
    | progress (unfold sleep, emit, mret, M_ret, raise, get_cache, cache_store)
    | progress (cbv beta iota)
    | progress (cbn [translation_cache remote trace]) ].

Section Attempt.
Context {Service : Type}.
Variable gen : Service → list string → string → response * Service.

Lemma bind_unfold {A B} (m : M Service A) (k : A → M Service B) s :
  (m ≫= k) s = match m s with
               | Ret a s' => k a s'
               | Raise e s' => Raise e s'
               | OutOfFuel => OutOfFuel
               end.
Proof. reflexivity. Qed.

Lemma try_block_ok texts lang attempt s items q :
  gen (remote s) texts lang = (Resp_text (Body_array items), q) →
  length items = length texts →
  try_block gen texts lang attempt s
  = Ret (Return (Some items))
        (after s q [Ev_request texts lang; Ev_sleep REQUEST_DELAY]).
Proof.
  intros Hgen Hlen. unfold try_block, request, after. mrun.
  rewrite Hgen. mrun. rewrite Hlen, Nat.eqb_refl. mrun.
  by rewrite <- app_assoc.
Qed.

Lemma try_block_mismatch texts lang attempt s items q :
  gen (remote s) texts lang = (Resp_text (Body_array items), q) →
  length items ≠ length texts →
  try_block gen texts lang attempt s
  = Raise (ValueError (count_mismatch_msg (length texts) (length items) attempt))
          (after s q [Ev_request texts lang; Ev_sleep REQUEST_DELAY]).
Proof.
  intros Hgen Hlen. unfold try_block, request, after. mrun.
  rewrite Hgen. mrun. apply Nat.eqb_neq in Hlen. rewrite Hlen. mrun.
  by rewrite <- app_assoc.
Qed.

Lemma try_block_invalid texts lang attempt s q :
  gen (remote s) texts lang = (Resp_text Body_invalid, q) →
  try_block gen texts lang attempt s
  = Raise (ValueError json_decode_msg) (after s q [Ev_request texts lang]).
Proof.
  intros Hgen. unfold try_block, request, after. mrun.
  by rewrite Hgen.
Qed.

Lemma try_block_raise texts lang attempt s e q :
  gen (remote s) texts lang = (Resp_raise e, q) →
  try_block gen texts lang attempt s
  = Raise e (after s q [Ev_request texts lang]).
Proof.
  intros Hgen. unfold try_block, request, after. mrun.
  by rewrite Hgen.
Qed.

Variable recur : list string → string → M Service (option (list string)).

Lemma attempt_body_ok texts lang attempt s items q :
  gen (remote s) texts lang = (Resp_text (Body_array items), q) →
  length items = length texts →
  attempt_body gen recur texts lang attempt s
  = Ret (Return (Some items))
        (after s q [Ev_request texts lang; Ev_sleep REQUEST_DELAY]).
Proof.
  intros Hgen Hlen. unfold attempt_body, try_except.
  by rewrite (try_block_ok _ _ _ _ _ _ Hgen Hlen).
Qed.

Lemma attempt_body_mismatch texts lang attempt s items q :
  gen (remote s) texts lang = (Resp_text (Body_array items), q) →
  length items ≠ length texts →
  attempt_body gen recur texts lang attempt s
  = split_retry recur texts lang
      (after s q [Ev_request texts lang; Ev_sleep REQUEST_DELAY]).
Proof.
  intros Hgen Hlen. unfold attempt_body, try_except.
  rewrite (try_block_mismatch _ _ _ _ _ _ Hgen Hlen).
  by rewrite str_contains_mismatch.
Qed.

Lemma attempt_body_invalid texts lang attempt s q :
  gen (remote s) texts lang = (Resp_text Body_invalid, q) →
  attempt_body gen recur texts lang attempt s
  = Ret (Return (Some (replicate (length texts) "")))
        (after s q [Ev_request texts lang]).
Proof.
  intros Hgen. unfold attempt_body, try_except.
  by rewrite (try_block_invalid _ _ _ _ _ Hgen).
Qed.

Lemma attempt_body_value_error texts lang attempt s msg q :
  gen (remote s) texts lang = (Resp_raise (ValueError msg), q) →
  str_contains "Translation count mismatch" msg = false →
  attempt_body gen recur texts lang attempt s
  = Ret (Return (Some (replicate (length texts) "")))
        (after s q [Ev_request texts lang]).
Proof.
  intros Hgen Hmsg. unfold attempt_body, try_except.
  by rewrite (try_block_raise _ _ _ _ _ _ Hgen), Hmsg.
Qed.

Lemma attempt_body_transient texts lang attempt s e q :
  gen (remote s) texts lang = (Resp_raise e, q) →
  is_ValueError e = false →
  attempt_body gen recur texts lang attempt s
  = Ret (if attempt =? MAX_RETRIES - 1 then Return None else Continue)
        (after s q (Ev_request texts lang :: backoff e attempt)).
Proof.
  intros Hgen He. unfold attempt_body, try_except.
  rewrite (try_block_raise _ _ _ _ _ _ Hgen).
  unfold backoff, after.
  destruct e as [msg|msg|msg|msg]; [done| | |];
    simpl exn_str;
    destruct (str_contains QUOTA_EXHAUST_ERROR msg);
    destruct (attempt =? MAX_RETRIES - 1); mrun;
    by rewrite <- ?app_assoc.
Qed.

End Attempt.

(** ** The translation client: the retry loop and the recursion *)

Section Client.
Context {Service : Type}.
Variable gen : Service → list string → string → response * Service.

Lemma for_attempts_cons (body : nat → M Service loop_ctl) a rest s :
  for_attempts body (a :: rest) s
  = match body a s with
    | Ret (Return r) s' => Ret r s'
    | Ret Continue s' => for_attempts body rest s'
    | Raise e s' => Raise e s'
    | OutOfFuel => OutOfFuel
    end.
Proof.
  simpl. mrun. destruct (body a s) as [[r|] s'|e s'|]; reflexivity.
Qed.

Lemma call_unfold fuel texts lang :
  _call_translation_api gen (S fuel) texts lang
  = for_attempts (attempt_body gen (_call_translation_api gen fuel) texts lang)
                 (seq 0 MAX_RETRIES).
Proof. reflexivity. Qed.

Lemma attempt_body_value_error_mismatch recur texts lang attempt s msg q :
  gen (remote s) texts lang = (Resp_raise (ValueError msg), q) →
  str_contains "Translation count mismatch" msg = true →
  attempt_body gen recur texts lang attempt s
  = split_retry recur texts lang (after s q [Ev_request texts lang]).
Proof.
  intros Hgen Hmsg. unfold attempt_body, try_except.
  by rewrite (try_block_raise _ _ _ _ _ _ _ Hgen), Hmsg.
Qed.

Lemma split_retry_same_length recur texts lang (s : state Service) c s' :
  returns_same_length recur lang →
  split_retry recur texts lang s = Ret c s' →
  translation_cache s' = translation_cache s
  ∧ (∃ evs, trace s' = trace s ++ evs)
  ∧ ∀ l, c = Return (Some l) → length l = length texts.
Proof.
  intros Hrec. unfold split_retry. mrun.
  destruct (recur (take _ texts) lang s) as [r1 s1|e1 s1|] eqn:H1; [|done..].
  destruct (recur (drop _ texts) lang s1) as [r2 s2|e2 s2|] eqn:H2; [|done..].
  apply Hrec in H1 as (Hc1 & [ev1 Ht1] & Hl1).
  apply Hrec in H2 as (Hc2 & [ev2 Ht2] & Hl2).
  destruct r1 as [l1|], r2 as [l2|]; simpl; mrun; [|done..].
  intros [= <- <-]. split; [congruence|]. split.
  - exists (ev1 ++ ev2). by rewrite Ht2, Ht1, app_assoc.
  - intros l [= <-]. rewrite length_app, (Hl1 l1), (Hl2 l2) by done.
    rewrite length_take, length_drop. lia.
Qed.

Lemma after_same_length (s : state Service) q evs (c : loop_ctl) n :
  (∀ l, c = Return (Some l) → length l = n) →
  translation_cache (after s q evs) = translation_cache s
  ∧ (∃ evs', trace (after s q evs) = trace s ++ evs')
  ∧ ∀ l, c = Return (Some l) → length l = n.
Proof. intros Hl. split; [done|]. split; [by exists evs | done]. Qed.

Lemma split_retry_after_same_length recur texts lang
    (s : state Service) q evs c s' :
  returns_same_length recur lang →
  split_retry recur texts lang (after s q evs) = Ret c s' →
  translation_cache s' = translation_cache s
  ∧ (∃ evs', trace s' = trace s ++ evs')
  ∧ ∀ l, c = Return (Some l) → length l = length texts.
Proof.
  intros Hrec H.
  apply (split_retry_same_length _ _ _ _ _ _ Hrec) in H
    as (Hc & [evs' Ht] & Hl).
  split; [done|]. split; [|done].
  exists (evs ++ evs'). rewrite Ht. simpl. by rewrite app_assoc.
Qed.

Lemma attempt_body_same_length recur texts lang attempt
    (s : state Service) c s' :
  returns_same_length recur lang →
  attempt_body gen recur texts lang attempt s = Ret c s' →
  translation_cache s' = translation_cache s
  ∧ (∃ evs, trace s' = trace s ++ evs)
  ∧ ∀ l, c = Return (Some l) → length l = length texts.
Proof.
  intros Hrec.
  destruct (gen (remote s) texts lang) as [[[items|]|e] q] eqn:Hgen.
  - destruct (decide (length items = length texts)) as [Hlen|Hlen].
    + rewrite (attempt_body_ok _ _ _ _ _ _ _ _ Hgen Hlen).
      intros [= <- <-]. apply after_same_length. by intros l [= <-].
    + rewrite (attempt_body_mismatch _ _ _ _ _ _ _ _ Hgen Hlen).
      by apply split_retry_after_same_length.
  - rewrite (attempt_body_invalid _ _ _ _ _ _ _ Hgen).
    intros [= <- <-]. apply after_same_length.
    intros l [= <-]. by rewrite length_replicate.
  - destruct (is_ValueError e) eqn:He.
    + destruct e as [msg|msg|msg|msg]; simpl in He; try done.
      destruct (str_contains "Translation count mismatch" msg) eqn:Hmsg.
      * rewrite (attempt_body_value_error_mismatch _ _ _ _ _ _ _ Hgen Hmsg).
        by apply split_retry_after_same_length.
      * rewrite (attempt_body_value_error _ _ _ _ _ _ _ _ Hgen Hmsg).
        intros [= <- <-]. apply after_same_length.
        intros l [= <-]. by rewrite length_replicate.
    + rewrite (attempt_body_transient _ _ _ _ _ _ _ _ Hgen He).
      intros [= <- <-]. apply after_same_length.
      intros l. by destruct (attempt =? _).
Qed.

Lemma for_attempts_same_length recur texts lang attempts
    (s : state Service) r s' :
  returns_same_length recur lang →
  for_attempts (attempt_body gen recur texts lang) attempts s = Ret r s' →
  translation_cache s' = translation_cache s
  ∧ (∃ evs, trace s' = trace s ++ evs)
  ∧ ∀ l, r = Some l → length l = length texts.
Proof.
  intros Hrec. revert s.
  induction attempts as [|a rest IH]; intros s.
  - simpl. mrun. intros [= <- <-].
    split; [done|]. split; [|done]. exists []. by rewrite app_nil_r.
  - rewrite for_attempts_cons.
    destruct (attempt_body gen recur texts lang a s)
      as [[r0|] s0|e0 s0|] eqn:Hbody; [| |done..].
    + intros [= <- <-].
      apply (attempt_body_same_length _ _ _ _ _ _ _ Hrec) in Hbody
        as (Hc & Ht & Hl).
      split; [done|]. split; [done|]. intros l ->. by apply Hl.
    + intros Hrest. apply IH in Hrest as (Hc & [ev1 Ht] & Hl).
      apply (attempt_body_same_length _ _ _ _ _ _ _ Hrec) in Hbody
        as (Hc0 & [ev0 Ht0] & _).
      split; [congruence|]. split; [|done].
      exists (ev0 ++ ev1). by rewrite Ht, Ht0, app_assoc.
Qed.

(** Whenever the client returns, the cache is as before, the trace has
    grown, and a returned list has one element per requested text. *)
Lemma call_same_length fuel lang :
  returns_same_length (_call_translation_api gen fuel) lang.
Proof.
  induction fuel as [|fuel IH]; intros texts s r s'.
  - done.
  - rewrite call_unfold. by apply for_attempts_same_length.
Qed.

(** The first thing a call of the client does is to request its texts. *)
Lemma call_first_request fuel texts lang (s : state Service) r s' :
  _call_translation_api gen fuel texts lang s = Ret r s' →
  ∃ evs, trace s' = trace s ++ Ev_request texts lang :: evs.
Proof.
  destruct fuel as [|fuel]; [done|].
  rewrite call_unfold. change (seq 0 MAX_RETRIES) with (0 :: seq 1 9).
  rewrite for_attempts_cons.
  pose proof (call_same_length fuel lang) as Hrec.
  set (recur := _call_translation_api gen fuel) in *.
  assert (Hfirst : ∀ c s0,
    attempt_body gen recur texts lang 0 s = Ret c s0 →
    ∃ evs, trace s0 = trace s ++ Ev_request texts lang :: evs).
  { intros c s0.
    assert (Hsplit : ∀ q evs,
      split_retry recur texts lang
        (after s q (Ev_request texts lang :: evs)) = Ret c s0 →
      ∃ evs', trace s0 = trace s ++ Ev_request texts lang :: evs').
    { intros q evs H.
      apply (split_retry_same_length _ _ _ _ _ _ Hrec) in H
        as (_ & [evs' Ht] & _).
      exists (evs ++ evs'). rewrite Ht. simpl.
      by rewrite <- app_assoc. }
    destruct (gen (remote s) texts lang) as [[[items|]|e] q] eqn:Hgen.
    - destruct (decide (length items = length texts)) as [Hlen|Hlen].
      + rewrite (attempt_body_ok _ _ _ _ _ _ _ _ Hgen Hlen).
        intros [= <- <-]. by eexists.
      + rewrite (attempt_body_mismatch _ _ _ _ _ _ _ _ Hgen Hlen).
        apply Hsplit.
    - rewrite (attempt_body_invalid _ _ _ _ _ _ _ Hgen).
      intros [= <- <-]. by eexists.
    - destruct (is_ValueError e) eqn:He.
      + destruct e as [msg|msg|msg|msg]; simpl in He; try done.
        destruct (str_contains "Translation count mismatch" msg) eqn:Hmsg.
        * rewrite (attempt_body_value_error_mismatch _ _ _ _ _ _ _ Hgen Hmsg).
          apply Hsplit.
        * rewrite (attempt_body_value_error _ _ _ _ _ _ _ _ Hgen Hmsg).
          intros [= <- <-]. by eexists.
      + rewrite (attempt_body_transient _ _ _ _ _ _ _ _ Hgen He).
        intros [= <- <-]. by eexists. }
  destruct (attempt_body gen recur texts lang 0 s)
    as [[r0|] s0|e0 s0|] eqn:Hbody; [| |done..].
  - intros [= <- <-]. by eapply Hfirst.
  - intros Hrest. destruct (Hfirst _ _ eq_refl) as [evs Ht].
    apply (for_attempts_same_length _ _ _ _ _ _ _ Hrec) in Hrest
      as (_ & [evs' Ht'] & _).
    exists (evs ++ evs'). rewrite Ht', Ht. by rewrite <- app_assoc.
Qed.

End Client.

(** ** Reading the cache: [_get_cached_translations] *)

Section Partition.
Context {Service : Type}.
Implicit Types (cache : gmap (string * string) string) (s : state Service).

Lemma misses_snoc cache lang texts text :
  misses cache lang (texts ++ [text])
  = misses cache lang texts
    ++ (if cache !! (text, lang) is None then [(length texts, text)] else []).
Proof.
  unfold misses. rewrite imap_app, filter_app. f_equal.
  simpl. rewrite Nat.add_0_r.
  destruct (cache !! (text, lang)) as [v|] eqn:Hc.
  - rewrite filter_cons_False; [done|]. simpl. by rewrite Hc.
  - by rewrite filter_cons_True.
Qed.

Lemma cached_slots_snoc cache lang texts text :
  cached_slots cache lang (texts ++ [text])
  = cached_slots cache lang texts ++ [cache !! (text, lang)].
Proof. unfold cached_slots. by rewrite fmap_app. Qed.

Lemma length_cached_slots cache lang texts :
  length (cached_slots cache lang texts) = length texts.
Proof. unfold cached_slots. by rewrite length_fmap. Qed.

(** The loop of [_get_cached_translations] over a list of [n] unset
    slots, [n] at least the number of texts. *)
Lemma get_cached_loop cache lang texts n :
  length texts ≤ n →
  foldl (_get_cached_translations_step cache lang)
        (Partition [] [] (replicate n None)) (enumerate texts)
  = Partition (misses cache lang texts).*1 (misses cache lang texts).*2
              (cached_slots cache lang texts
               ++ replicate (n - length texts) None).
Proof.
  induction texts as [|text texts IH] using rev_ind; intros Hn.
  - simpl. by rewrite Nat.sub_0_r.
  - rewrite length_app in Hn. simpl in Hn.
    unfold enumerate in *. rewrite imap_app, foldl_app, IH by lia.
    simpl. rewrite Nat.add_0_r.
    rewrite misses_snoc, cached_slots_snoc, length_app. simpl.
    replace (n - length texts) with (S (n - (length texts + 1))) by lia.
    destruct (cache !! (text, lang)) as [v|] eqn:Hc; simpl.
    + rewrite !app_nil_r. f_equal.
      rewrite <- (length_cached_slots cache lang texts) at 1.
      rewrite <- (Nat.add_0_r (length (cached_slots _ _ _))).
      rewrite insert_app_r. simpl. by rewrite <- app_assoc.
    + rewrite !fmap_app. simpl. f_equal. by rewrite <- app_assoc.
Qed.

Lemma get_cached_spec texts lang n s :
  n = length texts →
  _get_cached_translations texts lang (replicate n None) s
  = Ret (Partition (misses (translation_cache s) lang texts).*1
                   (misses (translation_cache s) lang texts).*2
                   (cached_slots (translation_cache s) lang texts)) s.
Proof.
  intros ->. unfold _get_cached_translations. mrun.
  rewrite get_cached_loop by done.
  by rewrite Nat.sub_diag, app_nil_r.
Qed.

(** An occurrence is among the misses exactly when its text has no
    cache entry. *)
Lemma elem_of_misses cache lang texts i text :
  (i, text) ∈ misses cache lang texts
  ↔ texts !! i = Some text ∧ cache !! (text, lang) = None.
Proof.
  unfold misses. rewrite list_elem_of_filter, elem_of_lookup_imap. simpl.
  split.
  - intros [Hc (j & y & [= -> ->] & Hl)]. done.
  - intros [Hl Hc]. split; [done|]. by exists i, text.
Qed.

Lemma misses_all_cached cache lang texts :
  Forall (λ text, is_Some (cache !! (text, lang))) texts →
  misses cache lang texts = [].
Proof.
  intros Hall. destruct (misses cache lang texts) as [|[i t] rest] eqn:Hm;
    [done|].
  assert (Hin : (i, t) ∈ misses cache lang texts) by (rewrite Hm; left).
  apply elem_of_misses in Hin as [Hl Hc].
  rewrite Forall_forall in Hall.
  destruct (Hall t) as [v Hv]; [by eapply list_elem_of_lookup_2|].
  congruence.
Qed.

Lemma misses_none_cached cache lang texts :
  Forall (λ text, cache !! (text, lang) = None) texts →
  misses cache lang texts = imap pair texts.
Proof.
  intros Hall. unfold misses.
  induction texts as [|text texts IH] using rev_ind; [done|].
  apply Forall_app in Hall as [Hall Htext].
  rewrite Forall_singleton in Htext.
  rewrite imap_app, filter_app, IH by done. f_equal.
  simpl. by rewrite filter_cons_True by done.
Qed.

End Partition.

(** ** Writing the results: the two branches of [translate_batch] *)

Section Engine.
Context {Service : Type}.
Variable gen : Service → list string → string → response * Service.
Implicit Types (cache : gmap (string * string) string) (s : state Service).

Lemma length_slot_writes writes slots :
  length (slot_writes writes slots) = length slots.
Proof.
  revert slots. induction writes as [|w writes IH]; intros slots; [done|].
  unfold slot_writes in *. simpl. by rewrite IH, length_insert.
Qed.

(** The loop of [store_translations], from the [k]-th translation on. *)
Lemma store_translations_from indices utexts lang rest k slots s :
  k + length rest ≤ length indices →
  k + length rest ≤ length utexts →
  Forall (λ i, i < length slots) indices →
  store_translations indices utexts lang (imap (λ j, pair (k + j)) rest)
                     slots s
  = Ret (slot_writes (zip (drop k indices) rest) slots)
        (State (cache_writes lang (zip (drop k utexts) rest)
                             (translation_cache s))
               (remote s) (trace s)).
Proof.
  revert k slots s.
  induction rest as [|x rest IH]; intros k slots s Hi Hu Hb.
  - simpl. rewrite !zip_with_nil_r. by destruct s.
  - simpl in Hi, Hu. rewrite imap_cons. simpl store_translations.
    destruct (lookup_lt_is_Some_2 indices k ltac:(lia)) as [i Hik].
    destruct (lookup_lt_is_Some_2 utexts k ltac:(lia)) as [t Htk].
    rewrite Nat.add_0_r. unfold py_index, py_assign. mrun.
    rewrite Hik, Htk. mrun.
    assert (Hlt : i < length slots).
    { rewrite Forall_forall in Hb. apply Hb.
      by eapply list_elem_of_lookup_2. }
    apply Nat.ltb_lt in Hlt as Hltb. rewrite Hltb. mrun.
    rewrite (imap_ext _ (λ j, pair (S k + j))) by (intros; simpl; f_equal; lia).
    rewrite IH; [|simpl; lia|simpl; lia|by rewrite length_insert].
    by rewrite (drop_S _ _ _ Hik), (drop_S _ _ _ Htk).
Qed.

Lemma store_translations_spec indices utexts lang new slots s :
  length new ≤ length indices →
  length new ≤ length utexts →
  Forall (λ i, i < length slots) indices →
  store_translations indices utexts lang (enumerate new) slots s
  = Ret (slot_writes (zip indices new) slots)
        (State (cache_writes lang (zip utexts new) (translation_cache s))
               (remote s) (trace s)).
Proof.
  intros Hi Hu Hb. unfold enumerate.
  rewrite (imap_ext _ (λ j, pair (0 + j))) by done.
  by rewrite store_translations_from.
Qed.

Lemma length_fill_failed indices texts slots :
  length (fill_failed indices texts slots) = length slots.
Proof.
  revert slots. induction indices as [|i indices IH]; intros slots; [done|].
  unfold fill_failed in *. simpl. rewrite IH.
  destruct (slots !! i) as [[v|]|]; [done| |done].
  destruct (texts !! i); [by rewrite length_insert | done].
Qed.

Lemma handle_failed_spec indices texts slots s :
  Forall (λ i, i < length slots ∧ i < length texts) indices →
  _handle_failed_translations indices texts slots s
  = Ret (fill_failed indices texts slots) s.
Proof.
  revert slots s.
  induction indices as [|i indices IH]; intros slots s Hb; [done|].
  apply Forall_cons in Hb as [[Hs Ht] Hb].
  simpl _handle_failed_translations. unfold py_index, py_assign. mrun.
  destruct (lookup_lt_is_Some_2 slots i Hs) as [slot Hslot].
  destruct (lookup_lt_is_Some_2 texts i Ht) as [text Htext].
  rewrite Hslot. mrun. unfold fill_failed. simpl. rewrite Hslot.
  destruct slot as [v|]; mrun.
  - by apply IH.
  - rewrite Htext. mrun. apply Nat.ltb_lt in Hs as Hsb. rewrite Hsb. mrun.
    apply IH. eapply Forall_impl; [exact Hb|].
    intros j. simpl. by rewrite length_insert.
Qed.

End Engine.

Section Writes.
Implicit Types (cache : gmap (string * string) string).

Lemma slot_writes_cons w writes slots :
  slot_writes (w :: writes) slots
  = slot_writes writes (<[w.1 := Some w.2]> slots).
Proof. reflexivity. Qed.

Lemma slot_writes_notin writes slots i :
  i ∉ writes.*1 → slot_writes writes slots !! i = slots !! i.
Proof.
  revert slots. induction writes as [|[j x] writes IH]; intros slots Hi;
    [done|].
  rewrite fmap_cons, not_elem_of_cons in Hi. destruct Hi as [Hne Hi].
  rewrite slot_writes_cons, IH by done. simpl in *.
  by rewrite list_lookup_insert_ne.
Qed.

(** A slot that is written is written once, so it holds what was written
    at its own position. *)
Lemma slot_writes_in writes slots i x :
  NoDup writes.*1 → (i, x) ∈ writes → i < length slots →
  slot_writes writes slots !! i = Some (Some x).
Proof.
  revert slots. induction writes as [|[j y] writes IH];
    intros slots Hnd Hin Hlt.
  - by apply elem_of_nil in Hin.
  - rewrite fmap_cons in Hnd. apply NoDup_cons in Hnd as [Hj Hnd].
    rewrite slot_writes_cons. simpl in *.
    apply elem_of_cons in Hin as [[= -> ->]|Hin].
    + rewrite slot_writes_notin by done.
      by rewrite list_lookup_insert_eq.
    + apply IH; [done..|]. by rewrite length_insert.
Qed.

Lemma cache_writes_app lang ws1 ws2 cache :
  cache_writes lang (ws1 ++ ws2) cache
  = cache_writes lang ws2 (cache_writes lang ws1 cache).
Proof. unfold cache_writes. by rewrite foldl_app. Qed.

Lemma cache_writes_notin lang writes cache t :
  t ∉ writes.*1 →
  cache_writes lang writes cache !! (t, lang) = cache !! (t, lang).
Proof.
  revert cache. induction writes as [|[u x] writes IH]; intros cache Ht;
    [done|].
  rewrite fmap_cons, not_elem_of_cons in Ht. destruct Ht as [Hne Ht].
  unfold cache_writes in *. simpl. rewrite IH by done.
  apply lookup_insert_ne. simpl in Hne. congruence.
Qed.

(** The entry of a text is what its last write stored. *)
Lemma cache_writes_last lang ws1 ws2 cache t x :
  t ∉ ws2.*1 →
  cache_writes lang (ws1 ++ (t, x) :: ws2) cache !! (t, lang) = Some x.
Proof.
  intros Ht. rewrite cache_writes_app.
  change ((t, x) :: ws2) with ([(t, x)] ++ ws2).
  rewrite cache_writes_app, cache_writes_notin by done.
  unfold cache_writes at 1. simpl. apply lookup_insert_eq.
Qed.

(** When every write stores the same value, every written text ends
    with that value. *)
Lemma cache_writes_const lang writes cache t v :
  Forall (λ w, w.2 = v) writes → t ∈ writes.*1 →
  cache_writes lang writes cache !! (t, lang) = Some v.
Proof.
  revert cache. induction writes as [|[u x] writes IH]; intros cache Hv Ht.
  - by apply elem_of_nil in Ht.
  - apply Forall_cons in Hv as [Hx Hv]. simpl in Hx. subst x.
    destruct (decide (t ∈ writes.*1)) as [Hin|Hnin].
    + unfold cache_writes in *. simpl. by apply IH.
    + rewrite fmap_cons in Ht. apply elem_of_cons in Ht as [->|Ht]; [|done].
      by apply (cache_writes_last lang [] writes).
Qed.

Lemma fill_failed_cons i indices texts slots :
  fill_failed (i :: indices) texts slots
  = fill_failed indices texts
      (match slots !! i, texts !! i with
       | Some None, Some text => <[i := Some text]> slots
       | _, _ => slots
       end).
Proof. reflexivity. Qed.

(** A slot that is set is never overwritten by the fallback. *)
Lemma fill_failed_keeps indices texts slots i v :
  slots !! i = Some (Some v) →
  fill_failed indices texts slots !! i = Some (Some v).
Proof.
  revert slots. induction indices as [|j indices IH]; intros slots Hi;
    [done|].
  rewrite fill_failed_cons. apply IH.
  destruct (slots !! j) as [[w|]|] eqn:Hj; [done| |done].
  destruct (texts !! j) as [t|]; [|done].
  rewrite list_lookup_insert_ne; [done|]. intros ->. congruence.
Qed.

(** An unset slot among the indices receives its text. *)
Lemma fill_failed_in indices texts slots i t :
  i ∈ indices → slots !! i = Some None → texts !! i = Some t →
  fill_failed indices texts slots !! i = Some (Some t).
Proof.
  revert slots. induction indices as [|j indices IH];
    intros slots Hin Hi Ht.
  - by apply elem_of_nil in Hin.
  - rewrite fill_failed_cons.
    destruct (decide (j = i)) as [->|Hne].
    + rewrite Hi, Ht. apply fill_failed_keeps.
      apply list_lookup_insert_eq. by eapply lookup_lt_Some.
    + apply elem_of_cons in Hin as [->|Hin]; [done|].
      apply IH; [done| |done].
      destruct (slots !! j) as [[w|]|] eqn:Hj; [done| |done].
      destruct (texts !! j) as [u|]; [|done].
      by rewrite list_lookup_insert_ne.
Qed.

(** After a failed call every slot holds the cached value, or the text
    itself where nothing is cached. *)
Lemma fill_failed_misses cache lang texts :
  fill_failed (misses cache lang texts).*1 texts
              (cached_slots cache lang texts)
  = fallback_slots cache lang texts.
Proof.
  apply list_eq. intros i. unfold fallback_slots at 1.
  rewrite list_lookup_fmap.
  destruct (texts !! i) as [t|] eqn:Ht; simpl.
  - assert (Hslot : cached_slots cache lang texts !! i
                    = Some (cache !! (t, lang))).
    { unfold cached_slots. by rewrite list_lookup_fmap, Ht. }
    destruct (cache !! (t, lang)) as [v|] eqn:Hc; simpl.
    + by apply fill_failed_keeps.
    + apply fill_failed_in; [|done..].
      apply list_elem_of_fmap. exists (i, t). split; [done|].
      by apply elem_of_misses.
  - apply lookup_ge_None. rewrite length_fill_failed.
    unfold cached_slots. rewrite length_fmap. by apply lookup_ge_None.
Qed.

Lemma misses_bound cache lang texts :
  Forall (λ i, i < length texts) (misses cache lang texts).*1.
Proof.
  apply Forall_forall. intros i Hi.
  apply list_elem_of_fmap in Hi as ([j t] & -> & Hin). simpl.
  apply elem_of_misses in Hin as [Hl _]. by eapply lookup_lt_Some.
Qed.

Lemma misses_NoDup cache lang texts :
  NoDup (misses cache lang texts).*1.
Proof.
  apply (sublist_NoDup _ (imap pair texts).*1).
  - rewrite fmap_imap.
    rewrite (imap_ext _ (λ j _, j)) by done.
    rewrite imap_seq_0, list_fmap_id. apply NoDup_seq.
  - apply fmap_sublist. unfold misses. apply sublist_filter.
Qed.

Lemma misses_texts_lookup cache lang texts j i t :
  misses cache lang texts !! j = Some (i, t) → texts !! i = Some t.
Proof.
  intros Hj. apply list_elem_of_lookup_2 in Hj.
  by apply elem_of_misses in Hj as [? _].
Qed.

End Writes.

(** ** [translate_batch], case by case *)

Section Batch.
Context {Service : Type}.
Variable gen : Service → list string → string → response * Service.
Implicit Types (s : state Service).

Lemma translate_batch_nil fuel lang s :
  translate_batch gen fuel [] lang s = Ret [] s.
Proof. reflexivity. Qed.

(** [translate_batch] after the cache has been read. *)
Lemma translate_batch_unfold fuel texts lang s :
  texts ≠ [] →
  let texts' := _preprocess_text <$> texts in
  let ms := misses (translation_cache s) lang texts' in
  let slots := cached_slots (translation_cache s) lang texts' in
  translate_batch gen fuel texts lang s
  = match ms.*2 with
    | [] => Ret slots s
    | _ :: _ =>
        match _call_translation_api gen fuel ms.*2 lang s with
        | Ret (Some ((_ :: _) as new)) s1 =>
            store_translations ms.*1 ms.*2 lang (enumerate new) slots s1
        | Ret _ s1 => _handle_failed_translations ms.*1 texts' slots s1
        | Raise e s1 => Raise e s1
        | OutOfFuel => OutOfFuel
        end
    end.
Proof.
  intros Hne. destruct texts as [|t texts]; [done|].
  intros texts' ms slots. unfold translate_batch. mrun.
  rewrite get_cached_spec by (by rewrite length_fmap).
  fold texts' ms slots. mrun.
  destruct (ms.*2) as [|u us]; [done|]. mrun.
  destruct (_call_translation_api gen fuel (u :: us) lang s)
    as [[[|x new]|] s1|e s1|]; reflexivity.
Qed.

(** Every text is cached: the slots are filled from the cache and
    nothing else happens, whatever the fuel. *)
Lemma translate_batch_cached fuel texts lang s :
  Forall (λ t, is_Some (translation_cache s !! (_preprocess_text t, lang)))
         texts →
  translate_batch gen fuel texts lang s
  = Ret (cached_slots (translation_cache s) lang (_preprocess_text <$> texts))
        s.
Proof.
  intros Hall. destruct (decide (texts = [])) as [->|Hne]; [done|].
  rewrite translate_batch_unfold by done.
  rewrite misses_all_cached; [done|]. by apply Forall_fmap.
Qed.

(** The client returned a list: it is stored, one write per occurrence. *)
Lemma translate_batch_success fuel texts lang s new s1 :
  let texts' := _preprocess_text <$> texts in
  let ms := misses (translation_cache s) lang texts' in
  ms ≠ [] →
  _call_translation_api gen fuel ms.*2 lang s = Ret (Some new) s1 →
  translate_batch gen fuel texts lang s
  = Ret (slot_writes (zip ms.*1 new)
                     (cached_slots (translation_cache s) lang texts'))
        (State (cache_writes lang (zip ms.*2 new) (translation_cache s))
               (remote s1) (trace s1)).
Proof.
  intros texts' ms Hms Hcall.
  assert (Hne : texts ≠ []) by (by intros ->).
  rewrite translate_batch_unfold by done. fold texts' ms.
  destruct (call_same_length gen fuel lang _ _ _ _ Hcall)
    as (Hcache & _ & Hlen).
  specialize (Hlen new eq_refl). rewrite length_fmap in Hlen.
  destruct ms as [|m ms'] eqn:Hm; [done|]. rewrite <- Hm in *.
  assert (H2 : ms.*2 = m.2 :: ms'.*2) by (by rewrite Hm).
  rewrite H2 in Hcall |- *. rewrite Hcall.
  destruct new as [|x new']; [by rewrite Hm in Hlen|].
  rewrite <- H2.
  rewrite store_translations_spec.
  - by rewrite Hcache.
  - rewrite length_fmap. lia.
  - rewrite length_fmap. lia.
  - subst ms. eapply Forall_impl; [apply misses_bound|].
    intros i Hi. simpl in Hi. unfold cached_slots.
    by rewrite length_fmap.
Qed.

(** The client gave up: every slot falls back to the cache or to the
    normalized text, and the cache is left as it was. *)
Lemma translate_batch_failed fuel texts lang s s1 :
  let texts' := _preprocess_text <$> texts in
  let ms := misses (translation_cache s) lang texts' in
  ms ≠ [] →
  _call_translation_api gen fuel ms.*2 lang s = Ret None s1 →
  translate_batch gen fuel texts lang s
  = Ret (fallback_slots (translation_cache s) lang texts') s1.
Proof.
  intros texts' ms Hms Hcall.
  assert (Hne : texts ≠ []) by (by intros ->).
  rewrite translate_batch_unfold by done. fold texts' ms.
  destruct ms as [|m ms'] eqn:Hm; [done|]. rewrite <- Hm in *.
  assert (H2 : ms.*2 = m.2 :: ms'.*2) by (by rewrite Hm).
  rewrite H2 in Hcall |- *. rewrite Hcall.
  rewrite handle_failed_spec.
  - subst ms. by rewrite fill_failed_misses.
  - subst ms. eapply Forall_impl; [apply misses_bound|].
    intros i Hi. simpl in Hi. unfold cached_slots.
    by rewrite length_fmap.
Qed.

Lemma translate_batch_out_of_fuel fuel texts lang s :
  let texts' := _preprocess_text <$> texts in
  let ms := misses (translation_cache s) lang texts' in
  ms ≠ [] →
  _call_translation_api gen fuel ms.*2 lang s = OutOfFuel →
  translate_batch gen fuel texts lang s = OutOfFuel.
Proof.
  intros texts' ms Hms Hcall.
  assert (Hne : texts ≠ []) by (by intros ->).
  rewrite translate_batch_unfold by done. fold texts' ms.
  destruct ms as [|m ms'] eqn:Hm; [done|]. rewrite <- Hm in *.
  assert (H2 : ms.*2 = m.2 :: ms'.*2) by (by rewrite Hm).
  rewrite H2 in Hcall |- *. by rewrite Hcall.
Qed.

Lemma translate_batch_raise fuel texts lang s e s1 :
  let texts' := _preprocess_text <$> texts in
  let ms := misses (translation_cache s) lang texts' in
  ms ≠ [] →
  _call_translation_api gen fuel ms.*2 lang s = Raise e s1 →
  translate_batch gen fuel texts lang s = Raise e s1.
Proof.
  intros texts' ms Hms Hcall.
  assert (Hne : texts ≠ []) by (by intros ->).
  rewrite translate_batch_unfold by done. fold texts' ms.
  destruct ms as [|m ms'] eqn:Hm; [done|]. rewrite <- Hm in *.
  assert (H2 : ms.*2 = m.2 :: ms'.*2) by (by rewrite Hm).
  rewrite H2 in Hcall |- *. by rewrite Hcall.
Qed.

End Batch.

(** ** Cardinality of the result (C1) *)

Section Cardinality.
Context {Service : Type}.
Variable gen : Service → list string → string → response * Service.


End Cardinality.

Lemma misses_fresh lang t texts :
  misses ∅ lang (t :: texts) ≠ [].
Proof.
  rewrite misses_none_cached; [done|].
  apply Forall_forall. intros. apply lookup_empty.
Qed.

(** A service that answers every request with one element too many sends
    the client into a split at every level, down to requests for no text at
    all: no depth of recursion is enough. *)
Lemma too_long_never_returns fuel texts lang s :
  _call_translation_api too_long fuel texts lang s = OutOfFuel.
Proof.
  revert texts s. induction fuel as [|fuel IH]; intros texts s; [done|].
  rewrite call_unfold. change (seq 0 MAX_RETRIES) with (0 :: seq 1 9).
  rewrite for_attempts_cons.
  rewrite (attempt_body_mismatch too_long _ texts lang 0 s
             ((tag <$> texts) ++ ["extra"]) ());
    [|unfold too_long; by destruct (remote s)|].
  - unfold split_retry. mrun. by rewrite IH.
  - rewrite length_app, length_fmap. simpl. lia.
Qed.

(** C1, at a failing input: against the service that returns one element
    more than requested, [translate_batch] on any non-empty list of texts
    and an empty cache returns no list at all, whatever recursion depth it
    is given: the splits go on until the interpreter's recursion limit
    stops them. *)
Theorem C1_too_long_response_never_returns
    (fuel : nat) (t : string) (texts : list string) (lang : string) :
  translate_batch too_long fuel (t :: texts) lang (fresh ()) = OutOfFuel.
Proof.
  apply translate_batch_out_of_fuel.
  - apply misses_fresh.
  - apply too_long_never_returns.
Qed.

(** ** Termination of the split (C2) *)

Lemma length_removelast {A} (x : A) (l : list A) :
  length (removelast (x :: l)) = length l.
Proof.
  revert x. induction l as [|y l IH]; intros x; [done|].
  change (length (removelast (x :: y :: l)))
    with (S (length (removelast (y :: l)))).
  by rewrite IH.
Qed.

Lemma drop_last_never_returns fuel t rest lang s :
  _call_translation_api drop_last fuel (t :: rest) lang s = OutOfFuel.
Proof.
  revert t rest s. induction fuel as [|fuel IH]; intros t rest s; [done|].
  rewrite call_unfold. change (seq 0 MAX_RETRIES) with (0 :: seq 1 9).
  rewrite for_attempts_cons.
  rewrite (attempt_body_mismatch drop_last _ (t :: rest) lang 0 s
             (removelast (tag <$> t :: rest)) ());
    [|unfold drop_last; by destruct (remote s)|].
  - unfold split_retry. mrun.
    destruct rest as [|u rest].
    + (* a singleton: the halves are [] and the singleton again *)
      change (length [t] / 2) with 0. rewrite take_0, drop_0.
      destruct fuel as [|fuel']; [done|].
      rewrite (call_unfold drop_last fuel' []).
      change (seq 0 MAX_RETRIES) with (0 :: seq 1 9).
      rewrite for_attempts_cons.
      rewrite (attempt_body_ok drop_last _ [] lang 0 _ [] ()) by done.
      by rewrite IH.
    + assert (Hmid : length (t :: u :: rest) / 2 = S (length rest / 2)).
      { simpl length.
        replace (S (S (length rest))) with (1 * 2 + length rest) by lia.
        by rewrite Nat.div_add_l. }
      rewrite Hmid. simpl take. by rewrite IH.
  - rewrite fmap_cons, length_removelast, length_fmap. simpl. lia.
Qed.

(** C2, at a failing input: a mismatch on a single text does not degrade
    to the list of one empty string.  The split of a singleton is the empty
    list and the singleton itself, so against the service that returns one
    element fewer than requested, the client on any non-empty list never
    returns, whatever recursion depth it is given, and neither does
    [translate_batch]. *)
Theorem C2_split_of_singleton_does_not_terminate
    (fuel : nat) (t : string) (rest : list string) (lang : string)
    (s : state unit) :
  (take (length [t] / 2) [t] = [] ∧ drop (length [t] / 2) [t] = [t])
  ∧ _call_translation_api drop_last fuel (t :: rest) lang s = OutOfFuel
  ∧ translate_batch drop_last fuel (t :: rest) lang (fresh ()) = OutOfFuel.
Proof.
  split; [done|]. split; [apply drop_last_never_returns|].
  apply translate_batch_out_of_fuel.
  - apply misses_fresh.
  - destruct (misses ∅ lang (_preprocess_text <$> t :: rest)) as [|m ms] eqn:Hm.
    + by apply misses_fresh in Hm.
    + apply drop_last_never_returns.
Qed.

(** ** Errors raised past [translate_batch] (C4) *)

(** C4, at a failing input: two texts, a service that answers the request
    for both with a single element and then fails every request for the
    first text alone.  The first half of the split exhausts its retries and
    is [None]; the second half is a list; adding them raises a [TypeError]
    inside the [except ValueError] handler, which nothing catches:
    [translate_batch] raises it to its caller, after twelve requests. *)
Theorem C4_exhausted_half_raises_TypeError (fuel : nat) :
  ∃ s',
    translate_batch half_failing (S (S fuel)) ["a"; "b"] "French" (fresh ())
    = Raise (TypeError "unsupported operand type(s) for +: 'NoneType' and 'list'")
            s'
    ∧ count_requests (trace s') = 12
    ∧ translation_cache s' = ∅.
Proof.
  eexists. split; [vm_compute; reflexivity|]. split; reflexivity.
Qed.

(** ** Quota backoff (C8) *)

Section Quota.
Context {Service : Type}.
Variable gen : Service → list string → string → response * Service.

(** C8: when a request raises an error that is no [ValueError] and whose
    text contains the quota-exhaustion signature, at an attempt that is
    not the last one, the attempt sleeps [QUOTA_EXHAUST_ERROR_DELAY] and
    then [RETRY_DELAY], in this order and with nothing between them, and
    the loop goes on with the next attempt from there. *)
Theorem C8_quota_backoff_then_retry_delay
    (recur : list string → string → M Service (option (list string)))
    (texts : list string) (lang : string) (attempt : nat)
    (rest : list nat) (s : state Service) (e : exn) (q : Service) :
  gen (remote s) texts lang = (Resp_raise e, q) →
  is_ValueError e = false →
  str_contains QUOTA_EXHAUST_ERROR (exn_str e) = true →
  attempt ≠ MAX_RETRIES - 1 →
  let body := attempt_body gen recur texts lang in
  let s' := after s q [Ev_request texts lang;
                       Ev_sleep QUOTA_EXHAUST_ERROR_DELAY;
                       Ev_sleep RETRY_DELAY] in
  body attempt s = Ret Continue s'
  ∧ for_attempts body (attempt :: rest) s = for_attempts body rest s'.
Proof.
  intros Hgen He Hquota Hattempt body s'.
  assert (Hbody : body attempt s = Ret Continue s').
  { unfold body. rewrite (attempt_body_transient _ _ _ _ _ _ _ _ Hgen He).
    unfold backoff. rewrite Hquota.
    apply Nat.eqb_neq in Hattempt. by rewrite Hattempt. }
  split; [done|]. by rewrite for_attempts_cons, Hbody.
Qed.

End Quota.

(** The quota test of the specification: the first request raises the quota
    error and the retry succeeds. *)
Lemma C8_quota_backoff_witness :
  let gen := scripted in
  let s := fresh [Resp_raise quota_error] in
  let body := attempt_body gen (_call_translation_api gen 0) ["hello"] "French" in
  let s' := after s [] [Ev_request ["hello"] "French";
                        Ev_sleep QUOTA_EXHAUST_ERROR_DELAY;
                        Ev_sleep RETRY_DELAY] in
  (body 0 s = Ret Continue s'
   ∧ for_attempts body (0 :: seq 1 9) s = for_attempts body (seq 1 9) s')
  ∧ ∃ s1, _call_translation_api gen 1 ["hello"] "French" s
          = Ret (Some ["T:hello"]) s1
          ∧ trace s1 = [Ev_request ["hello"] "French";
                        Ev_sleep QUOTA_EXHAUST_ERROR_DELAY;
                        Ev_sleep RETRY_DELAY;
                        Ev_request ["hello"] "French";
                        Ev_sleep REQUEST_DELAY].
Proof.
  split.
  - apply (C8_quota_backoff_then_retry_delay scripted
             (_call_translation_api scripted 0) ["hello"] "French" 0
             (seq 1 9) (fresh [Resp_raise quota_error]) quota_error []);
      [reflexivity | reflexivity | reflexivity | vm_compute; lia].
  - eexists. split; [vm_compute; reflexivity | reflexivity].
Defined.


(** ** Fallback on exhaustion (C3) *)

Lemma count_requests_app (tr1 tr2 : list event) :
  count_requests (tr1 ++ tr2) = count_requests tr1 + count_requests tr2.
Proof. unfold count_requests. by rewrite filter_app, length_app. Qed.

Lemma count_requests_attempt texts lang (e : exn) (attempt : nat) :
  count_requests (Ev_request texts lang :: backoff e attempt) = 1.
Proof.
  unfold backoff.
  by destruct (str_contains _ _), (attempt =? _).
Qed.

Section Fallback.
Context {Service : Type}.
Variable gen : Service → list string → string → response * Service.
Hypothesis Hgen : always_transient gen.

(** The attempts from [a] on all fail; the last one gives up. *)
Lemma for_attempts_transient recur texts lang n a (s : state Service) :
  a + n = MAX_RETRIES →
  ∃ s', for_attempts (attempt_body gen recur texts lang) (seq a n) s
        = Ret None s'
        ∧ translation_cache s' = translation_cache s
        ∧ count_requests (trace s') = count_requests (trace s) + n.
Proof.
  revert a s. induction n as [|n IH]; intros a s Han.
  - exists s. simpl. by rewrite Nat.add_0_r.
  - destruct (Hgen (remote s) texts lang) as (e & q & Hresp & He).
    simpl seq. rewrite for_attempts_cons.
    rewrite (attempt_body_transient _ _ _ _ _ _ _ _ Hresp He).
    destruct (a =? MAX_RETRIES - 1) eqn:Hlast.
    + eexists. split; [done|].
      split; [done|]. simpl trace.
      rewrite count_requests_app, count_requests_attempt.
      unfold MAX_RETRIES in *. apply Nat.eqb_eq in Hlast. simpl in Hlast. lia.
    + destruct (IH (S a) (after s q (Ev_request texts lang :: backoff e a)))
        as (s' & Hrun & Hc & Hn); [lia|].
      exists s'. split; [done|]. split; [done|].
      rewrite Hn. simpl trace.
      rewrite count_requests_app, count_requests_attempt. lia.
Qed.

Lemma call_transient fuel texts lang (s : state Service) :
  ∃ s', _call_translation_api gen (S fuel) texts lang s = Ret None s'
        ∧ translation_cache s' = translation_cache s
        ∧ count_requests (trace s') = count_requests (trace s) + MAX_RETRIES.
Proof. rewrite call_unfold. by apply for_attempts_transient. Qed.

End Fallback.

(** C3, as the claim states it, fails on a text that is not normalized:
    after the ten failed attempts the slot holds the normalized text, not
    the input verbatim. *)
Lemma C3_fallback_is_not_verbatim :
  ∃ s', translate_batch always_failing 1 [" a"] "French" (fresh ())
        = Ret [Some "a"] s'
        ∧ count_requests (trace s') = MAX_RETRIES
        ∧ [Some "a"] ≠ Some <$> [" a"].
Proof.
  eexists. split; [vm_compute; reflexivity|]. split; [reflexivity|].
  intros [=].
Qed.

(** C3 (amended): when the service throws a transient error on every
    request, [translate_batch] returns normally; if some text is not
    cached it makes [MAX_RETRIES] requests, else none; every slot holds the
    cached value of its text if there is one and otherwise the normalized
    input text ([_preprocess_text] of the input, which is the input itself
    when the input is already normalized); no slot is unset and the cache is
    unchanged. *)
Theorem C3_fallback_on_exhaustion {Service : Type}
    (gen : Service → list string → string → response * Service)
    (fuel : nat) (texts : list string) (lang : string) (s : state Service) :
  always_transient gen →
  let cache := translation_cache s in
  ∃ s',
    translate_batch gen (S fuel) texts lang s
    = Ret ((λ t, Some (default (_preprocess_text t)
                               (cache !! (_preprocess_text t, lang))))
           <$> texts) s'
    ∧ translation_cache s' = cache
    ∧ count_requests (trace s')
      = count_requests (trace s)
        + (if decide (Forall (λ t, is_Some (cache !! (_preprocess_text t, lang)))
                             texts)
           then 0 else MAX_RETRIES).
Proof.
  intros Hgen cache.
  set (texts' := _preprocess_text <$> texts).
  assert (Hres : fallback_slots cache lang texts'
                 = (λ t, Some (default (_preprocess_text t)
                                  (cache !! (_preprocess_text t, lang))))
                   <$> texts).
  { unfold fallback_slots, texts'. by rewrite <- list_fmap_compose. }
  case_decide as Hall.
  - exists s. rewrite translate_batch_cached by done. fold cache texts'.
    split; [|split; [done|lia]].
    f_equal. rewrite <- Hres. unfold cached_slots, fallback_slots.
    apply list_fmap_ext. intros i t Ht.
    rewrite Forall_forall in Hall.
    apply list_elem_of_lookup_2, list_elem_of_fmap in Ht as (t0 & -> & Hin).
    by destruct (Hall t0 Hin) as [v ->].
  - assert (Hms : misses cache lang texts' ≠ []).
    { intros Hms. apply Hall, Forall_forall. intros t Hin.
      destruct (cache !! (_preprocess_text t, lang)) eqn:Hc; [done|].
      apply list_elem_of_lookup_1 in Hin as [i Hi].
      assert (Hm : (i, _preprocess_text t) ∈ misses cache lang texts').
      { apply elem_of_misses. split; [|done].
        unfold texts'. by rewrite list_lookup_fmap, Hi. }
      rewrite Hms in Hm. by apply elem_of_nil in Hm. }
    destruct (call_transient gen Hgen fuel (misses cache lang texts').*2 lang s)
      as (s' & Hcall & Hc & Hn).
    exists s'. split; [|done].
    rewrite (translate_batch_failed gen (S fuel) texts lang s s' Hms Hcall).
    by rewrite <- Hres.
Qed.

Lemma always_failing_transient : always_transient always_failing.
Proof. intros q texts lang. by exists (RemoteError "503 Service Unavailable"), q. Qed.

(** Two texts, the first cached, against the service that always fails. *)
Lemma C3_fallback_witness :
  let s := State {[ ("hello", "French") := "bonjour" ]} () [] in
  ∃ s',
    translate_batch always_failing 1 ["hello"; "good  night "] "French" s
    = Ret [Some "bonjour"; Some "good  night"] s'
    ∧ translation_cache s' = translation_cache s
    ∧ count_requests (trace s') = 0 + MAX_RETRIES.
Proof.
  intros s.
  destruct (C3_fallback_on_exhaustion always_failing 0
              ["hello"; "good  night "] "French" s always_failing_transient)
    as (s' & Hrun & Hc & Hn).
  exists s'. split; [|split; [exact Hc|]].
  - rewrite Hrun. f_equal.
  - rewrite Hn. reflexivity.
Defined.

(** ** Cache idempotence (C7) *)

Section Idempotence.
Context {Service : Type}.
Variable gen : Service → list string → string → response * Service.

Lemma misses_singleton_cached cache lang t v :
  cache !! (t, lang) = Some v → misses cache lang [t] = [].
Proof. intros Hc. apply misses_all_cached. by repeat constructor. Qed.

Lemma misses_singleton_uncached cache lang t :
  cache !! (t, lang) = None → misses cache lang [t] = [(0, t)].
Proof.
  intros Hc. rewrite misses_none_cached; [done|]. by repeat constructor.
Qed.

(** A slot whose text is cached holds the cached value, whatever happens
    to the other texts of the call. *)
Lemma translate_batch_cached_slot fuel texts lang (s : state Service) res s'
    i t v :
  translate_batch gen fuel texts lang s = Ret res s' →
  texts !! i = Some t →
  translation_cache s !! (_preprocess_text t, lang) = Some v →
  res !! i = Some (Some v).
Proof.
  intros Hrun Hi Hc.
  assert (Hne : texts ≠ []) by (intros ->; done).
  set (texts' := _preprocess_text <$> texts).
  set (cache := translation_cache s) in *.
  set (ms := misses cache lang texts').
  assert (Hi' : texts' !! i = Some (_preprocess_text t)).
  { unfold texts'. by rewrite list_lookup_fmap, Hi. }
  assert (Hslot : cached_slots cache lang texts' !! i = Some (Some v)).
  { unfold cached_slots. by rewrite list_lookup_fmap, Hi', <- Hc. }
  destruct (decide (ms = [])) as [Hms|Hms].
  - rewrite translate_batch_unfold in Hrun by done.
    fold texts' cache ms in Hrun. rewrite Hms in Hrun. simpl in Hrun.
    by injection Hrun as <- <-.
  - destruct (_call_translation_api gen fuel ms.*2 lang s)
      as [[new|] s1|e s1|] eqn:Hcall.
    + rewrite (translate_batch_success gen fuel texts lang s new s1 Hms Hcall)
        in Hrun.
      fold texts' cache ms in Hrun. injection Hrun as <- <-.
      destruct (call_same_length gen fuel lang _ _ _ _ Hcall)
        as (_ & _ & Hlen).
      specialize (Hlen new eq_refl). rewrite length_fmap in Hlen.
      rewrite slot_writes_notin; [done|].
      rewrite fst_zip by (rewrite length_fmap; lia).
      intros Hin. apply list_elem_of_fmap in Hin as ([j u] & -> & Hin).
      apply elem_of_misses in Hin as [Hu Hcu]. simpl in *. congruence.
    + rewrite (translate_batch_failed gen fuel texts lang s s1 Hms Hcall)
        in Hrun.
      fold texts' cache in Hrun. injection Hrun as <- <-.
      unfold fallback_slots. rewrite list_lookup_fmap, Hi'. simpl.
      by rewrite Hc.
    + by rewrite (translate_batch_raise gen fuel texts lang s e s1 Hms Hcall)
        in Hrun.
    + by rewrite (translate_batch_out_of_fuel gen fuel texts lang s Hms Hcall)
        in Hrun.
Qed.

(** C7: let a first call [translate_batch([t], lang)] return successfully,
    that is, with [t] found in the cache or translated by the client (which
    returned a list).  Then its result is a single translation, now cached
    under the normalized text and the language, and a second call with a
    text of the same normalized form returns exactly the first result and
    leaves the whole state as it was: no request, no sleep, no cache write.
    More generally, in any call that returns, a text whose key is in the
    cache gets the cached value in its slot, and a call all of whose texts
    are cached returns them without touching the state. *)
Theorem C7_cache_idempotence (fuel fuel' : nat) (t t' lang : string)
    (s s1 : state Service) (r : list (option string)) :
  translate_batch gen fuel [t] lang s = Ret r s1 →
  (is_Some (translation_cache s !! (_preprocess_text t, lang))
   ∨ ∃ new s0, _call_translation_api gen fuel [_preprocess_text t] lang s
               = Ret (Some new) s0) →
  _preprocess_text t' = _preprocess_text t →
  (∃ v, r = [Some v]
        ∧ translation_cache s1 !! (_preprocess_text t, lang) = Some v)
  ∧ translate_batch gen fuel' [t'] lang s1 = Ret r s1
  ∧ (∀ texts res s2 i u v,
       translate_batch gen fuel' texts lang s1 = Ret res s2 →
       texts !! i = Some u →
       translation_cache s1 !! (_preprocess_text u, lang) = Some v →
       res !! i = Some (Some v))
  ∧ (∀ texts,
       Forall (λ u, is_Some (translation_cache s1 !! (_preprocess_text u, lang)))
              texts →
       translate_batch gen fuel' texts lang s1
       = Ret ((λ u, translation_cache s1 !! (_preprocess_text u, lang)) <$> texts)
             s1).
Proof.
  intros Hrun Hok Hpre.
  assert (Hfirst : ∃ v, r = [Some v]
            ∧ translation_cache s1 !! (_preprocess_text t, lang) = Some v).
  { destruct (translation_cache s !! (_preprocess_text t, lang)) as [v|] eqn:Hc.
    - exists v.
      rewrite translate_batch_cached in Hrun.
      + injection Hrun as <- <-. simpl. unfold cached_slots. simpl.
        by rewrite Hc.
      + constructor; [by rewrite Hc | constructor].
    - destruct Hok as [[v Hv]|(new & s0 & Hcall)]; [done|].
      assert (Hm : misses (translation_cache s) lang (_preprocess_text <$> [t])
                   = [(0, _preprocess_text t)])
        by (by apply misses_singleton_uncached).
      assert (Hms : misses (translation_cache s) lang (_preprocess_text <$> [t])
                    ≠ []) by (by rewrite Hm).
      destruct (call_same_length gen fuel lang _ _ _ _ Hcall) as (_ & _ & Hlen).
      specialize (Hlen new eq_refl).
      destruct new as [|x [|y new]]; try done.
      rewrite (translate_batch_success gen fuel [t] lang s [x] s0 Hms) in Hrun
        by (by rewrite Hm).
      rewrite Hm in Hrun. injection Hrun as <- <-.
      exists x. split.
      + reflexivity.
      + simpl. unfold cache_writes. simpl. apply lookup_insert_eq. }
  split; [done|].
  destruct Hfirst as (v & -> & Hv).
  split; [|split].
  - rewrite translate_batch_cached.
    + simpl. unfold cached_slots. simpl. by rewrite Hpre, Hv.
    + constructor; [by rewrite Hpre, Hv | constructor].
  - intros texts res s2 i u w. apply translate_batch_cached_slot.
  - intros texts Hall. rewrite translate_batch_cached by done.
    unfold cached_slots. by rewrite <- list_fmap_compose.
Qed.

End Idempotence.

(** The idempotence test of the specification: ["hello"] to French, twice,
    against the service that answers correctly; one request in all. *)
Lemma C7_cache_idempotence_witness :
  ∃ s1,
    translate_batch tagging 1 ["hello"] "French" (fresh ())
    = Ret [Some "T:hello"] s1
    ∧ count_requests (trace s1) = 1
    ∧ translate_batch tagging 0 [" hello "] "French" s1
      = Ret [Some "T:hello"] s1.
Proof.
  eexists. split; [vm_compute; reflexivity|]. split; [reflexivity|].
  refine (proj1 (proj2 (C7_cache_idempotence tagging 1 0 "hello" " hello "
                          "French" (fresh ()) _ [Some "T:hello"] _ _ _))).
  - vm_compute. reflexivity.
  - right. eexists _, _. vm_compute. reflexivity.
  - reflexivity.
Defined.

(** ** No deduplication within a call (C10) *)

Section Duplicates.
Context {Service : Type}.
Variable gen : Service → list string → string → response * Service.

(** C10: every occurrence of a text without a cache entry, duplicates
    included, is among the uncached pairs, and their texts are what the
    client requests first.  When the client returns a list, the cache
    receives one write per occurrence, in order, so the entry of a
    duplicated text ends as the translation returned for its last
    occurrence, while the slot of every occurrence holds the translation
    returned at that occurrence's own position. *)
Theorem C10_no_deduplication (fuel : nat) (texts : list string)
    (lang : string) (s s1 : state Service) (new : list string) :
  let texts' := _preprocess_text <$> texts in
  let cache := translation_cache s in
  let ms := misses cache lang texts' in
  ms ≠ [] →
  _call_translation_api gen fuel ms.*2 lang s = Ret (Some new) s1 →
  (∀ i t, texts' !! i = Some t → cache !! (t, lang) = None → (i, t) ∈ ms)
  ∧ (∃ evs, trace s1 = trace s ++ Ev_request ms.*2 lang :: evs)
  ∧ ∃ res s2,
      translate_batch gen fuel texts lang s = Ret res s2
      ∧ translation_cache s2 = cache_writes lang (zip ms.*2 new) cache
      ∧ remote s2 = remote s1 ∧ trace s2 = trace s1
      ∧ (∀ j i t x, ms !! j = Some (i, t) → new !! j = Some x →
                    res !! i = Some (Some x))
      ∧ (∀ j i t x, ms !! j = Some (i, t) → new !! j = Some x →
                    (∀ j' i', j < j' → ms !! j' ≠ Some (i', t)) →
                    translation_cache s2 !! (t, lang) = Some x).
Proof.
  intros texts' cache ms Hms Hcall.
  destruct (call_same_length gen fuel lang _ _ _ _ Hcall) as (_ & _ & Hlen).
  specialize (Hlen new eq_refl). rewrite length_fmap in Hlen.
  split; [intros i t Hi Hc; by apply elem_of_misses|].
  split; [by eapply call_first_request|].
  eexists _, _. split.
  { apply (translate_batch_success gen fuel texts lang s new s1 Hms Hcall). }
  fold texts' cache ms. simpl.
  split; [done|]. split; [done|]. split; [done|]. split.
  - intros j i t x Hj Hx. apply slot_writes_in.
    + rewrite fst_zip by (rewrite length_fmap; lia). apply misses_NoDup.
    + apply (list_elem_of_lookup_2 _ j). apply lookup_zip_Some.
      split; [|done]. by rewrite list_lookup_fmap, Hj.
    + rewrite length_cached_slots.
      eapply lookup_lt_Some, misses_texts_lookup, Hj.
  - intros j i t x Hj Hx Hlast.
    assert (Hz : zip ms.*2 new !! j = Some (t, x)).
    { apply lookup_zip_Some. split; [|done]. by rewrite list_lookup_fmap, Hj. }
    rewrite <- (take_drop_middle _ _ _ Hz).
    apply cache_writes_last.
    intros Hin. apply list_elem_of_fmap in Hin as ([u y] & Hu & Hin).
    simpl in Hu. subst u.
    apply list_elem_of_lookup_1 in Hin as [k Hk].
    rewrite lookup_drop in Hk. apply lookup_zip_Some in Hk as [Hk _].
    rewrite list_lookup_fmap in Hk.
    destruct (ms !! (S j + k)) as [[i' t']|] eqn:Hm; [|done].
    simpl in Hk. injection Hk as ->.
    by apply (Hlast (S j + k) i'); [lia|].
Qed.

End Duplicates.

(** The same text twice, against a service that answers with two different
    translations: both occurrences are requested, each slot holds its own
    translation and the cache ends with the second. *)
Lemma C10_no_deduplication_witness :
  let gen := scripted in
  let s := fresh [Resp_text (Body_array ["first"; "second"])] in
  ∃ s1 res s2,
    _call_translation_api gen 1 ["a"; "a"] "French" s
    = Ret (Some ["first"; "second"]) s1
    ∧ trace s1 = [Ev_request ["a"; "a"] "French"; Ev_sleep REQUEST_DELAY]
    ∧ translate_batch gen 1 ["a"; "a"] "French" s = Ret res s2
    ∧ res !! 0 = Some (Some "first")
    ∧ res !! 1 = Some (Some "second")
    ∧ translation_cache s2 !! ("a", "French") = Some "second".
Proof.
  intros gen s.
  assert (Hcall : _call_translation_api gen 1 ["a"; "a"] "French" s
                  = Ret (Some ["first"; "second"])
                        (State ∅ []
                           [Ev_request ["a"; "a"] "French";
                            Ev_sleep REQUEST_DELAY]))
    by (vm_compute; reflexivity).
  destruct (C10_no_deduplication gen 1 ["a"; "a"] "French" s _
              ["first"; "second"] ltac:(vm_compute; discriminate) Hcall)
    as (_ & _ & res & s2 & Hrun & Hcache & _ & _ & Hslot & Hlast).
  eexists _, res, s2. split; [exact Hcall|]. split; [reflexivity|].
  split; [exact Hrun|]. split; [|split].
  - apply (Hslot 0 0 "a" "first"); reflexivity.
  - apply (Hslot 1 1 "a" "second"); reflexivity.
  - apply (Hlast 1 1 "a" "second"); [reflexivity | reflexivity |].
    intros [|[|j']] i' Hj; [lia | lia | done].
Defined.

(** ** Empty strings cached by the degraded branch (C9) *)

(** C9, as the claim states it, fails for a sub-call of a split: the same
    text twice, a first response that is too short, a body that is no JSON
    for the first half and a correct answer for the second half.  The first
    half ends in the degraded branch and returns the list of one empty
    string, yet the cache entry of its text ends as the translation of the
    second half, and a later call returns that translation, not the empty
    string. *)
Lemma C9_degraded_half_is_overwritten :
  let s := fresh [Resp_text (Body_array []); Resp_text Body_invalid] in
  let s_half := State ∅ [Resp_text Body_invalid]
                  [Ev_request ["a"; "a"] "French"; Ev_sleep REQUEST_DELAY] in
  (∃ s', _call_translation_api scripted 1 ["a"] "French" s_half
         = Ret (Some [""]) s')
  ∧ ∃ s2,
      translate_batch scripted 2 ["a"; "a"] "French" s
      = Ret [Some ""; Some "T:a"] s2
      ∧ trace s2 = [Ev_request ["a"; "a"] "French"; Ev_sleep REQUEST_DELAY;
                    Ev_request ["a"] "French";
                    Ev_request ["a"] "French"; Ev_sleep REQUEST_DELAY]
      ∧ translation_cache s2 !! ("a", "French") = Some "T:a"
      ∧ translate_batch scripted 0 ["a"] "French" s2 = Ret [Some "T:a"] s2.
Proof.
  split.
  - eexists. vm_compute. reflexivity.
  - eexists. split; [vm_compute; reflexivity|].
    split; [reflexivity|]. split; [vm_compute; reflexivity|].
    vm_compute. reflexivity.
Qed.

Section Degraded.
Context {Service : Type}.
Variable gen : Service → list string → string → response * Service.

Lemma attempt_body_degrades recur texts lang attempt (s : state Service) r q :
  gen (remote s) texts lang = (r, q) →
  degrades r = true →
  attempt_body gen recur texts lang attempt s
  = Ret (Return (Some (replicate (length texts) "")))
        (after s q [Ev_request texts lang]).
Proof.
  intros Hgen Hr. destruct r as [[items|]|[msg|msg|msg|msg]]; try done.
  - by apply attempt_body_invalid.
  - apply (attempt_body_value_error _ _ _ _ _ _ msg); [done|].
    simpl in Hr. by apply negb_true_iff in Hr.
Qed.

Lemma cached_slots_const cache lang texts v :
  Forall (λ t, cache !! (t, lang) = Some v) texts →
  cached_slots cache lang texts = replicate (length texts) (Some v).
Proof.
  induction 1 as [|t texts Ht _ IH]; [done|].
  unfold cached_slots in *. by rewrite fmap_cons, Ht, IH.
Qed.

(** C9 (amended): an attempt of the client whose request is answered by
    a body that is no JSON, or by a [ValueError] that is not a count
    mismatch, returns one empty string per text, and so does a call or
    sub-call of the client, at any recursion depth, whose first request
    is answered so.  When the list the
    client returns to [translate_batch] consists of empty strings only,
    every uncached text gets the empty string in its slot and in the cache,
    under its normalized text and the language, and every later call with
    texts among those returns empty strings for them and leaves the state
    as it is: no request is made. *)
Theorem C9_degraded_result_is_cached (fuel : nat) (texts : list string)
    (lang : string) (s s1 : state Service) :
  let texts' := _preprocess_text <$> texts in
  let ms := misses (translation_cache s) lang texts' in
  ms ≠ [] →
  _call_translation_api gen fuel ms.*2 lang s
  = Ret (Some (replicate (length ms) "")) s1 →
  (∀ recur utexts attempt depth (s0 : state Service) r q,
     gen (remote s0) utexts lang = (r, q) → degrades r = true →
     attempt_body gen recur utexts lang attempt s0
     = Ret (Return (Some (replicate (length utexts) "")))
           (after s0 q [Ev_request utexts lang])
     ∧ _call_translation_api gen (S depth) utexts lang s0
       = Ret (Some (replicate (length utexts) ""))
             (after s0 q [Ev_request utexts lang]))
  ∧ ∃ res s2,
      translate_batch gen fuel texts lang s = Ret res s2
      ∧ remote s2 = remote s1 ∧ trace s2 = trace s1
      ∧ (∀ i t, (i, t) ∈ ms →
                res !! i = Some (Some "")
                ∧ translation_cache s2 !! (t, lang) = Some "")
      ∧ (∀ fuel' texts2,
           Forall (λ u, _preprocess_text u ∈ ms.*2) texts2 →
           translate_batch gen fuel' texts2 lang s2
           = Ret (replicate (length texts2) (Some "")) s2).
Proof.
  intros texts' ms Hms Hcall.
  split.
  { intros recur utexts attempt depth s0 r q Hgen Hr.
    split; [by eapply attempt_body_degrades|].
    rewrite call_unfold. change (seq 0 MAX_RETRIES) with (0 :: seq 1 9).
    by rewrite for_attempts_cons, (attempt_body_degrades _ _ _ _ _ _ _ Hgen Hr). }
  set (new := replicate (length ms) "") in *.
  assert (Hnew : length new = length ms) by apply length_replicate.
  assert (Hwrites : Forall (λ w : string * string, w.2 = "") (zip ms.*2 new)).
  { apply Forall_forall. intros [t x] Hin. simpl.
    apply elem_of_zip_r in Hin. by apply elem_of_replicate in Hin as [-> _]. }
  assert (Hcached : ∀ t, t ∈ ms.*2 →
            cache_writes lang (zip ms.*2 new) (translation_cache s) !! (t, lang)
            = Some "").
  { intros t Ht. apply cache_writes_const; [done|].
    by rewrite fst_zip by (rewrite length_fmap; lia). }
  eexists _, _. split.
  { apply (translate_batch_success gen fuel texts lang s new s1 Hms Hcall). }
  fold texts' ms. simpl. split; [done|]. split; [done|]. split.
  - intros i t Hin. split.
    + apply list_elem_of_lookup_1 in Hin as [j Hj].
      apply slot_writes_in.
      * rewrite fst_zip by (rewrite length_fmap; lia). apply misses_NoDup.
      * apply (list_elem_of_lookup_2 _ j). apply lookup_zip_Some.
        split; [by rewrite list_lookup_fmap, Hj|].
        apply lookup_replicate_2. by eapply lookup_lt_Some.
      * rewrite length_cached_slots.
        eapply lookup_lt_Some, misses_texts_lookup, Hj.
    + apply Hcached. apply list_elem_of_fmap. by exists (i, t).
  - intros fuel' texts2 Hall.
    rewrite translate_batch_cached.
    + simpl translation_cache.
      rewrite (cached_slots_const _ _ _ "").
      * by rewrite length_fmap.
      * apply Forall_fmap. eapply Forall_impl; [exact Hall|].
        intros u Hu. simpl. by apply Hcached.
    + eapply Forall_impl; [exact Hall|].
      intros u Hu. simpl. rewrite Hcached by done. by eexists.
Qed.

End Degraded.

(** Two texts against a service whose first answer is no JSON. *)
Lemma C9_degraded_result_witness :
  let gen := scripted in
  let s := fresh [Resp_text Body_invalid] in
  ∃ res s2,
    translate_batch gen 1 ["a"; "b"] "French" s = Ret res s2
    ∧ trace s2 = [Ev_request ["a"; "b"] "French"]
    ∧ (res !! 1 = Some (Some "")
       ∧ translation_cache s2 !! ("b", "French") = Some "")
    ∧ translate_batch gen 0 ["b"; " a"] "French" s2
      = Ret [Some ""; Some ""] s2.
Proof.
  intros gen s.
  assert (Hcall : _call_translation_api gen 1 ["a"; "b"] "French" s
                  = Ret (Some [""; ""])
                        (State ∅ [] [Ev_request ["a"; "b"] "French"]))
    by (vm_compute; reflexivity).
  destruct (C9_degraded_result_is_cached gen 1 ["a"; "b"] "French" s _
              ltac:(vm_compute; discriminate) Hcall)
    as (_ & res & s2 & Hrun & _ & Htrace & Hpoison & Hlater).
  exists res, s2. split; [exact Hrun|]. split; [exact Htrace|]. split.
  - apply (Hpoison 1 "b"). vm_compute. apply list_elem_of_In. right. by left.
  - apply (Hlater 0 ["b"; " a"]).
    repeat constructor; vm_compute; apply list_elem_of_In; simpl; auto.
Defined.


(** * Further properties of the code *)

(** ** Normalization: [_preprocess_text] *)

Lemma collapse_runs_cons c a b rest :
  collapse_runs c (String a (String b rest))
  = if Ascii.eqb a c && Ascii.eqb b c
    then collapse_runs c (String b rest)
    else String a (collapse_runs c (String b rest)).
Proof. reflexivity. Qed.

Lemma collapse_runs_head c text :
  head_char (collapse_runs c text) = head_char text.
Proof.
  induction text as [|a rest IH]; [done|].
  destruct rest as [|b rest']; [done|].
  rewrite collapse_runs_cons.
  destruct (Ascii.eqb a c && Ascii.eqb b c) eqn:Hab; [|done].
  rewrite IH. simpl.
  apply andb_true_iff in Hab as [Ha Hb].
  apply Ascii.eqb_eq in Ha, Hb. by subst.
Qed.

Lemma no_double_cons c a text :
  no_double c (String a text)
  = match head_char text with
    | Some b => negb (Ascii.eqb a c && Ascii.eqb b c) && no_double c text
    | None => true
    end.
Proof. by destruct text. Qed.

Lemma collapse_runs_no_double c text : no_double c (collapse_runs c text) = true.
Proof.
  induction text as [|a rest IH]; [done|].
  destruct rest as [|b rest']; [done|].
  rewrite collapse_runs_cons.
  destruct (Ascii.eqb a c && Ascii.eqb b c) eqn:Hab; [done|].
  rewrite no_double_cons, collapse_runs_head.
  cbn [head_char]. by rewrite Hab, IH.
Qed.

(** A text without a doubled [c] is left as it is. *)
Lemma collapse_runs_fixed c text :
  no_double c text = true → collapse_runs c text = text.
Proof.
  induction text as [|a rest IH]; [done|].
  intros Hnd. destruct rest as [|b rest']; [done|].
  rewrite collapse_runs_cons.
  rewrite no_double_cons in Hnd. cbn [head_char] in Hnd.
  apply andb_true_iff in Hnd as [Hab Hnd].
  apply negb_true_iff in Hab. rewrite Hab. by rewrite IH.
Qed.

(** Collapsing the runs of one character doubles no other character. *)
Lemma collapse_runs_keeps_no_double c d text :
  no_double d text = true → no_double d (collapse_runs c text) = true.
Proof.
  induction text as [|a rest IH]; [done|].
  intros Hnd. destruct rest as [|b rest']; [done|].
  rewrite collapse_runs_cons.
  rewrite no_double_cons in Hnd. cbn [head_char] in Hnd.
  apply andb_true_iff in Hnd as [Hab Hnd].
  destruct (Ascii.eqb a c && Ascii.eqb b c); [by apply IH|].
  rewrite no_double_cons, collapse_runs_head.
  cbn [head_char]. by rewrite Hab, IH.
Qed.

Lemma lstrip_no_double c text :
  no_double c text = true → no_double c (lstrip text) = true.
Proof.
  induction text as [|a rest IH]; [done|].
  intros Hnd. simpl. destruct (isspace a); [|done].
  apply IH. rewrite no_double_cons in Hnd.
  destruct (head_char rest) eqn:Hh.
  - by apply andb_true_iff in Hnd as [_ ?].
  - by destruct rest.
Qed.

Lemma rstrip_head text :
  rstrip text ≠ EmptyString → head_char (rstrip text) = head_char text.
Proof.
  destruct text as [|a rest]; [done|]. simpl.
  destruct (rstrip rest); [by destruct (isspace a) | done].
Qed.

Lemma rstrip_no_double c text :
  no_double c text = true → no_double c (rstrip text) = true.
Proof.
  induction text as [|a rest IH]; [done|].
  intros Hnd. rewrite no_double_cons in Hnd.
  cbn [rstrip]. destruct (rstrip rest) as [|b kept] eqn:Hr.
  - by destruct (isspace a).
  - assert (Hne : rstrip rest ≠ EmptyString) by (by rewrite Hr).
    apply rstrip_head in Hne. rewrite Hr in Hne. cbn [head_char] in Hne.
    rewrite <- Hne in Hnd. apply andb_true_iff in Hnd as [Hab Hnd].
    rewrite no_double_cons. cbn [head_char]. rewrite Hab.
    by apply IH.
Qed.

Lemma lstrip_head text a :
  head_char (lstrip text) = Some a → isspace a = false.
Proof.
  induction text as [|b rest IH]; [done|].
  simpl. destruct (isspace b) eqn:Hb; [done|].
  simpl. by intros [= <-].
Qed.

Lemma lstrip_fixed text :
  (∀ a, head_char text = Some a → isspace a = false) → lstrip text = text.
Proof.
  destruct text as [|a rest]; [done|].
  intros H. simpl. by rewrite (H a eq_refl).
Qed.

Lemma rstrip_last text a :
  last_char (rstrip text) = Some a → isspace a = false.
Proof.
  induction text as [|b rest IH]; [done|].
  simpl. destruct (rstrip rest) as [|c kept] eqn:Hr.
  - destruct (isspace b) eqn:Hb; [done|]. simpl. by intros [= <-].
  - simpl. by apply IH.
Qed.

Lemma rstrip_fixed text :
  (∀ a, last_char text = Some a → isspace a = false) → rstrip text = text.
Proof.
  induction text as [|b rest IH]; [done|].
  intros H. simpl. destruct rest as [|c rest'].
  - simpl. by rewrite (H b eq_refl).
  - rewrite IH by (intros a Ha; by apply H). done.
Qed.

Lemma lstrip_last text a :
  last_char (lstrip text) = Some a → last_char text = Some a.
Proof.
  induction text as [|b rest IH]; [done|].
  simpl lstrip. destruct (isspace b) eqn:Hb; [|done].
  intros Ha. specialize (IH Ha). destruct rest; [done|]. exact IH.
Qed.

Lemma strip_head text a :
  head_char (strip text) = Some a → isspace a = false.
Proof. apply lstrip_head. Qed.

Lemma strip_last text a :
  last_char (strip text) = Some a → isspace a = false.
Proof. unfold strip. intros Ha. by apply lstrip_last, rstrip_last in Ha. Qed.

Lemma strip_fixed text :
  (∀ a, head_char text = Some a → isspace a = false) →
  (∀ a, last_char text = Some a → isspace a = false) →
  strip text = text.
Proof.
  intros Hh Hl. unfold strip. by rewrite rstrip_fixed, lstrip_fixed.
Qed.

Lemma length_collapse_runs c text :
  String.length (collapse_runs c text) ≤ String.length text.
Proof.
  induction text as [|a rest IH]; [done|].
  destruct rest as [|b rest']; [done|].
  rewrite collapse_runs_cons.
  destruct (Ascii.eqb a c && Ascii.eqb b c);
    cbn [String.length] in *; lia.
Qed.

Lemma length_lstrip text : String.length (lstrip text) ≤ String.length text.
Proof.
  induction text as [|a rest IH]; [done|].
  simpl. destruct (isspace a); simpl; lia.
Qed.

Lemma length_rstrip text : String.length (rstrip text) ≤ String.length text.
Proof.
  induction text as [|a rest IH]; [done|].
  simpl. destruct (rstrip rest); [destruct (isspace a)|]; simpl in *; lia.
Qed.

Lemma preprocess_text_normal_form (text : string) :
  let r := _preprocess_text text in
  no_double LF r = true
  ∧ no_double TAB r = true
  ∧ (∀ a, head_char r = Some a → isspace a = false)
  ∧ (∀ a, last_char r = Some a → isspace a = false)
  ∧ String.length r ≤ String.length text.
Proof.
  unfold _preprocess_text, strip. simpl.
  split; [|split; [|split; [|split]]].
  - apply lstrip_no_double, rstrip_no_double, collapse_runs_keeps_no_double,
      collapse_runs_no_double.
  - apply lstrip_no_double, rstrip_no_double, collapse_runs_no_double.
  - apply strip_head.
  - apply strip_last.
  - pose proof (length_lstrip (rstrip (collapse_runs TAB (collapse_runs LF text)))).
    pose proof (length_rstrip (collapse_runs TAB (collapse_runs LF text))).
    pose proof (length_collapse_runs TAB (collapse_runs LF text)).
    pose proof (length_collapse_runs LF text). lia.
Qed.


(** X2: normalizing twice is normalizing once, so a normalized text is its
    own cache key. *)
Theorem preprocess_text_idempotent (text : string) :
  _preprocess_text (_preprocess_text text) = _preprocess_text text.
Proof.
  destruct (preprocess_text_normal_form text) as (Hlf & Htab & Hh & Hl & _).
  set (r := _preprocess_text text) in *.
  unfold _preprocess_text at 1.
  rewrite (collapse_runs_fixed LF r Hlf), (collapse_runs_fixed TAB r Htab).
  by apply strip_fixed.
Qed.


(** ** The cache across calls *)

Section CacheKept.
Context {Service : Type}.
Variable gen : Service → list string → string → response * Service.

Lemma split_retry_keeps_cache recur texts lang (s s' : state Service) :
  keeps_cache recur lang →
  final_state (split_retry recur texts lang s) = Some s' →
  translation_cache s' = translation_cache s.
Proof.
  intros Hrec. unfold split_retry. mrun.
  destruct (recur (take _ texts) lang s) as [r1 s1|e1 s1|] eqn:H1;
    [| |done].
  - assert (Hc1 : translation_cache s1 = translation_cache s).
    { apply (Hrec (take (length texts / 2) texts)). by rewrite H1. }
    destruct (recur (drop _ texts) lang s1) as [r2 s2|e2 s2|] eqn:H2;
      [| |done].
    + assert (Hc2 : translation_cache s2 = translation_cache s1).
      { apply (Hrec (drop (length texts / 2) texts)). by rewrite H2. }
      destruct r1 as [l1|], r2 as [l2|]; simpl; mrun;
        intros [= <-]; congruence.
    + intros [= <-]. rewrite <- Hc1.
      apply (Hrec (drop (length texts / 2) texts)). by rewrite H2.
  - intros [= <-].
    apply (Hrec (take (length texts / 2) texts)). by rewrite H1.
Qed.

Lemma attempt_body_keeps_cache recur texts lang attempt (s s' : state Service) :
  keeps_cache recur lang →
  final_state (attempt_body gen recur texts lang attempt s) = Some s' →
  translation_cache s' = translation_cache s.
Proof.
  intros Hrec.
  destruct (gen (remote s) texts lang) as [[[items|]|e] q] eqn:Hgen.
  - destruct (decide (length items = length texts)) as [Hlen|Hlen].
    + rewrite (attempt_body_ok _ _ _ _ _ _ _ _ Hgen Hlen). by intros [= <-].
    + rewrite (attempt_body_mismatch _ _ _ _ _ _ _ _ Hgen Hlen).
      intros H. by apply (split_retry_keeps_cache _ _ _ _ _ Hrec) in H.
  - rewrite (attempt_body_invalid _ _ _ _ _ _ _ Hgen). by intros [= <-].
  - destruct (is_ValueError e) eqn:He.
    + destruct e as [msg|msg|msg|msg]; simpl in He; try done.
      destruct (str_contains "Translation count mismatch" msg) eqn:Hmsg.
      * rewrite (attempt_body_value_error_mismatch _ _ _ _ _ _ _ _ Hgen Hmsg).
        intros H. by apply (split_retry_keeps_cache _ _ _ _ _ Hrec) in H.
      * rewrite (attempt_body_value_error _ _ _ _ _ _ _ _ Hgen Hmsg).
        by intros [= <-].
    + rewrite (attempt_body_transient _ _ _ _ _ _ _ _ Hgen He).
      by intros [= <-].
Qed.

Lemma for_attempts_keeps_cache recur texts lang attempts (s s' : state Service) :
  keeps_cache recur lang →
  final_state (for_attempts (attempt_body gen recur texts lang) attempts s)
  = Some s' →
  translation_cache s' = translation_cache s.
Proof.
  intros Hrec. revert s.
  induction attempts as [|a rest IH]; intros s.
  - simpl. mrun. by intros [= <-].
  - rewrite for_attempts_cons.
    destruct (attempt_body gen recur texts lang a s)
      as [[r0|] s0|e0 s0|] eqn:Hbody; [| | |done].
    + intros [= <-].
      apply (attempt_body_keeps_cache recur texts lang a); [done|].
      by rewrite Hbody.
    + intros Hrest. apply IH in Hrest. rewrite Hrest.
      apply (attempt_body_keeps_cache recur texts lang a); [done|].
      by rewrite Hbody.
    + intros [= <-].
      apply (attempt_body_keeps_cache recur texts lang a); [done|].
      by rewrite Hbody.
Qed.

Lemma call_keeps_cache (fuel : nat) (lang : string) :
  keeps_cache (_call_translation_api gen fuel) lang.
Proof.
  induction fuel as [|fuel IH]; intros texts s s'.
  - done.
  - rewrite call_unfold. by apply for_attempts_keeps_cache.
Qed.

(** X3: the translation client never touches the cache: however a call of
    [_call_translation_api] ends, by returning a list, by giving up or by
    raising, the cache is what it was before the call. *)
Theorem call_translation_api_keeps_cache (fuel : nat) (texts : list string)
    (lang : string) (s s' : state Service) :
  final_state (_call_translation_api gen fuel texts lang s) = Some s' →
  translation_cache s' = translation_cache s.
Proof. apply call_keeps_cache. Qed.

Lemma cache_writes_other_lang (lang lang' : string)
    (writes : list (string * string))
    (cache : gmap (string * string) string) (t : string) :
  lang' ≠ lang →
  cache_writes lang writes cache !! (t, lang') = cache !! (t, lang').
Proof.
  intros Hne. revert cache.
  induction writes as [|[u x] writes IH]; intros cache; [done|].
  unfold cache_writes in *. simpl. rewrite IH.
  apply lookup_insert_ne. congruence.
Qed.

(** The cache after a call of [translate_batch] that ends: as before, or
    with one write per uncached occurrence. *)
Lemma translate_batch_final_cache fuel texts lang (s s' : state Service) :
  final_state (translate_batch gen fuel texts lang s) = Some s' →
  let ms := misses (translation_cache s) lang (_preprocess_text <$> texts) in
  translation_cache s' = translation_cache s
  ∨ ∃ new, length new = length ms
           ∧ translation_cache s'
             = cache_writes lang (zip ms.*2 new) (translation_cache s).
Proof.
  intros Hfin ms.
  destruct (decide (texts = [])) as [->|Hne].
  { left. by injection Hfin as <-. }
  destruct (decide (ms = [])) as [Hms|Hms].
  - left. rewrite translate_batch_unfold in Hfin by done.
    fold ms in Hfin. rewrite Hms in Hfin. by injection Hfin as <-.
  - destruct (_call_translation_api gen fuel ms.*2 lang s)
      as [[new|] s1|e s1|] eqn:Hcall.
    + right. exists new.
      destruct (call_same_length gen fuel lang _ _ _ _ Hcall)
        as (_ & _ & Hlen).
      specialize (Hlen new eq_refl). rewrite length_fmap in Hlen.
      split; [done|].
      rewrite (translate_batch_success gen fuel texts lang s new s1 Hms Hcall)
        in Hfin.
      by injection Hfin as <-.
    + left.
      rewrite (translate_batch_failed gen fuel texts lang s s1 Hms Hcall)
        in Hfin.
      injection Hfin as <-.
      apply (call_keeps_cache fuel lang ms.*2). by rewrite Hcall.
    + left.
      rewrite (translate_batch_raise gen fuel texts lang s e s1 Hms Hcall)
        in Hfin.
      injection Hfin as <-.
      apply (call_keeps_cache fuel lang ms.*2). by rewrite Hcall.
    + by rewrite (translate_batch_out_of_fuel gen fuel texts lang s Hms Hcall)
        in Hfin.
Qed.

(** X4: the cache only grows.  However a call of [translate_batch] ends,
    every entry the cache had before the call is still there with the same
    value, and the entries of every other language are exactly as before. *)
Theorem translate_batch_cache_only_grows (fuel : nat) (texts : list string)
    (lang : string) (s s' : state Service) :
  final_state (translate_batch gen fuel texts lang s) = Some s' →
  (∀ key v, translation_cache s !! key = Some v →
            translation_cache s' !! key = Some v)
  ∧ (∀ t lang', lang' ≠ lang →
                translation_cache s' !! (t, lang')
                = translation_cache s !! (t, lang')).
Proof.
  intros Hfin.
  destruct (translate_batch_final_cache fuel texts lang s s' Hfin)
    as [->|(new & Hlen & ->)]; [done|].
  split.
  - intros [t l] v Hv. destruct (decide (l = lang)) as [->|Hl].
    + rewrite cache_writes_notin; [done|].
      rewrite fst_zip by (rewrite length_fmap; lia).
      intros Hin. apply list_elem_of_fmap in Hin as ([j u] & -> & Hin).
      apply elem_of_misses in Hin as [_ Hc]. simpl in *. congruence.
    + by rewrite cache_writes_other_lang.
  - intros t lang' Hne. by apply cache_writes_other_lang.
Qed.

End CacheKept.

(** A call that raises, with one entry in the cache. *)
Lemma call_translation_api_keeps_cache_witness :
  let s := State {[ ("hello", "French") := "bonjour" ]} () [] in
  ∃ e s',
    _call_translation_api half_failing 2 ["a"; "b"] "French" s = Raise e s'
    ∧ translation_cache s' = translation_cache s.
Proof.
  intros s. eexists _, _. split; [vm_compute; reflexivity|].
  apply (call_translation_api_keeps_cache half_failing 2 ["a"; "b"] "French" s).
  vm_compute. reflexivity.
Defined.

(** One entry in the cache and a call that adds another. *)
Lemma translate_batch_cache_only_grows_witness :
  let s := State {[ ("hello", "French") := "bonjour" ]} () [] in
  ∃ s',
    final_state (translate_batch tagging 1 ["hello"; "world"] "French" s)
    = Some s'
    ∧ translation_cache s' !! ("hello", "French") = Some "bonjour"
    ∧ translation_cache s' !! ("world", "German") = None.
Proof.
  intros s. eexists. split; [vm_compute; reflexivity|].
  match goal with
  | |- translation_cache ?s' !! _ = _ ∧ _ =>
      destruct (translate_batch_cache_only_grows tagging 1
                  ["hello"; "world"] "French" s s'
                  ltac:(vm_compute; reflexivity)) as [Hkeep Hother]
  end.
  split.
  - apply Hkeep. vm_compute. reflexivity.
  - etrans; [apply Hother; discriminate|]. vm_compute. reflexivity.
Defined.

(** ** Services that translate: convergence of the split and order of the
    results *)

Section Translating.
Context {Service : Type}.
Variable gen : Service → list string → string → response * Service.
Variable f : string → string.

Lemma answers_with_or_miscounts : answers_with f gen → answers_or_miscounts f gen.
Proof.
  intros H q texts lang. destruct (H q texts lang) as [q' Hq].
  exists (f <$> texts), q'. split; [done | by left].
Qed.

Lemma half_bounds (n : nat) : 2 ≤ n → 1 ≤ n / 2 ∧ n / 2 < n.
Proof.
  intros Hn. split.
  - apply Nat.div_str_pos. lia.
  - apply Nat.div_lt; lia.
Qed.

(** Splitting recovers every miscount as long as the service translates
    single texts. *)
Lemma call_converges (fuel : nat) (texts : list string) (lang : string)
    (s : state Service) :
  answers_or_miscounts f gen →
  length texts < fuel →
  ∃ s', _call_translation_api gen fuel texts lang s = Ret (Some (f <$> texts)) s'
        ∧ translation_cache s' = translation_cache s.
Proof.
  intros Hgen. revert texts s.
  induction fuel as [|fuel IH]; intros texts s Hfuel; [lia|].
  rewrite call_unfold. change (seq 0 MAX_RETRIES) with (0 :: seq 1 9).
  rewrite for_attempts_cons.
  destruct (Hgen (remote s) texts lang) as (items & q & Hresp & [->|[Hn Hlen]]).
  - rewrite (attempt_body_ok _ _ _ _ _ _ _ _ Hresp) by apply length_fmap.
    by eexists.
  - rewrite (attempt_body_mismatch _ _ _ _ _ _ _ _ Hresp Hlen).
    destruct (half_bounds _ Hn) as [Hmid1 Hmid2].
    unfold split_retry. mrun.
    destruct (IH (take (length texts / 2) texts)
                (after s q [Ev_request texts lang; Ev_sleep REQUEST_DELAY]))
      as (s1 & -> & Hc1); [rewrite length_take; lia|].
    destruct (IH (drop (length texts / 2) texts) s1)
      as (s2 & -> & Hc2); [rewrite length_drop; lia|].
    simpl. mrun. eexists. split.
    + by rewrite <- fmap_app, take_drop.
    + by rewrite Hc2, Hc1.
Qed.

Lemma cache_writes_in (lang : string) (writes : list (string * string))
    (cache : gmap (string * string) string) (t : string) :
  t ∈ writes.*1 → is_Some (cache_writes lang writes cache !! (t, lang)).
Proof.
  revert cache. induction writes as [|[u x] writes IH]; intros cache Ht.
  - by apply elem_of_nil in Ht.
  - destruct (decide (t ∈ writes.*1)) as [Hin|Hnin].
    + unfold cache_writes in *. simpl. by apply IH.
    + rewrite fmap_cons in Ht. apply elem_of_cons in Ht as [->|Ht]; [|done].
      exists x. by apply (cache_writes_last lang [] writes).
Qed.

Lemma cache_writes_agrees (lang : string) (writes : list (string * string))
    (cache : gmap (string * string) string) :
  cache_agrees f lang cache →
  Forall (λ w, w.2 = f w.1) writes →
  cache_agrees f lang (cache_writes lang writes cache).
Proof.
  intros Hc Hw. revert cache Hc.
  induction Hw as [|[u x] writes Hux _ IH]; intros cache Hc; [done|].
  unfold cache_writes in *. simpl. apply IH.
  intros t v. simpl in Hux. subst x.
  destruct (decide (t = u)) as [->|Hne].
  - rewrite lookup_insert_eq. by intros [= <-].
  - rewrite lookup_insert_ne by congruence. apply Hc.
Qed.

Lemma length_misses (cache : gmap (string * string) string) lang texts :
  length (misses cache lang texts) ≤ length texts.
Proof.
  unfold misses. etrans; [apply length_filter|]. by rewrite length_imap.
Qed.

(** With a translating service and a cache that agrees with it, every
    slot of the result is the translation of the normalized text. *)
Lemma translate_batch_translates (fuel : nat) (texts : list string)
    (lang : string) (s : state Service) :
  answers_or_miscounts f gen →
  cache_agrees f lang (translation_cache s) →
  length texts < fuel →
  ∃ s', translate_batch gen fuel texts lang s
        = Ret ((λ t, Some (f (_preprocess_text t))) <$> texts) s'
        ∧ cache_agrees f lang (translation_cache s')
        ∧ Forall (λ t, translation_cache s' !! (_preprocess_text t, lang)
                       = Some (f (_preprocess_text t))) texts.
Proof.
  intros Hgen Hagree Hfuel.
  set (texts' := _preprocess_text <$> texts).
  set (cache := translation_cache s) in *.
  set (ms := misses cache lang texts').
  assert (Hres : ∀ (res : list (option string)),
            length res = length texts' →
            (∀ i t, texts' !! i = Some t → res !! i = Some (Some (f t))) →
            res = (λ t, Some (f (_preprocess_text t))) <$> texts).
  { intros res Hlen Hpt. apply list_eq. intros i.
    rewrite list_lookup_fmap.
    destruct (texts !! i) as [t|] eqn:Ht; simpl.
    - apply Hpt. unfold texts'. by rewrite list_lookup_fmap, Ht.
    - apply lookup_ge_None. rewrite Hlen. unfold texts'.
      rewrite length_fmap. by apply lookup_ge_None. }
  destruct (decide (ms = [])) as [Hms|Hms].
  - exists s. split; [|split; [done|]].
    + destruct (decide (texts = [])) as [->|Hne]; [done|].
      rewrite translate_batch_unfold by done. fold texts' cache ms.
      rewrite Hms. simpl. f_equal. apply Hres.
      * apply length_cached_slots.
      * intros i t Ht. unfold cached_slots. rewrite list_lookup_fmap, Ht.
        simpl. destruct (cache !! (t, lang)) as [v|] eqn:Hc.
        -- by rewrite (Hagree t v Hc).
        -- assert (Hin : (i, t) ∈ ms) by (by apply elem_of_misses).
           rewrite Hms in Hin. by apply elem_of_nil in Hin.
    + apply Forall_forall. intros t Hin.
      destruct (cache !! (_preprocess_text t, lang)) as [v|] eqn:Hc.
      * fold cache. rewrite Hc. by rewrite (Hagree _ v Hc).
      * apply list_elem_of_lookup_1 in Hin as [i Hi].
        assert (Hm : (i, _preprocess_text t) ∈ ms).
        { apply elem_of_misses. split; [|done].
          unfold texts'. by rewrite list_lookup_fmap, Hi. }
        rewrite Hms in Hm. by apply elem_of_nil in Hm.
  - destruct (call_converges fuel ms.*2 lang s Hgen) as (s1 & Hcall & Hc1).
    { rewrite length_fmap. pose proof (length_misses cache lang texts').
      unfold texts' in *. rewrite length_fmap in *. fold ms in H. lia. }
    eexists. split; [|split].
    + rewrite (translate_batch_success gen fuel texts lang s _ s1 Hms Hcall).
      f_equal. fold texts' cache ms. apply Hres.
      * by rewrite length_slot_writes, length_cached_slots.
      * intros i t Ht.
        destruct (cache !! (t, lang)) as [v|] eqn:Hc.
        -- rewrite slot_writes_notin.
           ++ unfold cached_slots. rewrite list_lookup_fmap, Ht. simpl.
              by rewrite Hc, (Hagree t v Hc).
           ++ rewrite fst_zip by (by rewrite !length_fmap).
              intros Hin. apply list_elem_of_fmap in Hin as ([j u] & -> & Hin).
              apply elem_of_misses in Hin as [Hu Hcu]. simpl in *. congruence.
        -- assert (Hin : (i, t) ∈ ms) by (by apply elem_of_misses).
           apply list_elem_of_lookup_1 in Hin as [j Hj].
           apply slot_writes_in.
           ++ rewrite fst_zip by (by rewrite !length_fmap).
              apply misses_NoDup.
           ++ apply (list_elem_of_lookup_2 _ j). apply lookup_zip_Some.
              by rewrite !list_lookup_fmap, Hj.
           ++ rewrite length_cached_slots. by eapply lookup_lt_Some.
    + simpl. apply cache_writes_agrees; [done|].
      apply Forall_forall. intros [u x] Hin. simpl.
      apply list_elem_of_lookup_1 in Hin as [j Hj].
      apply lookup_zip_Some in Hj as [Hu Hx].
      apply list_lookup_fmap_Some_1 in Hx as (u' & -> & Hu').
      by pose proof (eq_trans (eq_sym Hu) Hu') as [= ->].
    + simpl. apply Forall_forall. intros t Hin.
      assert (Hag : cache_agrees f lang
                      (cache_writes lang (zip ms.*2 (f <$> ms.*2)) cache)).
      { apply cache_writes_agrees; [done|].
        apply Forall_forall. intros [u x] Hux. simpl.
        apply list_elem_of_lookup_1 in Hux as [j Hj].
        apply lookup_zip_Some in Hj as [Hu Hx].
        apply list_lookup_fmap_Some_1 in Hx as (u' & -> & Hu').
        by pose proof (eq_trans (eq_sym Hu) Hu') as [= ->]. }
      assert (Hsome : is_Some (cache_writes lang (zip ms.*2 (f <$> ms.*2)) cache
                               !! (_preprocess_text t, lang))).
      { destruct (cache !! (_preprocess_text t, lang)) as [v|] eqn:Hc.
        - rewrite cache_writes_notin; [by rewrite Hc|].
          rewrite fst_zip by (by rewrite !length_fmap).
          intros Hm. apply list_elem_of_fmap in Hm as ([j u] & Hu & Hm).
          apply elem_of_misses in Hm as [_ Hcu]. simpl in *. congruence.
        - apply cache_writes_in.
          rewrite fst_zip by (by rewrite !length_fmap).
          apply list_elem_of_lookup_1 in Hin as [i Hi].
          apply list_elem_of_fmap. exists (i, _preprocess_text t).
          split; [done|]. apply elem_of_misses. split; [|done].
          unfold texts'. by rewrite list_lookup_fmap, Hi. }
      destruct Hsome as [v Hv]. etrans; [exact Hv|]. f_equal.
      by apply Hag.
Qed.

End Translating.

(** X5: splitting recovers miscounts.  Against a service that answers each
    request with the translations of its texts or, for a request of two
    texts or more, with an array of a wrong length, the client returns the
    translations of all its texts, in order, as soon as the recursion depth
    exceeds the number of texts, and leaves the cache alone. *)
Theorem split_retry_converges {Service : Type}
    (gen : Service → list string → string → response * Service)
    (f : string → string) (fuel : nat) (texts : list string) (lang : string)
    (s : state Service) :
  answers_or_miscounts f gen →
  length texts < fuel →
  ∃ s', _call_translation_api gen fuel texts lang s = Ret (Some (f <$> texts)) s'
        ∧ translation_cache s' = translation_cache s.
Proof. apply call_converges. Qed.

Lemma singles_only_answers : answers_or_miscounts tag singles_only.
Proof.
  intros q texts lang. destruct texts as [|t [|u texts]].
  - exists [], q. split; [done | by left].
  - exists [tag t], q. split; [done | by left].
  - exists [], q. split; [done|]. right. simpl. split; [lia | done].
Qed.

(** Three texts against the service that only answers single texts. *)
Lemma split_retry_converges_witness :
  ∃ s', _call_translation_api singles_only 4 ["a"; "b"; "c"] "French" (fresh ())
        = Ret (Some ["T:a"; "T:b"; "T:c"]) s'
        ∧ translation_cache s' = ∅.
Proof.
  apply (split_retry_converges singles_only tag 4 ["a"; "b"; "c"] "French"
           (fresh ()) singles_only_answers).
  simpl. lia.
Defined.

(** X6: order of the results.  Against such a service, and with a cache
    whose entries for the language are translations by the same function,
    [translate_batch] returns, for every input in order, the translation of
    its normalized text; afterwards the cache still agrees with the
    function and holds every normalized input. *)
Theorem translate_batch_translates_in_order {Service : Type}
    (gen : Service → list string → string → response * Service)
    (f : string → string) (fuel : nat) (texts : list string) (lang : string)
    (s : state Service) :
  answers_or_miscounts f gen →
  cache_agrees f lang (translation_cache s) →
  length texts < fuel →
  ∃ s', translate_batch gen fuel texts lang s
        = Ret ((λ t, Some (f (_preprocess_text t))) <$> texts) s'
        ∧ cache_agrees f lang (translation_cache s')
        ∧ Forall (λ t, translation_cache s' !! (_preprocess_text t, lang)
                       = Some (f (_preprocess_text t))) texts.
Proof. apply translate_batch_translates. Qed.

Lemma cache_agrees_empty (f : string → string) (lang : string) :
  cache_agrees f lang ∅.
Proof. intros t v Hv. by rewrite lookup_empty in Hv. Qed.

(** Three texts, one of them twice, against the service that only answers
    single texts. *)
Lemma translate_batch_translates_in_order_witness :
  ∃ s', translate_batch singles_only 4 ["b "; "a"; "b"] "French" (fresh ())
        = Ret [Some "T:b"; Some "T:a"; Some "T:b"] s'
        ∧ translation_cache s' !! ("a", "French") = Some "T:a".
Proof.
  destruct (translate_batch_translates_in_order singles_only tag 4
              ["b "; "a"; "b"] "French" (fresh ()) singles_only_answers
              (cache_agrees_empty tag "French") ltac:(simpl; lia))
    as (s' & Hrun & _ & Hall).
  exists s'. split; [exact Hrun|].
  apply Forall_cons in Hall as [_ Hall].
  apply Forall_cons in Hall as [Ha _]. exact Ha.
Defined.

(** ** Retries *)

Lemma for_attempts_recovers recur (texts : list string) (lang : string)
    (errs : list exn) (items : list string) (rest : list response)
    (n a : nat) cache tr :
  Forall (λ e, is_ValueError e = false) errs →
  length errs < n →
  a + n = MAX_RETRIES →
  length items = length texts →
  ∃ tr',
    for_attempts (attempt_body scripted recur texts lang) (seq a n)
      (State cache ((Resp_raise <$> errs) ++ Resp_text (Body_array items) :: rest)
             tr)
    = Ret (Some items) (State cache rest tr')
    ∧ count_requests tr' = count_requests tr + length errs + 1.
Proof.
  intros Herrs. revert n a tr.
  induction Herrs as [|e errs He _ IH]; intros n a tr Hn Han Hlen.
  - destruct n as [|n]; [simpl in Hn; lia|].
    simpl seq. rewrite for_attempts_cons.
    rewrite (attempt_body_ok scripted recur texts lang a _ items rest)
      by done.
    eexists. split; [reflexivity|].
    rewrite count_requests_app. simpl. unfold count_requests. simpl. lia.
  - destruct n as [|n]; [simpl in Hn; lia|]. simpl in Hn.
    simpl seq. rewrite for_attempts_cons.
    rewrite (attempt_body_transient scripted recur texts lang a _ e
               ((Resp_raise <$> errs) ++ Resp_text (Body_array items) :: rest))
      by done.
    assert (Ha : (a =? MAX_RETRIES - 1) = false).
    { apply Nat.eqb_neq. unfold MAX_RETRIES in *. lia. }
    rewrite Ha.
    destruct (IH n (S a) (tr ++ Ev_request texts lang :: backoff e a))
      as (tr' & Hrun & Hcount); [lia | lia | done |].
    exists tr'. split; [exact Hrun|].
    rewrite Hcount, count_requests_app, count_requests_attempt. simpl. lia.
Qed.

(** X7: retries recover transient errors.  When the service throws fewer
    than [MAX_RETRIES] transient errors in a row and then answers with an
    array of the right length, the client returns that array; it has made
    one request per error and one more, consumed exactly these responses,
    and left the cache alone. *)
Theorem retry_recovers_transient_errors (fuel : nat) (texts : list string)
    (lang : string) (errs : list exn) (items : list string)
    (rest : list response) (cache : gmap (string * string) string)
    (tr : list event) :
  Forall (λ e, is_ValueError e = false) errs →
  length errs < MAX_RETRIES →
  length items = length texts →
  ∃ tr',
    _call_translation_api scripted (S fuel) texts lang
      (State cache ((Resp_raise <$> errs) ++ Resp_text (Body_array items) :: rest)
             tr)
    = Ret (Some items) (State cache rest tr')
    ∧ count_requests tr' = count_requests tr + length errs + 1.
Proof.
  intros Herrs Hn Hlen. rewrite call_unfold.
  by apply for_attempts_recovers.
Qed.

(** Nine errors, two of them quota errors, then the answer. *)
Lemma retry_recovers_transient_errors_witness :
  let errs := replicate 7 (RemoteError "503 Service Unavailable")
              ++ [quota_error; quota_error] in
  ∃ tr',
    _call_translation_api scripted 1 ["a"] "French"
      (State ∅ ((Resp_raise <$> errs) ++ [Resp_text (Body_array ["x"])]) [])
    = Ret (Some ["x"]) (State ∅ [] tr')
    ∧ count_requests tr' = 0 + 9 + 1.
Proof.
  intros errs.
  apply (retry_recovers_transient_errors 0 ["a"] "French" errs ["x"] [] ∅ []).
  - repeat constructor.
  - vm_compute. lia.
  - reflexivity.
Defined.

(** ** Repeating a call *)

Section Repeat.
Context {Service : Type}.
Variable gen : Service → list string → string → response * Service.

(** X8: repeating a successful call.  Let a call of [translate_batch]
    return with every text found in the cache or translated by the client,
    and let the uncached normalized texts be pairwise distinct.  Then the
    same call again, at any recursion depth, returns the same list and
    leaves the state as it is: no request is made. *)
Theorem translate_batch_repeat (fuel fuel' : nat) (texts : list string)
    (lang : string) (s s1 : state Service) (res : list (option string)) :
  let ms := misses (translation_cache s) lang (_preprocess_text <$> texts) in
  translate_batch gen fuel texts lang s = Ret res s1 →
  (ms = [] ∨ ∃ new s0, _call_translation_api gen fuel ms.*2 lang s
                       = Ret (Some new) s0) →
  NoDup ms.*2 →
  translate_batch gen fuel' texts lang s1 = Ret res s1.
Proof.
  intros ms Hrun Hok Hnd.
  destruct (decide (texts = [])) as [->|Hne].
  { by injection Hrun as <- <-. }
  set (texts' := _preprocess_text <$> texts) in *.
  set (cache := translation_cache s) in *.
  destruct (decide (ms = [])) as [Hms|Hms].
  - rewrite translate_batch_unfold in Hrun by done.
    fold texts' cache ms in Hrun. rewrite Hms in Hrun. simpl in Hrun.
    injection Hrun as <- <-.
    rewrite translate_batch_unfold by done.
    fold texts' cache ms. by rewrite Hms.
  - destruct Hok as [?|(new & s0 & Hcall)]; [done|].
    destruct (call_same_length gen fuel lang _ _ _ _ Hcall) as (_ & _ & Hlen).
    specialize (Hlen new eq_refl). rewrite length_fmap in Hlen.
    rewrite (translate_batch_success gen fuel texts lang s new s0 Hms Hcall)
      in Hrun.
    fold texts' cache ms in Hrun. injection Hrun as <- <-.
    set (cache1 := cache_writes lang (zip ms.*2 new) cache).
    assert (Hpt : ∀ i t, texts' !! i = Some t →
              slot_writes (zip ms.*1 new) (cached_slots cache lang texts') !! i
              = Some (cache1 !! (t, lang))
              ∧ is_Some (cache1 !! (t, lang))).
    { intros i t Ht. destruct (cache !! (t, lang)) as [v|] eqn:Hc.
      - assert (Hc1 : cache1 !! (t, lang) = Some v).
        { unfold cache1. rewrite cache_writes_notin; [done|].
          rewrite fst_zip by (rewrite length_fmap; lia).
          intros Hin. apply list_elem_of_fmap in Hin as ([j u] & -> & Hin).
          apply elem_of_misses in Hin as [_ Hcu]. simpl in *. congruence. }
        rewrite Hc1. split; [|by eexists].
        rewrite slot_writes_notin.
        + unfold cached_slots. rewrite list_lookup_fmap, Ht. simpl.
          by rewrite Hc.
        + rewrite fst_zip by (rewrite length_fmap; lia).
          intros Hin. apply list_elem_of_fmap in Hin as ([j u] & -> & Hin).
          apply elem_of_misses in Hin as [Hu Hcu]. simpl in *. congruence.
      - assert (Hin : (i, t) ∈ ms) by (by apply elem_of_misses).
        apply list_elem_of_lookup_1 in Hin as [j Hj].
        destruct (lookup_lt_is_Some_2 new j) as [x Hx].
        { rewrite Hlen. by eapply lookup_lt_Some. }
        assert (Hz : zip ms.*2 new !! j = Some (t, x)).
        { apply lookup_zip_Some. by rewrite list_lookup_fmap, Hj. }
        assert (Hc1 : cache1 !! (t, lang) = Some x).
        { unfold cache1. rewrite <- (take_drop_middle _ _ _ Hz).
          apply cache_writes_last.
          rewrite <- (fst_zip ms.*2 new) in Hnd by (rewrite length_fmap; lia).
          rewrite <- (take_drop_middle _ _ _ Hz) in Hnd.
          rewrite fmap_app, fmap_cons in Hnd.
          apply NoDup_app in Hnd as (_ & _ & Hnd).
          by apply NoDup_cons in Hnd as [Hnin _]. }
        rewrite Hc1. split; [|by eexists].
        apply slot_writes_in.
        + rewrite fst_zip by (rewrite length_fmap; lia). apply misses_NoDup.
        + apply (list_elem_of_lookup_2 _ j). apply lookup_zip_Some.
          by rewrite list_lookup_fmap, Hj.
        + rewrite length_cached_slots. by eapply lookup_lt_Some. }
    rewrite translate_batch_cached.
    + simpl translation_cache. fold texts' cache1. f_equal.
      apply list_eq. intros i. unfold cached_slots at 1.
      rewrite list_lookup_fmap.
      destruct (texts' !! i) as [t|] eqn:Ht; simpl.
      * symmetry. by apply Hpt.
      * symmetry. apply lookup_ge_None.
        rewrite length_slot_writes, length_cached_slots.
        by apply lookup_ge_None.
    + simpl translation_cache. fold cache1.
      apply Forall_forall. intros t Hin.
      apply list_elem_of_lookup_1 in Hin as [i Hi].
      apply (Hpt i). unfold texts'. by rewrite list_lookup_fmap, Hi.
Qed.

End Repeat.

(** Three distinct texts, translated and then asked again. *)
Lemma translate_batch_repeat_witness :
  ∃ res s1,
    translate_batch tagging 1 ["a"; "b"; "c"] "French" (fresh ()) = Ret res s1
    ∧ count_requests (trace s1) = 1
    ∧ translate_batch tagging 0 ["a"; "b"; "c"] "French" s1 = Ret res s1.
Proof.
  eexists _, _. split; [vm_compute; reflexivity|]. split; [reflexivity|].
  apply (translate_batch_repeat tagging 1 0 ["a"; "b"; "c"] "French" (fresh ())).
  - vm_compute. reflexivity.
  - right. eexists _, _. vm_compute. reflexivity.
  - vm_compute. repeat constructor; rewrite ?list_elem_of_In; simpl; intuition congruence.
Defined.

(** ** More on batch packing *)

Section Greedy.
Context {A : Type} (cost : A → nat).

Lemma greedy_inv_add (bs : list (list A)) (cur : list A) (u : A) :
  greedy_inv cost bs cur → greedy_inv cost bs (cur ++ [u]).
Proof.
  intros [[-> ->]|[Hne Hg]]; right.
  - split; [done|]. intros [|k] b v rest Hb Hv; simpl in *; done.
  - split; [by destruct cur|].
    intros k b v rest Hb Hv.
    destruct (decide (S k < length bs)) as [Hlt|Hge].
    + rewrite lookup_app_l in Hb by lia. rewrite lookup_app_l in Hv by lia.
      apply (Hg k b v rest); by rewrite lookup_app_l by lia.
    + destruct (decide (S k = length bs)) as [Heq|Hgt].
      * rewrite lookup_app_l in Hb by lia.
        rewrite lookup_app_r, Heq, Nat.sub_diag in Hv by lia.
        simpl in Hv. destruct cur as [|c cur']; [done|].
        injection Hv as <- <-.
        apply (Hg k b c cur').
        -- by rewrite lookup_app_l by lia.
        -- by rewrite lookup_app_r, Heq, Nat.sub_diag by lia.
      * apply lookup_lt_Some in Hv. rewrite length_app in Hv. simpl in Hv. lia.
Qed.

Lemma greedy_inv_close (bs : list (list A)) (cur : list A) (u : A) :
  greedy_inv cost bs cur → cur ≠ [] →
  MAX_TOKENS_PER_REQUEST < sum_list_with cost cur + cost u →
  greedy_inv cost (bs ++ [cur]) [u].
Proof.
  intros [[_ ->]|[_ Hg]] Hne Hfull; [done|]. right. split; [done|].
  intros k b v rest Hb Hv.
  destruct (decide (S k < length (bs ++ [cur]))) as [Hlt|Hge].
  - rewrite lookup_app_l in Hb by lia. rewrite lookup_app_l in Hv by done.
    by apply (Hg k b v rest).
  - destruct (decide (S k = length (bs ++ [cur]))) as [Heq|Hgt].
    + rewrite lookup_app_r, Heq, Nat.sub_diag in Hv by lia.
      simpl in Hv. injection Hv as <- <-.
      rewrite lookup_app_l in Hb by lia.
      rewrite length_app in Heq. simpl in Heq.
      rewrite lookup_app_r in Hb by lia.
      replace (k - length bs) with 0 in Hb by lia. simpl in Hb.
      by injection Hb as <-.
    + apply lookup_lt_Some in Hv. rewrite !length_app in *. simpl in *. lia.
Qed.

Lemma greedy_inv_final (bs : list (list A)) (cur : list A) :
  greedy_inv cost bs cur →
  greedy cost (if bool_decide (cur = []) then bs else bs ++ [cur]).
Proof.
  intros [[-> ->]|[Hne Hg]].
  - simpl. intros k b u rest Hb. done.
  - by rewrite bool_decide_eq_false_2.
Qed.

Lemma sum_list_with_le (g h : A → nat) (l : list A) :
  (∀ x, g x ≤ h x) → sum_list_with g l ≤ sum_list_with h l.
Proof.
  intros Hgh. induction l as [|x l IH]; simpl; [done|].
  specialize (Hgh x). lia.
Qed.

Lemma length_concat_nonempty (bs : list (list A)) :
  Forall (λ b, b ≠ []) bs → length bs ≤ length (concat bs).
Proof.
  induction 1 as [|b bs Hb _ IH]; simpl; [done|].
  rewrite length_app. destruct b; [done|]. simpl. lia.
Qed.

End Greedy.

Lemma docx_step_greedy processed st item :
  pack_inv docx_cost processed (DocxProcessor.batches st)
           (DocxProcessor.current_batch st)
           (DocxProcessor.current_token_count st) →
  greedy_inv docx_cost (DocxProcessor.batches st)
             (DocxProcessor.current_batch st) →
  let st' := DocxProcessor.create_batches_step st item in
  greedy_inv docx_cost (DocxProcessor.batches st')
             (DocxProcessor.current_batch st').
Proof.
  intros Hinv Hg. destruct item as [index text].
  pose proof (inv_total _ _ _ _ _ Hinv) as Htok.
  unfold DocxProcessor.create_batches_step.
  change (DocxProcessor.estimate_tokens text) with (docx_cost (index, text)).
  destruct (MAX_TOKENS_PER_REQUEST <? _) eqn:Hlt; simpl andb.
  - case_bool_decide as Hcur; simpl negb; cbv iota; simpl.
    + by apply greedy_inv_add.
    + apply greedy_inv_close; [done..|].
      apply Nat.ltb_lt in Hlt. by rewrite <- Htok.
  - simpl. by apply greedy_inv_add.
Qed.

Lemma docx_loop_greedy items processed st :
  pack_inv docx_cost processed (DocxProcessor.batches st)
           (DocxProcessor.current_batch st)
           (DocxProcessor.current_token_count st) →
  greedy_inv docx_cost (DocxProcessor.batches st)
             (DocxProcessor.current_batch st) →
  let st' := foldl DocxProcessor.create_batches_step st items in
  greedy_inv docx_cost (DocxProcessor.batches st')
             (DocxProcessor.current_batch st').
Proof.
  revert processed st.
  induction items as [|item items IH]; intros processed st Hinv Hg; [done|].
  simpl. apply (IH (processed ++ [item])).
  - by apply docx_step_inv.
  - by apply (docx_step_greedy processed).
Qed.

Lemma excel_step_greedy processed st text :
  pack_inv ExcelProcessor.batch_cost processed (ExcelProcessor.batches st)
           (ExcelProcessor.current_batch st)
           (ExcelProcessor.current_tokens st) →
  greedy_inv ExcelProcessor.batch_cost (ExcelProcessor.batches st)
             (ExcelProcessor.current_batch st) →
  let st' := ExcelProcessor.create_batches_step st text in
  greedy_inv ExcelProcessor.batch_cost (ExcelProcessor.batches st')
             (ExcelProcessor.current_batch st').
Proof.
  intros Hinv Hg.
  pose proof (inv_total _ _ _ _ _ Hinv) as Htok.
  unfold ExcelProcessor.create_batches_step.
  change (ExcelProcessor.estimate_tokens (text +:+ TRANSLATION_DELIMITER))
    with (ExcelProcessor.batch_cost text).
  destruct (MAX_TOKENS_PER_REQUEST <? _) eqn:Hlt; simpl.
  - case_bool_decide as Hcur.
    + rewrite Hcur in Hg.
      by apply (greedy_inv_add ExcelProcessor.batch_cost _ [] text).
    + apply greedy_inv_close; [done..|].
      apply Nat.ltb_lt in Hlt. by rewrite <- Htok.
  - by apply greedy_inv_add.
Qed.

Lemma excel_loop_greedy texts processed st :
  pack_inv ExcelProcessor.batch_cost processed (ExcelProcessor.batches st)
           (ExcelProcessor.current_batch st)
           (ExcelProcessor.current_tokens st) →
  greedy_inv ExcelProcessor.batch_cost (ExcelProcessor.batches st)
             (ExcelProcessor.current_batch st) →
  let st' := foldl ExcelProcessor.create_batches_step st texts in
  greedy_inv ExcelProcessor.batch_cost (ExcelProcessor.batches st')
             (ExcelProcessor.current_batch st').
Proof.
  revert processed st.
  induction texts as [|text texts IH]; intros processed st Hinv Hg; [done|].
  simpl. apply (IH (processed ++ [text])).
  - by apply excel_step_inv.
  - by apply (excel_step_greedy processed).
Qed.

(** X9: both packers are greedy.  A batch is closed only when the next
    unit does not fit: for every two batches that follow each other, the
    cost of the first together with the cost of the first unit of the
    second exceeds [MAX_TOKENS_PER_REQUEST]. *)
Theorem create_batches_greedy (items : list (nat * string))
    (texts : list string) :
  greedy docx_cost (DocxProcessor.create_batches items)
  ∧ greedy ExcelProcessor.batch_cost (ExcelProcessor.create_batches texts).
Proof.
  split.
  - unfold DocxProcessor.create_batches. apply greedy_inv_final.
    apply (docx_loop_greedy items [] (DocxProcessor.Packer [] [] 0)).
    + apply pack_inv_init.
    + by left.
  - unfold ExcelProcessor.create_batches. apply greedy_inv_final.
    apply (excel_loop_greedy texts [] (ExcelProcessor.Packer [] [] 0)).
    + apply pack_inv_init.
    + by left.
Qed.

Lemma docx_cost_chars (item : nat * string) :
  String.length item.2 ≤ 4 * docx_cost item.
Proof.
  unfold docx_cost, DocxProcessor.estimate_tokens.
  change CHARS_PER_TOKEN with 4. change (0 <? 4) with true. cbv iota.
  rewrite math_ceil_div_4.
  generalize (String.length item.2). intros n.
  pose proof (Nat.div_mod (n + 3) 4 ltac:(lia)) as H1.
  pose proof (Nat.mod_upper_bound (n + 3) 4 ltac:(lia)) as H2.
  lia.
Qed.

Lemma excel_cost_chars (text : string) :
  String.length text + 1 ≤ 4 * ExcelProcessor.batch_cost text.
Proof.
  unfold ExcelProcessor.batch_cost, ExcelProcessor.estimate_tokens.
  rewrite length_append.
  change (String.length TRANSLATION_DELIMITER) with (1 * 4).
  change CHARS_PER_TOKEN with 4. rewrite Nat.div_add by lia.
  generalize (String.length text). intros n.
  pose proof (Nat.div_mod n 4 ltac:(lia)) as H1.
  pose proof (Nat.mod_upper_bound n 4 ltac:(lia)) as H2.
  lia.
Qed.

Lemma sum_list_with_plus_one {A} (g : A → nat) (l : list A) :
  sum_list_with (λ x, g x + 1) l = sum_list_with g l + length l.
Proof. induction l as [|x l IH]; simpl; [done | lia]. Qed.

Lemma sum_list_with_times {A} (g : A → nat) (l : list A) :
  sum_list_with (λ x, 4 * g x) l = 4 * sum_list_with g l.
Proof.
  induction l as [|x l IH]; [done|].
  change (4 * g x + sum_list_with (λ x, 4 * g x) l
          = 4 * (g x + sum_list_with g l)).
  lia.
Qed.

(** X10: a batch of two units or more is small.  In a batch of the
    word-processor packer the texts have at most 1600 characters in all;
    in a batch of the spreadsheet packer the characters of the texts and
    the number of texts together are at most 1600. *)
Theorem create_batches_bounds_characters (items : list (nat * string))
    (texts : list string) :
  (∀ b, b ∈ DocxProcessor.create_batches items → 2 ≤ length b →
        sum_list_with (λ item, String.length item.2) b
        ≤ CHARS_PER_TOKEN * MAX_TOKENS_PER_REQUEST)
  ∧ (∀ b, b ∈ ExcelProcessor.create_batches texts → 2 ≤ length b →
          sum_list_with String.length b + length b
          ≤ CHARS_PER_TOKEN * MAX_TOKENS_PER_REQUEST).
Proof.
  split.
  - intros b Hb Hlen.
    destruct (docx_create_batches_packed items) as (_ & _ & _ & Hok & _).
    rewrite Forall_forall in Hok. specialize (Hok b Hb Hlen).
    pose proof (sum_list_with_le (λ item, String.length item.2)
                  (λ item, 4 * docx_cost item) b docx_cost_chars) as Hle.
    rewrite sum_list_with_times in Hle.
    change CHARS_PER_TOKEN with 4. lia.
  - intros b Hb Hlen.
    destruct (excel_create_batches_packed texts) as (_ & _ & _ & Hok & _).
    rewrite Forall_forall in Hok. specialize (Hok b Hb Hlen).
    pose proof (sum_list_with_le (λ t, String.length t + 1)
                  (λ t, 4 * ExcelProcessor.batch_cost t) b excel_cost_chars)
      as Hle.
    rewrite sum_list_with_times, sum_list_with_plus_one in Hle.
    change CHARS_PER_TOKEN with 4. lia.
Qed.

(** Three short texts end in one batch of the spreadsheet packer. *)
Lemma create_batches_bounds_characters_witness :
  let b := ["one"; "two"; "three"] in
  sum_list_with String.length b + length b
  ≤ CHARS_PER_TOKEN * MAX_TOKENS_PER_REQUEST.
Proof.
  intros b.
  apply (proj2 (create_batches_bounds_characters [] ["one"; "two"; "three"])).
  - vm_compute. apply list_elem_of_In. by left.
  - simpl. lia.
Defined.

(** X11: there are never more batches than units, and no batch for an
    empty input. *)
Theorem create_batches_count (items : list (nat * string))
    (texts : list string) :
  length (DocxProcessor.create_batches items) ≤ length items
  ∧ length (ExcelProcessor.create_batches texts) ≤ length texts
  ∧ DocxProcessor.create_batches [] = []
  ∧ ExcelProcessor.create_batches [] = [].
Proof.
  split; [|split; [|done]].
  - destruct (docx_create_batches_packed items) as (Hc & _ & Hne & _).
    rewrite <- Hc at 2. by apply length_concat_nonempty.
  - destruct (excel_create_batches_packed texts) as (Hc & _ & Hne & _).
    rewrite <- Hc at 2. by apply length_concat_nonempty.
Qed.

(** ** Paragraphs of a word-processor document *)

Section Assigns.
Context {A : Type}.
Implicit Types (pairs : list (nat * A)) (l : list A).

Lemma assigns_cons w pairs l :
  assigns (w :: pairs) l = assigns pairs (<[w.1 := w.2]> l).
Proof. reflexivity. Qed.


Lemma length_assigns pairs l : length (assigns pairs l) = length l.
Proof.
  revert l. induction pairs as [|w pairs IH]; intros l; [done|].
  by rewrite assigns_cons, IH, length_insert.
Qed.

Lemma assigns_notin pairs l i :
  i ∉ pairs.*1 → assigns pairs l !! i = l !! i.
Proof.
  revert l. induction pairs as [|[j x] pairs IH]; intros l Hi; [done|].
  rewrite fmap_cons, not_elem_of_cons in Hi. destruct Hi as [Hne Hi].
  rewrite assigns_cons, IH by done. simpl in *.
  by rewrite list_lookup_insert_ne.
Qed.

Lemma assigns_in pairs l i x :
  NoDup pairs.*1 → (i, x) ∈ pairs → i < length l →
  assigns pairs l !! i = Some x.
Proof.
  revert l. induction pairs as [|[j y] pairs IH]; intros l Hnd Hin Hlt.
  - by apply elem_of_nil in Hin.
  - rewrite fmap_cons in Hnd. apply NoDup_cons in Hnd as [Hj Hnd].
    rewrite assigns_cons. simpl in *.
    apply elem_of_cons in Hin as [[= -> ->]|Hin].
    + rewrite assigns_notin by done. by rewrite list_lookup_insert_eq.
    + apply IH; [done..|]. by rewrite length_insert.
Qed.


End Assigns.

Lemma fst_fmap_pairing {A B C} (g : A * B → C) (l : list (A * B)) :
  ((λ item, (item.1, g item)) <$> l).*1 = l.*1.
Proof. induction l as [|x l IH]; [done|]. simpl. by f_equal. Qed.

Lemma length_in_concat {A} (b : list A) (bs : list (list A)) :
  b ∈ bs → length b ≤ length (concat bs).
Proof.
  induction bs as [|c bs IH]; intros Hin.
  - by apply elem_of_nil in Hin.
  - simpl. rewrite length_app.
    apply elem_of_cons in Hin as [->|Hin]; [lia|].
    specialize (IH Hin). lia.
Qed.





Section Paragraphs.
Context {Service : Type}.
Variable gen : Service → list string → string → response * Service.





Variable f : string → string.

Lemma zip_fst_translated (batch : list (nat * string)) :
  zip batch.*1 ((λ t, Some (f (_preprocess_text t))) <$> batch.*2)
  = (λ item, (item.1, Some (f (_preprocess_text item.2)))) <$> batch.
Proof. induction batch as [|[i t] batch IH]; [done|]. simpl. by f_equal. Qed.



End Paragraphs.



(** ** The cells of a sheet *)








Lemma zip_app_r {A B} (l : list A) (k1 k2 : list B) :
  zip l (k1 ++ k2) = zip l k1 ++ zip (drop (length k1) l) k2.
Proof.
  revert l. induction k1 as [|y k1 IH]; intros l.
  - simpl. destruct l; by rewrite ?drop_0.
  - destruct l as [|x l]; simpl.
    + by destruct k2.
    + by rewrite IH.
Qed.

Section Cells.
Context {Service Sheet : Type}.
Variable gen : Service → list string → string → response * Service.
Variable set_value : Sheet → nat * nat → option string → Sheet.

Lemma written_app writes1 writes2 (sheet : Sheet) :
  ExcelSheet.written set_value (writes1 ++ writes2) sheet
  = ExcelSheet.written set_value writes2
      (ExcelSheet.written set_value writes1 sheet).
Proof. unfold ExcelSheet.written. by rewrite foldl_app. Qed.

(** The guarded assignments of one batch are the pairing of the positions
    from the offset on with the translations. *)
Lemma write_translations_spec (sheet : Sheet) cell_positions cells_processed
    j translations :
  ExcelSheet.write_translations set_value sheet cell_positions
    cells_processed j translations
  = ExcelSheet.written set_value
      (zip (drop (cells_processed + j) cell_positions) translations) sheet.
Proof.
  revert sheet j.
  induction translations as [|tr translations IH]; intros sheet j.
  - simpl. by destruct (drop _ _).
  - simpl ExcelSheet.write_translations. rewrite IH.
    destruct (cell_positions !! (cells_processed + j)) as [[r c]|] eqn:Hpos.
    + pose proof (lookup_lt_Some _ _ _ Hpos) as Hlt.
      apply Nat.ltb_lt in Hlt. rewrite Hlt.
      rewrite (drop_S _ _ _ Hpos). simpl.
      by replace (S (cells_processed + j)) with (cells_processed + S j) by lia.
    + pose proof Hpos as Hge. apply lookup_ge_None in Hge.
      rewrite !drop_ge by lia.
      by destruct (_ <? _).
Qed.



Variable f : string → string.

Lemma process_batches_translates fuel batches lang cell_positions
    (sheet : Sheet) cells_processed (s : state Service) :
  answers_or_miscounts f gen →
  cache_agrees f lang (translation_cache s) →
  Forall (λ b : list string, length b < fuel) batches →
  ∃ s',
    ExcelSheet.process_batches gen set_value fuel batches lang cell_positions
      sheet cells_processed s
    = Ret (cells_processed + length (concat batches),
           ExcelSheet.written set_value
             (zip (drop cells_processed cell_positions)
                  ((λ t, Some (f (_preprocess_text t))) <$> concat batches))
             sheet) s'
    ∧ cache_agrees f lang (translation_cache s').
Proof.
  intros Hgen. revert sheet cells_processed s.
  induction batches as [|batch batches IH]; intros sheet k s Hc Hf.
  - exists s. split; [|done]. simpl. mrun.
    rewrite Nat.add_0_r. by destruct (drop _ _).
  - apply Forall_cons in Hf as [Hfb Hf].
    simpl ExcelSheet.process_batches. mrun.
    destruct (translate_batch_translates gen f fuel batch lang s Hgen Hc Hfb)
      as (s1 & -> & Hc1 & _).
    destruct (IH (ExcelSheet.write_translations set_value sheet cell_positions
                    k 0 ((λ t, Some (f (_preprocess_text t))) <$> batch))
                 (k + length batch) s1 Hc1 Hf) as (s' & -> & Hc').
    exists s'. split; [|done].
    simpl concat. rewrite length_app, fmap_app, zip_app_r, written_app.
    rewrite write_translations_spec, Nat.add_0_r, drop_drop, length_fmap.
    by rewrite Nat.add_assoc.
Qed.

(** X16: against a translating service, [_process_cell_batches] assigns
    to the k-th position the translation of the normalized k-th text, for
    every k below both lengths, in order, and returns the number of
    texts. *)
Theorem process_cell_batches_translates (fuel : nat) (sheet : Sheet)
    (cells_to_process : list string) (cell_positions : list (nat * nat))
    (lang : string) (s : state Service) :
  answers_or_miscounts f gen →
  cache_agrees f lang (translation_cache s) →
  length cells_to_process < fuel →
  ∃ s',
    ExcelSheet._process_cell_batches gen set_value fuel sheet
      cells_to_process cell_positions lang s
    = Ret (length cells_to_process,
           ExcelSheet.written set_value
             (zip cell_positions
                  ((λ t, Some (f (_preprocess_text t))) <$> cells_to_process))
             sheet) s'
    ∧ cache_agrees f lang (translation_cache s').
Proof.
  intros Hgen Hc Hfuel. unfold ExcelSheet._process_cell_batches.
  destruct (excel_create_batches_packed cells_to_process) as (Hconcat & _).
  destruct (process_batches_translates fuel
              (ExcelProcessor.create_batches cells_to_process) lang
              cell_positions sheet 0 s Hgen Hc) as (s' & -> & Hc').
  - apply Forall_forall. intros b Hb.
    apply length_in_concat in Hb. rewrite Hconcat in Hb. lia.
  - exists s'. split; [|done]. by rewrite Hconcat, drop_0.
Qed.

End Cells.


Lemma process_cell_batches_translates_witness :
  ∃ s',
    ExcelSheet._process_cell_batches singles_only ExcelSheet.set_cell 3 ∅
      ["Name"; " hi"] [(1, 1); (2, 3)] "French" (fresh ())
    = Ret (2, <[(2, 3) := Some "T:hi"]> (<[(1, 1) := Some "T:Name"]> ∅)) s'
    ∧ cache_agrees tag "French" (translation_cache s').
Proof.
  apply (process_cell_batches_translates singles_only ExcelSheet.set_cell tag
           3 ∅ ["Name"; " hi"] [(1, 1); (2, 3)] "French" (fresh ())
           singles_only_answers (cache_agrees_empty tag "French")).
  simpl. lia.
Defined.

(** ** The shapes of a slide *)

Section Shapes.
Context {T : Type}.
Implicit Types (sh : PowerPoint.shape T) (ts runs : list T) (i : nat).

Lemma shape_induction (P : PowerPoint.shape T → Prop) :
  (∀ paragraphs, P (PowerPoint.TextFrame paragraphs)) →
  (∀ shapes, Forall P shapes → P (PowerPoint.GroupShape shapes)) →
  (∀ cells, P (PowerPoint.TableShape cells)) →
  P PowerPoint.OtherShape →
  ∀ sh, P sh.
Proof.
  intros Ht Hg Hc Ho. fix IH 1. intros [paragraphs|shapes|cells|].
  - apply Ht.
  - apply Hg. induction shapes as [|s shapes IHs]; constructor;
      [apply IH | exact IHs].
  - apply Hc.
  - apply Ho.
Qed.

Lemma replace_group shapes ts i :
  PowerPoint._replace_text_in_shape (PowerPoint.GroupShape shapes) ts i
  = (PowerPoint.GroupShape (PowerPoint.replace_shapes shapes ts i).1,
     (PowerPoint.replace_shapes shapes ts i).2).
Proof.
  cbn [PowerPoint._replace_text_in_shape].
  match goal with
  | |- (let '(_, _) := ?inner shapes i in _) = _ =>
      assert (Heq : ∀ l j, inner l j = PowerPoint.replace_shapes l ts j)
  end.
  { induction l as [|s l IHl]; intros j; [done|].
    cbn [PowerPoint.replace_shapes].
    destruct (PowerPoint._replace_text_in_shape s ts j) as [s' j'].
    by rewrite IHl. }
  rewrite Heq. by destruct (PowerPoint.replace_shapes shapes ts i).
Qed.

Lemma replace_shapes_cons s shapes ts i :
  PowerPoint.replace_shapes (s :: shapes) ts i
  = ((PowerPoint._replace_text_in_shape s ts i).1
       :: (PowerPoint.replace_shapes shapes ts
             (PowerPoint._replace_text_in_shape s ts i).2).1,
     (PowerPoint.replace_shapes shapes ts
        (PowerPoint._replace_text_in_shape s ts i).2).2).
Proof.
  cbn [PowerPoint.replace_shapes].
  destruct (PowerPoint._replace_text_in_shape s ts i) as [s' j]. simpl.
  by destruct (PowerPoint.replace_shapes shapes ts j).
Qed.

Lemma replace_runs_app runs1 runs2 ts i :
  PowerPoint.replace_runs (runs1 ++ runs2) ts i
  = ((PowerPoint.replace_runs runs1 ts i).1
       ++ (PowerPoint.replace_runs runs2 ts
             (PowerPoint.replace_runs runs1 ts i).2).1,
     (PowerPoint.replace_runs runs2 ts
        (PowerPoint.replace_runs runs1 ts i).2).2).
Proof.
  revert i. induction runs1 as [|r runs1 IH]; intros i.
  - simpl. by destruct (PowerPoint.replace_runs runs2 ts i).
  - simpl. destruct (ts !! i) as [x|].
    + rewrite IH.
      by destruct (PowerPoint.replace_runs runs1 ts (i + 1)).
    + rewrite IH. by destruct (PowerPoint.replace_runs runs1 ts i).
Qed.

(** The walk over the paragraphs is the walk over their runs laid end
    to end. *)
Lemma replace_paragraphs_concat (paragraphs : list (list T)) ts i :
  concat (PowerPoint.replace_paragraphs paragraphs ts i).1
  = (PowerPoint.replace_runs (concat paragraphs) ts i).1
  ∧ (PowerPoint.replace_paragraphs paragraphs ts i).2
    = (PowerPoint.replace_runs (concat paragraphs) ts i).2
  ∧ length <$> (PowerPoint.replace_paragraphs paragraphs ts i).1
    = length <$> paragraphs.
Proof.
  revert i. induction paragraphs as [|p paragraphs IH]; intros i; [done|].
  simpl concat. rewrite replace_runs_app.
  cbn [PowerPoint.replace_paragraphs].
  assert (Hlen : length (PowerPoint.replace_runs p ts i).1 = length p).
  { clear. revert i. induction p as [|r p IHp]; intros i; [done|].
    simpl. destruct (ts !! i).
    - specialize (IHp (i + 1)).
      destruct (PowerPoint.replace_runs p ts (i + 1)). simpl in *. lia.
    - specialize (IHp i).
      destruct (PowerPoint.replace_runs p ts i). simpl in *. lia. }
  destruct (PowerPoint.replace_runs p ts i) as [p' j]. cbn [fst snd] in *.
  destruct (IH j) as (H1 & H2 & H3).
  destruct (PowerPoint.replace_paragraphs paragraphs ts j) as [ps' k].
  cbn [fst snd] in *. rewrite !fmap_cons. cbn [concat].
  by rewrite H1, H2, H3, Hlen.
Qed.

(** What the walk does to the runs, in closed form. *)
Lemma replace_runs_closed runs ts i :
  PowerPoint.replace_runs runs ts i
  = (take (length runs) (drop i ts) ++ drop (length ts - i) runs,
     i + length runs `min` (length ts - i)).
Proof.
  revert i. induction runs as [|r runs IH]; intros i.
  - cbn [PowerPoint.replace_runs length]. rewrite drop_nil.
    cbn [take app]. f_equal. lia.
  - simpl PowerPoint.replace_runs.
    destruct (ts !! i) as [x|] eqn:Hx.
    + rewrite IH. pose proof (lookup_lt_Some _ _ _ Hx) as Hlt.
      rewrite (drop_S _ _ _ Hx). simpl.
      replace (length ts - i) with (S (length ts - (i + 1))) by lia.
      simpl. replace (i + 1) with (S i) by lia.
      f_equal. lia.
    + rewrite IH. apply lookup_ge_None in Hx.
      rewrite drop_ge by lia.
      replace (length ts - i) with 0 by lia.
      rewrite take_nil, drop_0. simpl. f_equal. lia.
Qed.

Lemma replace_shape_runs sh :
  ∀ ts i,
    PowerPoint.shape_runs (PowerPoint._replace_text_in_shape sh ts i).1
    = (PowerPoint.replace_runs (PowerPoint.shape_runs sh) ts i).1
    ∧ (PowerPoint._replace_text_in_shape sh ts i).2
      = (PowerPoint.replace_runs (PowerPoint.shape_runs sh) ts i).2
    ∧ PowerPoint.shape_map (λ _, None) Some
        (PowerPoint._replace_text_in_shape sh ts i).1
      = PowerPoint.shape_map (λ _, None) Some sh.
Proof.
  induction sh as [paragraphs|shapes IH|cells|] using shape_induction;
    intros ts i; try done.
  - cbn [PowerPoint._replace_text_in_shape PowerPoint.shape_runs].
    destruct (replace_paragraphs_concat paragraphs ts i) as (H1 & H2 & H3).
    destruct (PowerPoint.replace_paragraphs paragraphs ts i) as [ps' j].
    simpl in *. split; [done|]. split; [done|]. f_equal.
    clear -H3. revert ps' H3.
    induction paragraphs as [|p paragraphs IHp]; intros [|p' ps'] H3;
      try done.
    simpl in H3. injection H3 as Hp Hps. simpl. f_equal; [|by apply IHp].
    clear -Hp. revert p' Hp.
    induction p as [|r p IHr]; intros [|r' p'] Hp; try done.
    simpl in *. f_equal. apply IHr. lia.
  - rewrite replace_group. cbn [fst snd PowerPoint.shape_runs
                                 PowerPoint.shape_map].
    revert i. induction IH as [|s shapes Hs _ IHl]; intros i; [done|].
    rewrite replace_shapes_cons. cbn [fst snd map concat].
    rewrite replace_runs_app. cbn [fst snd].
    destruct (Hs ts i) as (H1 & H2 & H3).
    destruct (IHl (PowerPoint._replace_text_in_shape s ts i).2)
      as (G1 & G2 & G3).
    rewrite H1, H3, <- H2, G1, G2.
    split; [done|]. split; [done|]. f_equal. f_equal.
    by injection G3.
Qed.

Lemma replace_shapes_runs (slide : list (PowerPoint.shape T)) ts i :
  PowerPoint.slide_runs (PowerPoint.replace_shapes slide ts i).1
  = (PowerPoint.replace_runs (PowerPoint.slide_runs slide) ts i).1
  ∧ (PowerPoint.replace_shapes slide ts i).2
    = (PowerPoint.replace_runs (PowerPoint.slide_runs slide) ts i).2
  ∧ map (PowerPoint.shape_map (λ _, None) Some)
        (PowerPoint.replace_shapes slide ts i).1
    = map (PowerPoint.shape_map (λ _, None) Some) slide.
Proof.
  unfold PowerPoint.slide_runs.
  revert i. induction slide as [|s slide IH]; intros i; [done|].
  rewrite replace_shapes_cons. cbn [fst snd map concat].
  rewrite replace_runs_app. cbn [fst snd].
  destruct (replace_shape_runs s ts i) as (H1 & H2 & H3).
  destruct (IH (PowerPoint._replace_text_in_shape s ts i).2)
    as (G1 & G2 & G3).
  by rewrite H1, H3, <- H2, G1, G2, G3.
Qed.

(** X17: [_replace_text_in_slide] walks the runs in the order in which
    [_collect_texts_from_slide] collects them: afterwards the runs of the
    slide read the translated texts, as many as there are runs, followed by
    the old texts of the runs for which no translation was left; the shapes,
    the number of runs of every paragraph and the table cells are as
    before.  So with as many translated texts as runs, the runs read
    exactly the translated texts. *)
Theorem replace_text_in_slide_spec (slide : list (PowerPoint.shape T))
    (translated_texts : list T) :
  let out := PowerPoint._replace_text_in_slide slide translated_texts in
  PowerPoint.slide_runs out
  = take (length (PowerPoint.slide_runs slide)) translated_texts
    ++ drop (length translated_texts) (PowerPoint.slide_runs slide)
  ∧ map (PowerPoint.shape_map (λ _, None) Some) out
    = map (PowerPoint.shape_map (λ _, None) Some) slide.
Proof.
  intros out. unfold out, PowerPoint._replace_text_in_slide.
  destruct (replace_shapes_runs slide translated_texts 0) as (H1 & _ & H3).
  rewrite replace_runs_closed in H1. simpl in H1.
  rewrite drop_0, Nat.sub_0_r in H1.
  split; [exact H1 | exact H3].
Qed.

End Shapes.

(** ** Slides against a translating service *)

Lemma NoDup_fst_filter_enumerate {A} (P : nat * A → Prop)
    `{∀ x, Decision (P x)} (l : list A) :
  NoDup (filter P (enumerate l)).*1.
Proof.
  apply (sublist_NoDup _ (enumerate l).*1).
  - unfold enumerate. rewrite fmap_imap.
    rewrite (imap_ext _ (λ j _, j)) by done.
    rewrite imap_seq_0, list_fmap_id. apply NoDup_seq.
  - apply fmap_sublist, sublist_filter.
Qed.

Lemma table_step_filter (cells : list string) :
  foldl PowerPoint.table_step ([], []) (enumerate cells)
  = ((filter (λ item, item.2 ≠ "") (enumerate cells)).*1,
     (filter (λ item, item.2 ≠ "") (enumerate cells)).*2).
Proof.
  unfold enumerate.
  induction cells as [|text cells IH] using rev_ind; [done|].
  rewrite imap_app, foldl_app, filter_app, !fmap_app, IH.
  cbn [imap foldl PowerPoint.table_step].
  destruct (String.eqb text "") eqn:He; cbn [negb].
  - apply String.eqb_eq in He. subst text.
    rewrite filter_cons_False by (simpl; tauto).
    by rewrite filter_nil, !fmap_nil, !app_nil_r.
  - apply String.eqb_neq in He.
    rewrite filter_cons_True by done. by rewrite filter_nil.
Qed.

Lemma elem_of_filter_enumerate (cells : list string) i t :
  (i, t) ∈ filter (λ item : nat * string, item.2 ≠ "") (enumerate cells)
  ↔ cells !! i = Some t ∧ t ≠ "".
Proof.
  unfold enumerate. rewrite list_elem_of_filter, elem_of_lookup_imap.
  simpl. split.
  - by intros [Hne (j & y & [= -> ->] & Hy)].
  - intros [Ht Hne]. split; [done|]. by exists i, t.
Qed.

Section Slides.
Context {Service : Type}.
Variable gen : Service → list string → string → response * Service.
Variable f : string → string.
Variable fuel : nat.
Variable lang : string.
Hypothesis Hgen : answers_or_miscounts f gen.

Lemma assign_cells_spec (cells : list (option string)) table_cells
    (translated_texts : list (option string)) k (s : state Service) :
  k + length translated_texts ≤ length table_cells →
  PowerPoint.assign_cells cells table_cells
    (imap (λ i x, (k + i, x)) translated_texts) s
  = Ret (assigns (zip (drop k table_cells) translated_texts) cells) s.
Proof.
  revert cells k.
  induction translated_texts as [|x translated_texts IH]; intros cells k Hk.
  - simpl. by destruct (drop _ _).
  - simpl in Hk. cbn [imap PowerPoint.assign_cells]. unfold py_index. mrun.
    rewrite Nat.add_0_r.
    destruct (lookup_lt_is_Some_2 table_cells k ltac:(lia)) as [c Hc].
    rewrite Hc. mrun. rewrite (drop_S _ _ _ Hc). cbn [zip zip_with].
    rewrite assigns_cons. cbn [fst snd].
    rewrite (imap_ext _ (λ i x, (S k + i, x))); [apply IH; lia|].
    intros i y _. simpl. f_equal. lia.
Qed.

Lemma translate_table_translates (cells : list string) (s : state Service) :
  cache_agrees f lang (translation_cache s) →
  length cells < fuel →
  ∃ s',
    PowerPoint._translate_table gen fuel cells lang s
    = Ret (PowerPoint.translated_cell f <$> cells) s'
    ∧ cache_agrees f lang (translation_cache s').
Proof.
  intros Hc Hfuel. unfold PowerPoint._translate_table.
  rewrite table_step_filter.
  set (sel := filter (λ item : nat * string, item.2 ≠ "") (enumerate cells)).
  assert (Hsel : length sel ≤ length cells).
  { unfold sel, enumerate. etrans; [apply length_filter|].
    by rewrite length_imap. }
  mrun.
  destruct (translate_batch_translates gen f fuel sel.*2 lang s Hgen Hc)
    as (s1 & -> & Hc1 & _); [rewrite length_fmap; lia|].
  change (enumerate ((λ t, Some (f (_preprocess_text t))) <$> sel.*2))
    with (imap (λ i (x : option string), (0 + i, x))
               ((λ t, Some (f (_preprocess_text t))) <$> sel.*2)).
  rewrite assign_cells_spec by (by rewrite !length_fmap).
  exists s1. split; [|done]. f_equal. rewrite drop_0.
  rewrite (zip_fst_translated f).
  apply list_eq. intros i. rewrite list_lookup_fmap.
  destruct (cells !! i) as [t|] eqn:Ht; simpl.
  - assert (Hi : i < length (Some <$> cells)).
    { rewrite length_fmap. by eapply lookup_lt_Some. }
    unfold PowerPoint.translated_cell.
    destruct (String.eqb t "") eqn:He.
    + apply String.eqb_eq in He. subst t.
      rewrite assigns_notin; [by rewrite list_lookup_fmap, Ht|].
      rewrite (fst_fmap_pairing (λ item, Some (f (_preprocess_text item.2)))).
      intros Hin. apply list_elem_of_fmap in Hin as ([j t] & -> & Hin).
      apply elem_of_filter_enumerate in Hin as [Hj Hne].
      simpl in *. congruence.
    + apply String.eqb_neq in He. apply assigns_in; [| |done].
      * rewrite (fst_fmap_pairing
                   (λ item, Some (f (_preprocess_text item.2)))).
        apply NoDup_fst_filter_enumerate.
      * apply list_elem_of_fmap. exists (i, t). split; [done|].
        by apply elem_of_filter_enumerate.
  - apply lookup_ge_None. rewrite length_assigns, length_fmap.
    by apply lookup_ge_None.
Qed.

Lemma extract_group shapes (s : state Service) :
  PowerPoint._extract_text_from_shape gen fuel (PowerPoint.GroupShape shapes)
    lang s
  = ('(texts, shapes) ← PowerPoint._collect_texts_from_slide gen fuel shapes
                          lang;
     mret (texts, PowerPoint.GroupShape shapes)) s.
Proof.
  cbn [PowerPoint._extract_text_from_shape]. mrun.
  match goal with
  | |- match ?inner shapes s with _ => _ end = _ =>
      assert (Heq : ∀ l s0, inner l s0
                = PowerPoint._collect_texts_from_slide gen fuel l lang s0)
  end.
  { induction l as [|sh l IHl]; intros s0; [done|].
    cbn [PowerPoint._collect_texts_from_slide]. mrun.
    destruct (PowerPoint._extract_text_from_shape gen fuel sh lang s0)
      as [[texts sh'] s1|e s1|]; [|done..].
    by rewrite IHl. }
  by rewrite Heq.
Qed.

(** Collecting the texts of a list of shapes, given the statement for
    each of them. *)
Lemma collect_translates_from (shapes : list (PowerPoint.shape string)) :
  Forall (λ sh, ∀ s : state Service,
            cache_agrees f lang (translation_cache s) →
            length (PowerPoint.shape_cells sh) < fuel →
            ∃ s',
              PowerPoint._extract_text_from_shape gen fuel sh lang s
              = Ret (PowerPoint.shape_runs sh,
                     PowerPoint.shape_map Some (PowerPoint.translated_cell f)
                                          sh) s'
              ∧ cache_agrees f lang (translation_cache s')) shapes →
  ∀ s : state Service,
    cache_agrees f lang (translation_cache s) →
    length (PowerPoint.slide_cells shapes) < fuel →
    ∃ s',
      PowerPoint._collect_texts_from_slide gen fuel shapes lang s
      = Ret (PowerPoint.slide_runs shapes,
             map (PowerPoint.shape_map Some (PowerPoint.translated_cell f))
                 shapes) s'
      ∧ cache_agrees f lang (translation_cache s').
Proof.
  unfold PowerPoint.slide_runs, PowerPoint.slide_cells.
  induction 1 as [|sh shapes Hsh _ IH]; intros s Hc Hfuel.
  - by exists s.
  - cbn [map concat] in Hfuel. rewrite length_app in Hfuel.
    cbn [PowerPoint._collect_texts_from_slide]. mrun.
    destruct (Hsh s Hc) as (s1 & -> & Hc1); [lia|].
    destruct (IH s1 Hc1) as (s2 & -> & Hc2); [lia|].
    by exists s2.
Qed.

Lemma extract_translates (sh : PowerPoint.shape string) :
  ∀ s : state Service,
    cache_agrees f lang (translation_cache s) →
    length (PowerPoint.shape_cells sh) < fuel →
    ∃ s',
      PowerPoint._extract_text_from_shape gen fuel sh lang s
      = Ret (PowerPoint.shape_runs sh,
             PowerPoint.shape_map Some (PowerPoint.translated_cell f) sh) s'
      ∧ cache_agrees f lang (translation_cache s').
Proof.
  induction sh as [paragraphs|shapes IH|cells|] using shape_induction;
    intros s Hc Hfuel.
  - by exists s.
  - rewrite extract_group. mrun.
    destruct (collect_translates_from shapes IH s Hc Hfuel)
      as (s' & -> & Hc').
    by exists s'.
  - cbn [PowerPoint._extract_text_from_shape]. mrun.
    destruct (translate_table_translates cells s Hc Hfuel)
      as (s' & -> & Hc').
    by exists s'.
  - by exists s.
Qed.

Lemma collect_translates (slide : list (PowerPoint.shape string))
    (s : state Service) :
  cache_agrees f lang (translation_cache s) →
  length (PowerPoint.slide_cells slide) < fuel →
  ∃ s',
    PowerPoint._collect_texts_from_slide gen fuel slide lang s
    = Ret (PowerPoint.slide_runs slide,
           map (PowerPoint.shape_map Some (PowerPoint.translated_cell f))
               slide) s'
    ∧ cache_agrees f lang (translation_cache s').
Proof.
  apply collect_translates_from, Forall_forall.
  intros sh _. apply extract_translates.
Qed.

End Slides.

Section Mapped.
Context {A B : Type}.
Variables (a g h : A → B).
Implicit Types (ts : list B) (i : nat).

Lemma replace_runs_mapped (runs : list A) ts i :
  (∀ j x, runs !! j = Some x → ts !! (i + j) = Some (g x)) →
  PowerPoint.replace_runs (map a runs) ts i = (map g runs, i + length runs).
Proof.
  revert i. induction runs as [|r runs IH]; intros i Hal.
  - simpl. f_equal. lia.
  - cbn [map PowerPoint.replace_runs].
    pose proof (Hal 0 r eq_refl) as H0. rewrite Nat.add_0_r in H0.
    rewrite H0, IH.
    + simpl. f_equal. lia.
    + intros j x Hj. rewrite <- (Hal (S j) x Hj). f_equal. lia.
Qed.

Lemma replace_paragraphs_mapped (paragraphs : list (list A)) ts i :
  (∀ j x, concat paragraphs !! j = Some x → ts !! (i + j) = Some (g x)) →
  PowerPoint.replace_paragraphs (map (map a) paragraphs) ts i
  = (map (map g) paragraphs, i + length (concat paragraphs)).
Proof.
  revert i. induction paragraphs as [|p paragraphs IH]; intros i Hal.
  - simpl. f_equal. lia.
  - cbn [map PowerPoint.replace_paragraphs concat].
    rewrite replace_runs_mapped.
    + rewrite IH.
      * rewrite length_app. f_equal. lia.
      * intros j x Hj. rewrite <- (Hal (length p + j) x).
        -- f_equal. lia.
        -- simpl. by rewrite lookup_app_r, Nat.add_comm, Nat.add_sub by lia.
    + intros j x Hj. apply Hal. simpl. by apply lookup_app_l_Some.
Qed.

Lemma replace_shapes_mapped_from (shapes : list (PowerPoint.shape A)) :
  Forall (λ sh, ∀ ts i,
            (∀ j x, PowerPoint.shape_runs sh !! j = Some x →
                    ts !! (i + j) = Some (g x)) →
            PowerPoint._replace_text_in_shape (PowerPoint.shape_map a h sh)
              ts i
            = (PowerPoint.shape_map g h sh,
               i + length (PowerPoint.shape_runs sh))) shapes →
  ∀ ts i,
    (∀ j x, PowerPoint.slide_runs shapes !! j = Some x →
            ts !! (i + j) = Some (g x)) →
    PowerPoint.replace_shapes (map (PowerPoint.shape_map a h) shapes) ts i
    = (map (PowerPoint.shape_map g h) shapes,
       i + length (PowerPoint.slide_runs shapes)).
Proof.
  unfold PowerPoint.slide_runs.
  induction 1 as [|sh shapes Hsh _ IH]; intros ts i Hal.
  - simpl. f_equal. lia.
  - cbn [map]. rewrite replace_shapes_cons. cbn [map concat] in *.
    rewrite Hsh.
    + cbn [fst snd]. rewrite IH.
      * cbn [fst snd]. rewrite length_app. f_equal. lia.
      * intros j x Hj.
        rewrite <- (Hal (length (PowerPoint.shape_runs sh) + j) x).
        -- f_equal. lia.
        -- by rewrite lookup_app_r, Nat.add_comm, Nat.add_sub by lia.
    + intros j x Hj. apply Hal. by apply lookup_app_l_Some.
Qed.

Lemma replace_shape_mapped (sh : PowerPoint.shape A) :
  ∀ ts i,
    (∀ j x, PowerPoint.shape_runs sh !! j = Some x →
            ts !! (i + j) = Some (g x)) →
    PowerPoint._replace_text_in_shape (PowerPoint.shape_map a h sh) ts i
    = (PowerPoint.shape_map g h sh, i + length (PowerPoint.shape_runs sh)).
Proof.
  induction sh as [paragraphs|shapes IH|cells|] using shape_induction;
    intros ts i Hal.
  - cbn [PowerPoint.shape_map PowerPoint._replace_text_in_shape
         PowerPoint.shape_runs] in *.
    by rewrite replace_paragraphs_mapped.
  - cbn [PowerPoint.shape_map]. rewrite replace_group.
    by rewrite (replace_shapes_mapped_from shapes IH ts i Hal).
  - simpl. f_equal. lia.
  - simpl. f_equal. lia.
Qed.

Lemma replace_slide_mapped (slide : list (PowerPoint.shape A)) ts :
  (∀ j x, PowerPoint.slide_runs slide !! j = Some x → ts !! j = Some (g x)) →
  PowerPoint._replace_text_in_slide (map (PowerPoint.shape_map a h) slide) ts
  = map (PowerPoint.shape_map g h) slide.
Proof.
  intros Hal. unfold PowerPoint._replace_text_in_slide.
  rewrite (replace_shapes_mapped_from slide); [done| |done].
  apply Forall_forall. intros sh _. apply replace_shape_mapped.
Qed.

End Mapped.

Section Presentation.
Context {Service : Type}.
Variable gen : Service → list string → string → response * Service.
Variable f : string → string.

Lemma process_slide_translates (fuel : nat)
    (slide : list (PowerPoint.shape string)) (lang : string)
    (s : state Service) :
  answers_or_miscounts f gen →
  cache_agrees f lang (translation_cache s) →
  length (PowerPoint.slide_runs slide) < fuel →
  length (PowerPoint.slide_cells slide) < fuel →
  ∃ s',
    PowerPoint.process_slide gen fuel slide lang s
    = Ret (map (PowerPoint.shape_map (PowerPoint.translated_run f)
                                     (PowerPoint.translated_cell f)) slide) s'
    ∧ cache_agrees f lang (translation_cache s').
Proof.
  intros Hgen Hc Hruns Hcells. unfold PowerPoint.process_slide. mrun.
  destruct (collect_translates gen f fuel lang Hgen slide s Hc Hcells)
    as (s1 & -> & Hc1).
  destruct (PowerPoint.slide_runs slide) as [|t texts] eqn:Htexts.
  - exists s1. split; [|done]. mrun. f_equal.
    rewrite <- (replace_slide_mapped Some (PowerPoint.translated_run f)
                  (PowerPoint.translated_cell f) slide []).
    + symmetry. apply replace_slide_mapped.
      intros j x. by rewrite Htexts.
    + intros j x. by rewrite Htexts.
  - destruct (translate_batch_translates gen f fuel (t :: texts) lang s1
                Hgen Hc1 Hruns) as (s2 & Hrun & Hc2 & _).
    mrun. rewrite Hrun.
    exists s2. split; [|done]. f_equal.
    apply replace_slide_mapped. intros j x Hj. rewrite Htexts in Hj.
    by rewrite list_lookup_fmap, Hj.
Qed.

(** X18: against a translating service, [process_powerpoint] leaves in
    every run of every text frame, also inside groups, the translation of
    its normalized text, and in every table cell with a text the
    translation of its normalized text; cells without a text and the
    structure of the slides are unchanged. *)
Theorem process_powerpoint_translates (fuel : nat)
    (slides : list (list (PowerPoint.shape string))) (lang : string)
    (s : state Service) :
  answers_or_miscounts f gen →
  cache_agrees f lang (translation_cache s) →
  Forall (λ slide, length (PowerPoint.slide_runs slide) < fuel
                   ∧ length (PowerPoint.slide_cells slide) < fuel) slides →
  ∃ s',
    PowerPoint.process_powerpoint gen fuel slides lang s
    = Ret (map (map (PowerPoint.shape_map (PowerPoint.translated_run f)
                                          (PowerPoint.translated_cell f)))
               slides) s'
    ∧ cache_agrees f lang (translation_cache s').
Proof.
  intros Hgen Hc Hall. revert s Hc.
  induction Hall as [|slide slides [Hruns Hcells] _ IH]; intros s Hc.
  - by exists s.
  - cbn [PowerPoint.process_powerpoint]. mrun.
    destruct (process_slide_translates fuel slide lang s Hgen Hc Hruns Hcells)
      as (s1 & -> & Hc1).
    destruct (IH s1 Hc1) as (s2 & -> & Hc2).
    by exists s2.
Qed.

End Presentation.

(** Two slides: text frames, a group with a table, and a slide without
    any run. *)
Lemma process_powerpoint_translates_witness :
  ∃ s',
    PowerPoint.process_powerpoint singles_only 6
      [[PowerPoint.TextFrame [["Hello "; "world"]; []; ["x"]];
        PowerPoint.OtherShape;
        PowerPoint.GroupShape
          [PowerPoint.TableShape ["a"; ""; "b c"];
           PowerPoint.TextFrame [["in group"]]]];
       [PowerPoint.TableShape ["a"]]] "French" (fresh ())
    = Ret [[PowerPoint.TextFrame
              [[Some "T:Hello"; Some "T:world"]; []; [Some "T:x"]];
            PowerPoint.OtherShape;
            PowerPoint.GroupShape
              [PowerPoint.TableShape [Some "T:a"; Some ""; Some "T:b c"];
               PowerPoint.TextFrame [[Some "T:in group"]]]];
           [PowerPoint.TableShape [Some "T:a"]]] s'
    ∧ cache_agrees tag "French" (translation_cache s').
Proof.
  apply (process_powerpoint_translates singles_only tag 6
           [[PowerPoint.TextFrame [["Hello "; "world"]; []; ["x"]];
             PowerPoint.OtherShape;
             PowerPoint.GroupShape
               [PowerPoint.TableShape ["a"; ""; "b c"];
                PowerPoint.TextFrame [["in group"]]]];
            [PowerPoint.TableShape ["a"]]] "French" (fresh ())
           singles_only_answers (cache_agrees_empty tag "French")).
  repeat constructor; simpl; lia.
Defined.

(** ** Slides against any service *)

Section ShapeMap.
Context {A B C : Type}.






End ShapeMap.


Section AnyService.
Context {Service : Type}.
Variable gen : Service → list string → string → response * Service.
Variable fuel : nat.
Variable lang : string.







End AnyService.

